(** * Liftbridge: the commit log and the metadata plane

    A shallow embedding of [server/commitlog/commitlog.go] and
    [server/metadata.go].

    Conventions.
    - Every exported method runs under the log mutex or the metadata mutex;
      the model is sequential and runs each method atomically.
    - Go's [int64], [int32] and [int] values are integers of [Z]; arithmetic
      that can leave the range goes through [Go.int64] / [Go.int32]. An
      [int] has 64 bits.
    - A map is a [gmap], a set a [gset]; a missing key of a [map[string]int]
      reads as 0, as in Go.
    - Outcomes of the file system, of the clock and of Raft are explicit
      arguments of the operations that consult them. *)

From Stdlib Require Import ZArith Lia.
From stdpp Require Import gmap strings pretty list fin_maps fin_sets sorting.

Local Open Scope Z_scope.

(** ** Go integers *)
Module Go.

Definition wrap (w : Z) (x : Z) : Z := (x + 2 ^ (w - 1)) mod 2 ^ w - 2 ^ (w - 1).

Definition int64 (x : Z) : Z := wrap 64 x.
Definition int32 (x : Z) : Z := wrap 32 x.

Definition MaxInt64 : Z := 9223372036854775807.
Definition MinInt64 : Z := -9223372036854775808.

Definition inInt64 (x : Z) : Prop := MinInt64 <= x <= MaxInt64.

(** [a / b] on Go integers truncates toward zero. *)
Definition div (a b : Z) : Z := Z.quot a b.

(** [len] of a slice or a map. *)
Definition len {A} (l : list A) : Z := Z.of_nat (length l).

(** [sort.SliceStable(s, less)]: the stable sort of [s] by [less]. Each
    element goes behind the elements that are less than it and before the
    first one that is not, so elements that compare equal keep their order. *)
Fixpoint insertStable {A} (less : A -> A -> bool) (x : A) (l : list A) : list A :=
  match l with
  | [] => [x]
  | y :: l' => if less y x then y :: insertStable less x l' else x :: l
  end.

Definition SliceStable {A} (less : A -> A -> bool) (l : list A) : list A :=
  foldr (insertStable less) [] l.

(** [time.Since(t)] at the instant [now], both in nanoseconds from the zero
    Time: a Duration, which saturates at the ends of int64. *)
Definition Since (now t : Z) : Z := Z.max MinInt64 (Z.min MaxInt64 (now - t)).

End Go.

(** ** package commitlog *)
Module commitlog.

Inductive error :=
| ErrSegmentNotFound
| ErrIncorrectOffset
| ErrCommitLogReadonly
| ErrSegmentExists
| ErrEpochNotMonotonic
| ErrSegmentSealed
| ErrIO (what : string).

#[global] Instance error_eq_dec : EqDecision error.
Proof. solve_decision. Defined.

(** A framed record of the log (one message). *)
Record message := {
  Offset : Z;
  Timestamp : Z;
  LeaderEpoch : Z;
  Key : string;
  Value : string
}.

(** A message set is a contiguous sequence of framed records. *)
Definition messageSet := list message.

(** An index entry, one per record. *)
Record entry := {
  eOffset : Z;
  eTimestamp : Z;
  eLeaderEpoch : Z;
  ePosition : Z;
  eSize : Z
}.

(** Bytes of one framed record: the length prefix, offset, timestamp, leader
    epoch, the two length-prefixed fields, the header count and the crc. *)
Definition frameLen (m : message) : Z :=
  4 + 8 + 8 + 8 + 4 + Go.len (String.list_ascii_of_string (Key m))
  + 4 + Go.len (String.list_ascii_of_string (Value m)) + 4 + 4.

(** Modelled from the spec: the segment (segment.go is not among the sources).
    A pair of append-only files covering a contiguous offset range; [log] is
    the data file in write order, [nextOffset] and [position] are updated by
    every write. *)
Record segment := {
  BaseOffset : Z;
  nextOffset : Z;
  position : Z;
  log : list message;
  sealed : bool
}.

(** Modelled from the spec: the accessors of the segment. *)
Definition NextOffset (s : segment) : Z := nextOffset s.
Definition Position (s : segment) : Z := position s.

(** Outcome of the file-system operations: [None] is success. *)
Inductive ioOp :=
| IoCreate (base : Z)
| IoCreateTruncated (base : Z)
| IoDelete (base : Z)
| IoWrite (base : Z) (pos : Z)
| IoReplace (base : Z)
| IoCheckpointEpochs.

Definition ioOutcome := ioOp -> option error.

Definition ioOK : ioOutcome := fun _ => None.

(** Modelled from the spec: [create(path, baseOffset, ...)] returns a segment
    with position 0 and nextOffset = baseOffset. *)
Definition emptySegment (base : Z) : segment :=
  {| BaseOffset := base; nextOffset := base; position := 0; log := []; sealed := false |}.

(** Modelled from the spec: [newSegment] creates the files of the segment,
    which can fail. *)
Definition newSegment (io : ioOutcome) (base : Z) : error + segment :=
  match io (IoCreate base) with
  | Some e => inl e
  | None => inr (emptySegment base)
  end.

(** Modelled from the spec: [truncated()] creates a sibling segment with the
    same baseOffset (and a distinguishing suffix). *)
Definition Truncated (io : ioOutcome) (s : segment) : error + segment :=
  match io (IoCreateTruncated (BaseOffset s)) with
  | Some e => inl e
  | None => inr (emptySegment (BaseOffset s))
  end.

(** Modelled from the spec: [writeMessageSet(bytes, entries)] appends the bytes
    at the current position and updates position and nextOffset; a sealed
    segment takes no further writes. *)
Definition WriteMessageSet (io : ioOutcome) (s : segment) (ms : messageSet)
    (entries : list entry) : error + segment :=
  if sealed s then inl ErrSegmentSealed
  else match io (IoWrite (BaseOffset s) (position s)) with
  | Some e => inl e
  | None =>
      inr {| BaseOffset := BaseOffset s;
             nextOffset := match last entries with
                           | Some e => Go.int64 (eOffset e + 1)
                           | None => nextOffset s
                           end;
             position := position s + foldr (fun m n => frameLen m + n) 0 ms;
             log := log s ++ ms;
             sealed := false |}
  end.

(** Modelled from the spec: [seal()] marks the segment immutable. *)
Definition Seal (s : segment) : segment :=
  {| BaseOffset := BaseOffset s; nextOffset := nextOffset s;
     position := position s; log := log s; sealed := true |}.

(** Modelled from the spec: [Delete] removes the files of the segment. A
    segment that is in no list of the log any more is a deleted segment. *)
Definition segDelete (io : ioOutcome) (s : segment) : option error :=
  io (IoDelete (BaseOffset s)).

(** Modelled from the spec: [replace(old)] renames this segment's files over
    [old]; the segment takes the place of [old]. *)
Definition Replace (io : ioOutcome) (new old : segment) : option error :=
  io (IoReplace (BaseOffset old)).

(** Modelled from the spec: [scan()] is the ordered sequence of
    (messageSet, entry), one pair per record of the data file. *)
Fixpoint scanFrom (pos : Z) (ms : list message) : list (messageSet * entry) :=
  match ms with
  | [] => []
  | m :: rest =>
      ([m], {| eOffset := Offset m; eTimestamp := Timestamp m;
               eLeaderEpoch := LeaderEpoch m; ePosition := pos;
               eSize := frameLen m |}) :: scanFrom (pos + frameLen m) rest
  end.

Definition Scan (s : segment) : list (messageSet * entry) := scanFrom 0 (log s).

(** [ms.Offset()]: the offset of the first record of the set. *)
Definition msOffset (ms : messageSet) : Z :=
  match ms with
  | m :: _ => Offset m
  | [] => 0
  end.

(** Modelled from the spec: the segment containing [offset], with its index
    (findSegment is not among the sources). A segment covers the offsets from
    its baseOffset up to, and excluding, its nextOffset. *)
Definition contains (s : segment) (offset : Z) : Prop :=
  BaseOffset s <= offset < NextOffset s.

#[global] Instance contains_dec s offset : Decision (contains s offset).
Proof. unfold contains. apply _. Defined.

Definition findSegment (segments : list segment) (offset : Z) : option (nat * segment) :=
  list_find (fun s => contains s offset) segments.

(** *** Leader-epoch cache *)

Record epochOffset := { leaderEpoch : Z; startOffset : Z }.

(** Modelled from the spec: the leader-epoch cache (leader_epoch_cache.go is
    not among the sources), an ordered list of (epoch, first offset of the
    epoch) in insertion order. *)
Definition leaderEpochCache := list epochOffset.

(** Modelled from the spec: [lastLeaderEpoch()] returns 0 if empty. *)
Definition cacheLastLeaderEpoch (c : leaderEpochCache) : Z :=
  match last c with
  | Some e => leaderEpoch e
  | None => 0
  end.

(** Modelled from the spec: [assign(epoch, offset)] appends iff
    epoch > lastEpoch and persists; otherwise a monotonicity violation. *)
Definition cacheAssign (io : ioOutcome) (c : leaderEpochCache) (epoch offset : Z)
    : error + leaderEpochCache :=
  if bool_decide (cacheLastLeaderEpoch c < epoch) then
    match io IoCheckpointEpochs with
    | Some e => inl e
    | None => inr (c ++ [{| leaderEpoch := epoch; startOffset := offset |}])
    end
  else inl ErrEpochNotMonotonic.

(** The entry of least epoch among those with an epoch strictly greater than
    [requested]. *)
Fixpoint leastGreater (requested : Z) (c : leaderEpochCache) : option epochOffset :=
  match c with
  | [] => None
  | e :: rest =>
      let r := leastGreater requested rest in
      if bool_decide (requested < leaderEpoch e) then
        match r with
        | Some e' => if bool_decide (leaderEpoch e' < leaderEpoch e) then Some e' else Some e
        | None => Some e
        end
      else r
  end.

(** Modelled from the spec: [lastOffsetForLeaderEpoch(requestedEpoch)]: if
    requested = lastEpoch return -1; else the startOffset of the least epoch
    strictly greater than requested; if there is none return -1. *)
Definition cacheLastOffsetForLeaderEpoch (c : leaderEpochCache) (requested : Z) : Z :=
  if bool_decide (requested = cacheLastLeaderEpoch c) then -1
  else match leastGreater requested c with
       | Some e => startOffset e
       | None => -1
       end.

(** Modelled from the spec: [clearLatest(offset)] drops the entries with
    startOffset > offset and persists the rest. *)
Definition cacheClearLatest (io : ioOutcome) (c : leaderEpochCache) (offset : Z)
    : option error * leaderEpochCache :=
  match io IoCheckpointEpochs with
  | Some e => (Some e, c)
  | None => (None, filter (fun e => startOffset e <= offset) c)
  end.

(** *** The commit log *)

Record Options := {
  MaxSegmentBytes : Z;
  MaxSegmentAge : Z;
  ConcurrencyControl : bool
}.

(** [chans] is the heap of the waiter channels ([make(chan bool, 1)]): the
    values sent on each channel so far. A channel is shared between the log,
    which holds it in [hwWaiters], and the reader that [waitForHW] returned it
    to; both name it by its index. A [contextReader] is named by a number.
    [vActiveSegment] always points to the last element of [segments]
    (open, split and Truncate store it so): see [activeSegment]. *)
Record commitLog := {
  readonly : bool;
  hw : Z;
  segments : list segment;
  hwWaiters : gmap nat nat;
  epochCache : leaderEpochCache;
  deleted : bool;
  options : Options;
  chans : list (list bool)
}.

Definition set_readonly (v : bool) (l : commitLog) : commitLog :=
  {| readonly := v; hw := hw l; segments := segments l; hwWaiters := hwWaiters l;
     epochCache := epochCache l; deleted := deleted l; options := options l;
     chans := chans l |}.

Definition set_hw (v : Z) (l : commitLog) : commitLog :=
  {| readonly := readonly l; hw := v; segments := segments l; hwWaiters := hwWaiters l;
     epochCache := epochCache l; deleted := deleted l; options := options l;
     chans := chans l |}.

Definition set_segments (v : list segment) (l : commitLog) : commitLog :=
  {| readonly := readonly l; hw := hw l; segments := v; hwWaiters := hwWaiters l;
     epochCache := epochCache l; deleted := deleted l; options := options l;
     chans := chans l |}.

Definition set_epochCache (v : leaderEpochCache) (l : commitLog) : commitLog :=
  {| readonly := readonly l; hw := hw l; segments := segments l; hwWaiters := hwWaiters l;
     epochCache := v; deleted := deleted l; options := options l;
     chans := chans l |}.

Definition set_waiters (w : gmap nat nat) (c : list (list bool)) (l : commitLog) : commitLog :=
  {| readonly := readonly l; hw := hw l; segments := segments l; hwWaiters := w;
     epochCache := epochCache l; deleted := deleted l; options := options l;
     chans := c |}.

(** The log that [New] returns for an empty directory: one empty segment at
    offset 0, HW -1, no waiters. *)
Definition New (opts : Options) : commitLog :=
  {| readonly := false; hw := -1; segments := [emptySegment 0]; hwWaiters := ∅;
     epochCache := []; deleted := false; options := opts; chans := [] |}.

Definition activeSegment (l : commitLog) : segment :=
  default (emptySegment 0) (last (segments l)).

Definition IsReadonly (l : commitLog) : bool := readonly l.

Definition IsConcurrencyControlEnabled (l : commitLog) : bool :=
  ConcurrencyControl (options l).

Definition NewestOffset (l : commitLog) : Z :=
  Go.int64 (NextOffset (activeSegment l) - 1).

Definition HighWatermark (l : commitLog) : Z := hw l.

Definition LastLeaderEpoch (l : commitLog) : Z := cacheLastLeaderEpoch (epochCache l).

Definition LastOffsetForLeaderEpoch (l : commitLog) (epoch : Z) : Z :=
  let offset := cacheLastOffsetForLeaderEpoch (epochCache l) epoch in
  if bool_decide (offset = -1) then Go.int64 (NextOffset (activeSegment l) - 1)
  else offset.

(** **** Truncate *)

Fixpoint deleteAll (io : ioOutcome) (segs : list segment) : option error :=
  match segs with
  | [] => None
  | s :: rest =>
      match segDelete io s with
      | Some e => Some e
      | None => deleteAll io rest
      end
  end.

(** The scan loop of Truncate: copy while [ms.Offset() < offset], stop at the
    first record that is not. *)
Fixpoint copyBelow (io : ioOutcome) (offset : Z) (scan : list (messageSet * entry))
    (dst : segment) : error + segment :=
  match scan with
  | [] => inr dst
  | (ms, e) :: rest =>
      if bool_decide (msOffset ms < offset) then
        match WriteMessageSet io dst ms [e] with
        | inl err => inl err
        | inr dst' => copyBelow io offset rest dst'
        end
      else inr dst
  end.

Definition Truncate (io : ioOutcome) (l : commitLog) (offset : Z)
    : option error * commitLog :=
  match findSegment (segments l) offset with
  | None => (None, l)
  | Some (idx, seg) =>
      match deleteAll io (drop (S idx) (segments l)) with
      | Some err => (Some err, l)
      | None =>
          let replace :=
            if bool_decide (BaseOffset seg = offset)
            then (if bool_decide (idx = 0%nat) then true else false)
            else true in
          let deleted :=
            if replace then None else segDelete io seg in
          match deleted with
          | Some err => (Some err, l)
          | None =>
              let preceding := take idx (segments l) in
              let finish (segs : list segment) :=
                let l' := set_segments segs l in
                let '(err, c) := cacheClearLatest io (epochCache l') offset in
                (err, set_epochCache c l') in
              if replace then
                match Truncated io seg with
                | inl err => (Some err, l)
                | inr fresh =>
                    match copyBelow io offset (Scan seg) fresh with
                    | inl err => (Some err, l)
                    | inr newSeg =>
                        match Replace io newSeg seg with
                        | Some err => (Some err, l)
                        | None => finish (preceding ++ [newSeg])
                        end
                    end
                end
              else finish preceding
          end
      end
  end.

(** **** Append *)

(** The client-side message handed to Append. *)
Record Message := {
  mOffset : Z;
  mTimestamp : Z;
  mLeaderEpoch : Z;
  mKey : string;
  mValue : string
}.

(** What the commit log calls and the sources do not contain, with the file
    system: the roll policy [segment.CheckSplit(maxSegmentAge)], which reads
    the clock, and the encoder [newMessageSetFromProto]. *)
Record env := {
  io : ioOutcome;
  CheckSplit : Z -> segment -> bool;
  newMessageSetFromProto :
    Z -> Z -> list Message -> bool -> error + (messageSet * list entry)
}.

(** Modelled from the spec: [entriesForMessageSet] parses the entries from the
    framed bytes without re-encoding. *)
Definition entriesForMessageSet (basePosition : Z) (ms : messageSet) : list entry :=
  (scanFrom basePosition ms).*2.

(** [split]: in the sequential model the compare-and-swap on the
    active-segment pointer finds the segment that was just loaded. *)
Definition split (E : env) (l : commitLog) (oldActiveSegment : segment)
    : option error * commitLog :=
  let offset := Go.int64 (NewestOffset l + 1) in
  match newSegment (io E) offset with
  | inl err => (Some err, l)
  | inr seg => (None, set_segments (segments l ++ [seg]) l)
  end.

(** The retry loop of [checkAndPerformSplit]; [None] when [fuel] iterations
    did not leave it. *)
Fixpoint checkAndPerformSplit (E : env) (fuel : nat) (l : commitLog)
    : option (bool * option error * commitLog) :=
  match fuel with
  | O => None
  | S fuel' =>
      let active := activeSegment l in
      if negb (CheckSplit E (MaxSegmentAge (options l)) active) then
        Some (false, None, l)
      else
        match split E l active with
        | (Some err, l') =>
            if bool_decide (err = ErrSegmentExists)
            then checkAndPerformSplit E fuel' l'
            else Some (false, Some err, l')
        | (None, l') =>
            let old := pred (length (segments l)) in
            Some (true, None, set_segments (alter Seal old (segments l')) l')
        end
  end.

Fixpoint assignEpochs (io : ioOutcome) (c : leaderEpochCache) (lastLeaderEpoch : Z)
    (entries : list entry) : option error * leaderEpochCache :=
  match entries with
  | [] => (None, c)
  | e :: rest =>
      if bool_decide (lastLeaderEpoch < eLeaderEpoch e) then
        match cacheAssign io c (eLeaderEpoch e) (eOffset e) with
        | inl err => (Some err, c)
        | inr c' => assignEpochs io c' (eLeaderEpoch e) rest
        end
      else assignEpochs io c lastLeaderEpoch rest
  end.

(** [append] writes through the active-segment pointer: the last element of
    [segments] is the segment written. *)
Definition append (E : env) (l : commitLog) (seg : segment) (ms : messageSet)
    (entries : list entry) : (error + list Z) * commitLog :=
  match WriteMessageSet (io E) seg ms entries with
  | inl err => (inl err, l)
  | inr seg' =>
      let l1 := set_segments (<[pred (length (segments l)) := seg']> (segments l)) l in
      match assignEpochs (io E) (epochCache l1) (cacheLastLeaderEpoch (epochCache l1)) entries with
      | (Some err, c) => (inl err, set_epochCache c l1)
      | (None, c) => (inr (eOffset <$> entries), set_epochCache c l1)
      end
  end.

Definition Append (E : env) (fuel : nat) (l : commitLog) (msgs : list Message)
    : option ((error + list Z) * commitLog) :=
  if IsReadonly l then Some (inl ErrCommitLogReadonly, l)
  else
    match checkAndPerformSplit E fuel l with
    | None => None
    | Some (_, Some err, l1) => Some (inl err, l1)
    | Some (_, None, l1) =>
        let seg := activeSegment l1 in
        match newMessageSetFromProto E (NextOffset seg) (Position seg) msgs
                (IsConcurrencyControlEnabled l1) with
        | inl err => Some (inl err, l1)
        | inr (ms, entries) => Some (append E l1 seg ms entries)
        end
    end.

Definition AppendMessageSet (E : env) (fuel : nat) (l : commitLog) (ms : messageSet)
    : option ((error + list Z) * commitLog) :=
  match checkAndPerformSplit E fuel l with
  | None => None
  | Some (_, Some err, l1) => Some (inl err, l1)
  | Some (_, None, l1) =>
      let seg := activeSegment l1 in
      let entries := entriesForMessageSet (Position seg) ms in
      Some (append E l1 seg ms entries)
  end.

(** **** High watermark and its waiters *)

(** [ch <- v] on the channel [ch] of the heap. *)
Definition send (ch : nat) (v : bool) (cs : list (list bool)) : list (list bool) :=
  alter (fun sent => sent ++ [v]) ch cs.

(** The loop of notifyHWChange and notifyReadonly:
    [for r, ch := range l.hwWaiters { ch <- v; delete(l.hwWaiters, r) }]. *)
Definition notifyAll (v : bool) (l : commitLog) : commitLog :=
  set_waiters ∅ (map_fold (fun _ ch cs => send ch v cs) (chans l) (hwWaiters l)) l.

Definition notifyHWChange (l : commitLog) : commitLog := notifyAll false l.

Definition notifyReadonly (l : commitLog) : commitLog :=
  if bool_decide (hw l < NewestOffset l) then l
  else notifyAll true l.

Definition SetHighWatermark (l : commitLog) (v : Z) : commitLog :=
  if bool_decide (hw l < v) then notifyHWChange (set_hw v l)
  else l.

Definition OverrideHighWatermark (l : commitLog) (v : Z) : commitLog :=
  notifyHWChange (set_hw v l).

(** [waitForHW] returns the channel it made, by its index in the heap. *)
Definition waitForHW (l : commitLog) (r : nat) (v : Z) : nat * commitLog :=
  let wait := length (chans l) in
  let cs := chans l ++ [[]] in
  if negb (bool_decide (hw l = v)) then
    (wait, set_waiters (hwWaiters l) (send wait false cs) l)
  else if bool_decide (hw l = NewestOffset l) && IsReadonly l then
    (wait, set_waiters (hwWaiters l) (send wait true cs) l)
  else
    (wait, set_waiters (<[r := wait]> (hwWaiters l)) cs l).

Definition removeHWWaiter (l : commitLog) (r : nat) : commitLog :=
  set_waiters (delete r (hwWaiters l)) (chans l) l.

Definition SetReadonly (l : commitLog) (ro : bool) : commitLog :=
  let l' := set_readonly ro l in
  if ro then notifyReadonly l' else l'.

(** **** Leader epochs *)

(** [NewLeaderEpoch]: the epoch starts at the newest offset of the log. *)
Definition NewLeaderEpoch (io : ioOutcome) (l : commitLog) (epoch : Z)
    : option error * commitLog :=
  match cacheAssign io (epochCache l) epoch (NewestOffset l) with
  | inl e => (Some e, l)
  | inr c => (None, set_epochCache c l)
  end.

(** **** Close and Delete *)

(** The log with what [commitLog] leaves out: whether the [closed] channel is
    closed, the text of the HW checkpoint file, whether the segment files
    were closed and whether the directory was removed. *)
Record handle := {
  theLog : commitLog;
  closed : bool;
  hwFile : option string;
  segmentsClosed : bool;
  removed : bool
}.

(** The outcomes of the file operations of one Close or Delete. *)
Record closing := {
  checkpointFails : option error;
  closeFails : segment -> option error;
  removeFails : option error
}.

Definition set_deleted (v : bool) (l : commitLog) : commitLog :=
  {| readonly := readonly l; hw := hw l; segments := segments l; hwWaiters := hwWaiters l;
     epochCache := epochCache l; deleted := v; options := options l;
     chans := chans l |}.

(** [checkpointHW] writes the HW in decimal to the checkpoint file. *)
Definition checkpointHW (h : handle) (c : closing) : option error * handle :=
  match checkpointFails c with
  | Some e => (Some e, h)
  | None =>
      (None, {| theLog := theLog h; closed := closed h;
                hwFile := Some (pretty (hw (theLog h)));
                segmentsClosed := segmentsClosed h; removed := removed h |})
  end.

Fixpoint closeAll (c : closing) (segs : list segment) : option error :=
  match segs with
  | [] => None
  | s :: rest =>
      match closeFails c s with
      | Some e => Some e
      | None => closeAll c rest
      end
  end.

Definition close (h : handle) (c : closing) : option error * handle :=
  if closed h then (None, h)
  else
    match checkpointHW h c with
    | (Some e, _) => (Some e, h)
    | (None, h1) =>
        match closeAll c (segments (theLog h1)) with
        | Some e =>
            (Some e, {| theLog := theLog h1; closed := true; hwFile := hwFile h1;
                        segmentsClosed := segmentsClosed h1; removed := removed h1 |})
        | None =>
            (None, {| theLog := theLog h1; closed := true; hwFile := hwFile h1;
                      segmentsClosed := true; removed := removed h1 |})
        end
    end.

Definition Close (h : handle) (c : closing) : option error * handle := close h c.

Definition Delete (h : handle) (c : closing) : option error * handle :=
  let h0 := {| theLog := set_deleted true (theLog h); closed := closed h;
               hwFile := hwFile h; segmentsClosed := segmentsClosed h;
               removed := removed h |} in
  match close h0 c with
  | (Some e, h1) => (Some e, h1)
  | (None, h1) =>
      match removeFails c with
      | Some e => (Some e, h1)
      | None =>
          (None, {| theLog := theLog h1; closed := closed h1; hwFile := hwFile h1;
                    segmentsClosed := segmentsClosed h1; removed := true |})
      end
  end.

Definition IsDeleted (h : handle) : bool := deleted (theLog h).
Definition IsClosed (h : handle) : bool := closed h.

End commitlog.

(** ** package server: the metadata plane *)
Module server.

Inductive code := OK | InvalidArgument | NotFound | AlreadyExists | FailedPrecondition | Internal.

(** A [*status.Status]; the nil status is [None]. *)
Record status := { Code : code; Msg : string }.

Inductive error :=
| ErrStreamExists
| ErrStreamNotFound
| ErrPartitionNotFound
| ErrText (msg : string).

Definition errorText (e : error) : string :=
  match e with
  | ErrStreamExists => "stream already exists"
  | ErrStreamNotFound => "stream does not exist"
  | ErrPartitionNotFound => "partition does not exist"
  | ErrText msg => msg
  end.

(** [errors.Wrap(err, msg)]. *)
Definition Wrap (e : error) (msg : string) : error :=
  ErrText (msg +:+ ": " +:+ errorText e).

Definition maxReplicationFactor : Z := -1.

(** Modelled from the spec: the partition (partition.go is not among the
    sources), with the fields of its protobuf message. [Isr] is the set the
    message's list stands for; [Epoch] and [LeaderEpoch] are uint64. *)
Record partition := {
  Stream : string;
  Id : Z;
  ReplicationFactor : Z;
  Replicas : list string;
  Isr : gset string;
  Leader : string;
  LeaderEpoch : Z;
  Epoch : Z;
  Paused : bool;
  Readonly : bool
}.

(** Modelled from the spec: the accessors of the partition. *)
Definition GetLeader (p : partition) : string * Z := (Leader p, LeaderEpoch p).
Definition GetEpoch (p : partition) : Z := Epoch p.
Definition GetReplicas (p : partition) : list string := Replicas p.
Definition IsPaused (p : partition) : bool := Paused p.
(** [GetISR] lists the set in an order of its own, as ranging over a Go map
    does. *)
Definition GetISR (p : partition) : list string := elements (Isr p).
Definition ISRSize (p : partition) : Z := Z.of_nat (size (Isr p)).

Definition SetEpoch (p : partition) (epoch : Z) : partition :=
  {| Stream := Stream p; Id := Id p; ReplicationFactor := ReplicationFactor p;
     Replicas := Replicas p; Isr := Isr p; Leader := Leader p;
     LeaderEpoch := LeaderEpoch p; Epoch := epoch; Paused := Paused p;
     Readonly := Readonly p |}.

Definition setISR (p : partition) (isr : gset string) : partition :=
  {| Stream := Stream p; Id := Id p; ReplicationFactor := ReplicationFactor p;
     Replicas := Replicas p; Isr := isr; Leader := Leader p;
     LeaderEpoch := LeaderEpoch p; Epoch := Epoch p; Paused := Paused p;
     Readonly := Readonly p |}.

Definition setPaused (p : partition) (paused : bool) : partition :=
  {| Stream := Stream p; Id := Id p; ReplicationFactor := ReplicationFactor p;
     Replicas := Replicas p; Isr := Isr p; Leader := Leader p;
     LeaderEpoch := LeaderEpoch p; Epoch := Epoch p; Paused := paused;
     Readonly := Readonly p |}.

(** Modelled from the spec: the partition-level operations behind
    RemoveFromISR, AddToISR and ChangeLeader. The spec gives their effect on
    the ISR and the leader; whether the call fails is the argument [fails],
    and a failed call leaves the partition as it was. *)
Definition partitionRemoveFromISR (fails : option error) (p : partition) (replica : string)
    : error + partition :=
  match fails with
  | Some e => inl e
  | None => inr (setISR p (Isr p ∖ {[replica]}))
  end.

Definition partitionAddToISR (fails : option error) (p : partition) (replica : string)
    : error + partition :=
  match fails with
  | Some e => inl e
  | None => inr (setISR p (Isr p ∪ {[replica]}))
  end.

Definition partitionSetLeader (fails : option error) (p : partition) (leader : string)
    (epoch : Z) : error + partition :=
  match fails with
  | Some e => inl e
  | None =>
      inr {| Stream := Stream p; Id := Id p; ReplicationFactor := ReplicationFactor p;
             Replicas := Replicas p; Isr := Isr p; Leader := leader;
             LeaderEpoch := epoch; Epoch := Epoch p; Paused := Paused p;
             Readonly := Readonly p |}
  end.

(** Modelled from the spec: the stream (stream.go is not among the sources). *)
Record stream := {
  Name : string;
  Subject : string;
  partitions : gmap Z partition;
  CreationTime : Z;
  Tombstoned : bool
}.

(** Modelled from the spec: the accessors of the stream; [GetPartitions]
    lists the map in an order of its own. *)
Definition GetPartitions (s : stream) : list partition := (map_to_list (partitions s)).*2.

Definition streamSetPartition (s : stream) (id : Z) (p : partition) : stream :=
  {| Name := Name s; Subject := Subject s; partitions := <[id := p]> (partitions s);
     CreationTime := CreationTime s; Tombstoned := Tombstoned s |}.

Definition Tombstone (s : stream) : stream :=
  {| Name := Name s; Subject := Subject s; partitions := partitions s;
     CreationTime := CreationTime s; Tombstoned := true |}.

(** The witnesses against the leader of one partition. [timer] is the
    [*time.Timer]: nil, pending, or stopped. *)
Inductive timerState := TimerPending | TimerStopped.

Record leaderReport := {
  timer : option timerState;
  witnessReplicas : gset string
}.

Record Broker := {
  bId : string;
  bHost : string;
  bPort : Z;
  PartitionCount : Z;
  LeaderCount : Z
}.

Record Config := {
  ServerID : string;
  Host : string;
  Port : Z;
  MetadataCacheMaxAge : Z;
  ReplicaMaxLeaderTimeout : Z
}.

(** A partition is named by its stream and its id where the source keys a
    map by the partition's pointer. *)
Record metadataAPI := {
  config : Config;
  streams : gmap string stream;
  leaderReports : gmap (string * Z) leaderReport;
  cachedBrokers : list Broker;
  cachedServerIDs : gset string;
  lastCached : Z;
  brokerPartitionLoad : gmap string Z;
  brokerLeaderLoad : gmap string Z
}.

Definition newMetadataAPI (c : Config) : metadataAPI :=
  {| config := c; streams := ∅; leaderReports := ∅; cachedBrokers := [];
     cachedServerIDs := ∅; lastCached := 0;
     brokerPartitionLoad := ∅; brokerLeaderLoad := ∅ |}.

Definition set_streams (v : gmap string stream) (m : metadataAPI) : metadataAPI :=
  {| config := config m; streams := v; leaderReports := leaderReports m;
     cachedBrokers := cachedBrokers m; cachedServerIDs := cachedServerIDs m;
     lastCached := lastCached m; brokerPartitionLoad := brokerPartitionLoad m;
     brokerLeaderLoad := brokerLeaderLoad m |}.

Definition set_leaderReports (v : gmap (string * Z) leaderReport) (m : metadataAPI)
    : metadataAPI :=
  {| config := config m; streams := streams m; leaderReports := v;
     cachedBrokers := cachedBrokers m; cachedServerIDs := cachedServerIDs m;
     lastCached := lastCached m; brokerPartitionLoad := brokerPartitionLoad m;
     brokerLeaderLoad := brokerLeaderLoad m |}.

Definition set_cache (brokers : list Broker) (ids : gset string) (at_ : Z)
    (m : metadataAPI) : metadataAPI :=
  {| config := config m; streams := streams m; leaderReports := leaderReports m;
     cachedBrokers := brokers; cachedServerIDs := ids;
     lastCached := at_; brokerPartitionLoad := brokerPartitionLoad m;
     brokerLeaderLoad := brokerLeaderLoad m |}.

Definition set_loads (pl ll : gmap string Z) (m : metadataAPI) : metadataAPI :=
  {| config := config m; streams := streams m; leaderReports := leaderReports m;
     cachedBrokers := cachedBrokers m; cachedServerIDs := cachedServerIDs m;
     lastCached := lastCached m; brokerPartitionLoad := pl;
     brokerLeaderLoad := ll |}.

(** *** Load counters: [map[string]int] *)

(** [load[broker]]: 0 for a broker that is not a key. *)
Definition load (counts : gmap string Z) (broker : string) : Z :=
  default 0 (counts !! broker).

(** [load[broker]++]. *)
Definition incLoad (broker : string) (counts : gmap string Z) : gmap string Z :=
  <[broker := Go.int64 (load counts broker + 1)]> counts.

(** [if load[broker] > 0 { load[broker]-- }]. *)
Definition decLoad (broker : string) (counts : gmap string Z) : gmap string Z :=
  if bool_decide (0 < load counts broker)
  then <[broker := Go.int64 (load counts broker - 1)]> counts
  else counts.

Definition BrokerPartitionCounts (m : metadataAPI) : gmap string Z := brokerPartitionLoad m.
Definition BrokerLeaderCounts (m : metadataAPI) : gmap string Z := brokerLeaderLoad m.

(** *** Store lookups *)

Definition GetStream (m : metadataAPI) (name : string) : option stream :=
  streams m !! name.

Definition GetStreams (m : metadataAPI) : list stream := (map_to_list (streams m)).*2.

Definition GetPartition (m : metadataAPI) (streamName : string) (id : Z) : option partition :=
  match streams m !! streamName with
  | None => None
  | Some s => partitions s !! id
  end.

(** A partition is a shared object: a write through the pointer that
    [GetPartition m streamName id] returned shows in the store, at the place
    the pointer was found. *)
Definition storePartition (m : metadataAPI) (streamName : string) (id : Z) (p : partition)
    : metadataAPI :=
  set_streams (alter (fun s => streamSetPartition s id p) streamName (streams m)) m.

(** *** Replica placement *)

(** [getClusterServerIDs] reads the Raft configuration: [ids] is its answer. *)
Definition getPartitionReplicas (m : metadataAPI) (ids : error + list string)
    (replicationFactor : Z) : status + list string :=
  match ids with
  | inl err => inl {| Code := Internal; Msg := errorText err |}
  | inr ids =>
      let replicationFactor :=
        if bool_decide (replicationFactor = maxReplicationFactor)
        then Go.int32 (Go.len ids) else replicationFactor in
      if bool_decide (replicationFactor <= 0) then
        inl {| Code := InvalidArgument;
               Msg := "Invalid replicationFactor " +:+ pretty replicationFactor |}
      else if bool_decide (Go.int32 (Go.len ids) < replicationFactor) then
        inl {| Code := InvalidArgument;
               Msg := "Invalid replicationFactor " +:+ pretty replicationFactor
                      +:+ ", cluster size " +:+ pretty (Go.len ids) |}
      else
        let sorted :=
          Go.SliceStable
            (fun a b => bool_decide (load (brokerPartitionLoad m) a
                                     < load (brokerPartitionLoad m) b)) ids in
        inr (take (Z.to_nat replicationFactor) sorted)
  end.

(** [selectPartitionLeader] sorts the slice it is given in place: it returns
    the slice as it leaves it, and [replicas[0]], which is [None] where Go
    panics on an empty slice. *)
Definition selectPartitionLeader (m : metadataAPI) (replicas : list string)
    : list string * option string :=
  let sorted :=
    Go.SliceStable
      (fun a b => bool_decide (load (brokerLeaderLoad m) a < load (brokerLeaderLoad m) b))
      replicas in
  (sorted, head sorted).

(** The body of the placement loop of CreateStream, for one partition; [None]
    is the panic of [selectPartitionLeader]. *)
Definition placePartition (m : metadataAPI) (ids : error + list string) (p : partition)
    : option (status + partition) :=
  match getPartitionReplicas m ids (ReplicationFactor p) with
  | inl st => Some (inl st)
  | inr replicas =>
      match selectPartitionLeader m replicas with
      | (_, None) => None
      | (replicas, Some leader) =>
          Some (inr {| Stream := Stream p; Id := Id p;
                       ReplicationFactor := ReplicationFactor p;
                       Replicas := replicas; Isr := list_to_set replicas;
                       Leader := leader; LeaderEpoch := LeaderEpoch p;
                       Epoch := Epoch p; Paused := Paused p; Readonly := Readonly p |})
      end
  end.

(** *** Leader reports *)

Record ChangeLeaderOp := { clStream : string; clPartition : Z; clLeader : string }.

(** What [applyOperation] and its future answer for a proposed entry. *)
Inductive raftResult :=
| RaftRefused (err : error)
| RaftFailed (err : string)
| RaftCommitted.

Definition noISRCandidates : status :=
  {| Code := FailedPrecondition; Msg := "No ISR candidates" |}.

(** [electNewPartitionLeader] returns its status and the entry it proposed to
    Raft, if it proposed one. The committed entry reaches the store through
    the state machine, which calls [ChangeLeader]. *)
Definition electNewPartitionLeader (m : metadataAPI) (p : partition)
    (raft : ChangeLeaderOp -> raftResult) : option status * option ChangeLeaderOp :=
  let isr := GetISR p in
  if bool_decide (Go.len isr <= 1) then (Some noISRCandidates, None)
  else
    let candidates := filter (fun candidate => candidate <> (GetLeader p).1) isr in
    if bool_decide (Go.len candidates = 0) then (Some noISRCandidates, None)
    else
      match selectPartitionLeader m candidates with
      | (_, None) => (Some noISRCandidates, None) (* not reached: candidates is not empty *)
      | (_, Some leader) =>
          let op := {| clStream := Stream p; clPartition := Id p; clLeader := leader |} in
          match raft op with
          | RaftRefused err =>
              (Some {| Code := FailedPrecondition; Msg := errorText err |}, Some op)
          | RaftFailed err =>
              (Some {| Code := Internal;
                       Msg := "Failed to replicate leader change: " +:+ err |}, Some op)
          | RaftCommitted => (None, Some op)
          end
      end.

Definition reportKey (p : partition) : string * Z := (Stream p, Id p).

Definition emptyReport : leaderReport := {| timer := None; witnessReplicas := ∅ |}.

(** [addWitness] on the report of the partition [p]. *)
Definition addWitness (m : metadataAPI) (p : partition) (replica : string)
    (raft : ChangeLeaderOp -> raftResult)
    : option status * metadataAPI * option ChangeLeaderOp :=
  let l := default emptyReport (leaderReports m !! reportKey p) in
  let witnesses := {[replica]} ∪ witnessReplicas l in
  let isrSize := ISRSize p - 1 in
  let leaderFailed := bool_decide (Go.div isrSize 2 < Z.of_nat (size witnesses)) in
  if leaderFailed then
    let l' := {| timer := match timer l with
                          | Some _ => Some TimerStopped
                          | None => None
                          end;
                 witnessReplicas := witnesses |} in
    let m' := set_leaderReports (<[reportKey p := l']> (leaderReports m)) m in
    let '(st, op) := electNewPartitionLeader m' p raft in
    (st, m', op)
  else
    let l' := {| timer := Some TimerPending; witnessReplicas := witnesses |} in
    (None, set_leaderReports (<[reportKey p := l']> (leaderReports m)) m, None).


Record ReportLeaderOp := {
  rlStream : string;
  rlPartition : Z;
  rlReplica : string;
  rlLeader : string;
  rlLeaderEpoch : Z
}.

(** Whether this server is the metadata leader, and else what forwarding the
    request to the leader returned. *)
Inductive role :=
| MetadataLeader
| Forwarded (isLeader : bool) (st : option status).

Definition generationMismatch (leader : string) (epoch : Z) (gotLeader : string)
    (gotEpoch : Z) : status :=
  {| Code := FailedPrecondition;
     Msg := "Leader generation mismatch, current leader: " +:+ leader +:+ " epoch: "
            +:+ pretty epoch +:+ ", got leader: " +:+ gotLeader +:+ " epoch: "
            +:+ pretty gotEpoch |}.

Definition noSuchPartition (streamName : string) (id : Z) : string :=
  "No such partition [stream=" +:+ streamName +:+ ", partition=" +:+ pretty id +:+ "]".

Definition ReportLeader (m : metadataAPI) (who : role) (req : ReportLeaderOp)
    (raft : ChangeLeaderOp -> raftResult)
    : option status * metadataAPI * option ChangeLeaderOp :=
  match who with
  | Forwarded _ (Some st) => (Some st, m, None)
  | Forwarded false None => (None, m, None)
  | _ =>
      match GetPartition m (rlStream req) (rlPartition req) with
      | None =>
          (Some {| Code := FailedPrecondition;
                   Msg := noSuchPartition (rlStream req) (rlPartition req) |}, m, None)
      | Some p =>
          let '(leader, epoch) := GetLeader p in
          if bool_decide (rlLeader req <> leader \/ rlLeaderEpoch req <> epoch) then
            (Some (generationMismatch leader epoch (rlLeader req) (rlLeaderEpoch req)),
             m, None)
          else
            let m1 :=
              match leaderReports m !! reportKey p with
              | None =>
                  set_leaderReports (<[reportKey p := emptyReport]> (leaderReports m)) m
              | Some _ => m
              end in
            addWitness m1 p (rlReplica req) raft
      end
  end.

(** *** The broker cache *)

(** The metadata of a stream in a response; of a partition it carries what
    the store holds (the high watermark, the newest offset and the event
    timestamps come from the partition's log). *)
Record StreamMetadata := {
  smName : string;
  smUnknown : bool;
  smSubject : string;
  smPartitions : gmap Z partition;
  smCreationTimestamp : Z
}.

Record FetchMetadataResponse := {
  Brokers : list Broker;
  Metadata : list StreamMetadata
}.

Definition createMetadataResponse (m : metadataAPI) (names : list string)
    : list StreamMetadata :=
  let names := if bool_decide (Go.len names = 0) then Name <$> GetStreams m else names in
  (fun name =>
     match GetStream m name with
     | None => {| smName := name; smUnknown := true; smSubject := "";
                  smPartitions := ∅; smCreationTimestamp := 0 |}
     | Some s => {| smName := name; smUnknown := false; smSubject := Subject s;
                    smPartitions := partitions s;
                    smCreationTimestamp := CreationTime s |}
     end) <$> names.

Definition serversChanged (serverIDs cached : gset string) : bool :=
  if bool_decide (size serverIDs <> size cached) then true
  else negb (forallb (fun id => bool_decide (id ∈ cached)) (elements serverIDs)).

(** [brokerCache] at the instant [now]. *)
Definition brokerCache (m : metadataAPI) (now : Z) (serverIDs : gset string)
    : option (list Broker) :=
  let useCache :=
    bool_decide (0 < Go.len (cachedBrokers m))
    && negb (serversChanged serverIDs (cachedServerIDs m))
    && bool_decide (Go.Since now (lastCached m) <= MetadataCacheMaxAge (config m)) in
  if useCache then Some (cachedBrokers m) else None.

Record ServerInfoResponse := { siId : string; siHost : string; siPort : Z }.

(** What the message bus does during one survey: whether subscribing and
    publishing fail, and the replies that reach the inbox before the deadline,
    in order, [None] for a reply that does not unmarshal. *)
Record survey := {
  subscribeFails : option string;
  publishFails : option string;
  replies : list (option ServerInfoResponse)
}.

Definition brokerOf (m : metadataAPI) (id host : string) (port : Z) : Broker :=
  {| bId := id; bHost := host; bPort := port;
     PartitionCount := Go.int32 (load (BrokerPartitionCounts m) id);
     LeaderCount := Go.int32 (load (BrokerLeaderCounts m) id) |}.

(** The loop runs at most [numPeers] times, stops at the first wait that
    times out, and skips a reply that does not unmarshal. *)
Definition fetchBrokerInfo (m : metadataAPI) (net : survey) (numPeers : Z)
    : status + list Broker :=
  match subscribeFails net with
  | Some e => inl {| Code := Internal; Msg := e |}
  | None =>
      match publishFails net with
      | Some e => inl {| Code := Internal; Msg := e |}
      | None =>
          inr (brokerOf m (ServerID (config m)) (Host (config m))
                 (Go.int32 (Port (config m)))
               :: omap (fmap (fun r => brokerOf m (siId r) (siHost r) (siPort r)))
                    (take (Z.to_nat numPeers) (replies net)))
      end
  end.

Definition FetchMetadata (m : metadataAPI) (names : list string)
    (servers : error + list string) (net : survey) (now refreshed : Z)
    : (status + FetchMetadataResponse) * metadataAPI :=
  let metadata := createMetadataResponse m names in
  match servers with
  | inl err => (inl {| Code := Internal; Msg := errorText err |}, m)
  | inr servers =>
      let serverIDs : gset string := list_to_set servers in
      match brokerCache m now serverIDs with
      | Some cached => (inr {| Brokers := cached; Metadata := metadata |}, m)
      | None =>
          match fetchBrokerInfo m net (Go.len servers - 1) with
          | inl st => (inl st, m)
          | inr brokers =>
              (inr {| Brokers := brokers; Metadata := metadata |},
               set_cache brokers serverIDs refreshed m)
          end
      end
  end.

(** *** The metadata store *)

(** The two loops under "Update broker load counts". *)
Definition addLoad (p : partition) (m : metadataAPI) : metadataAPI :=
  set_loads (foldl (fun pl broker => incLoad broker pl) (brokerPartitionLoad m) (Replicas p))
            (incLoad (Leader p) (brokerLeaderLoad m)) m.

Definition dropLoad (p : partition) (m : metadataAPI) : metadataAPI :=
  set_loads (foldl (fun pl broker => decLoad broker pl) (brokerPartitionLoad m) (Replicas p))
            (decLoad (Leader p) (brokerLeaderLoad m)) m.

(** [removeStream]: the reports of the stream's partitions are cancelled and
    deleted with it. *)
Definition removeStream (m : metadataAPI) (s : stream) : metadataAPI :=
  set_leaderReports
    (foldl (fun reports p => delete (reportKey p) reports) (leaderReports m)
       (GetPartitions s))
    (set_streams (delete (Name s) (streams m)) m).

(** [deleteStream]; [deleteFails] is the outcome of [stream.Delete] and of
    removing the data directory. *)
Definition deleteStream (m : metadataAPI) (s : stream) (deleteFails : option error)
    : option error * metadataAPI :=
  match deleteFails with
  | Some e => (Some (Wrap e "failed to delete stream"), m)
  | None => (None, removeStream m s)
  end.

(** The stream message of a CREATE_STREAM entry. *)
Record protoStream := {
  psName : string;
  psSubject : string;
  psPartitions : list partition;
  psCreationTimestamp : Z
}.

Definition newStream (ps : protoStream) : stream :=
  {| Name := psName ps; Subject := psSubject ps; partitions := ∅;
     CreationTime := psCreationTimestamp ps; Tombstoned := false |}.

(** [addPartition]; [startFails] is the outcome of opening the partition's
    log and of starting it (newPartition, Pause, SetLeader). *)
Definition addPartition (s : stream) (p : partition) (startFails : partition -> option error)
    : error + stream :=
  match partitions s !! Id p with
  | Some _ =>
      inl (ErrText ("partition " +:+ pretty (Id p) +:+ " already exists for stream "
                    +:+ Stream p))
  | None =>
      match startFails p with
      | Some e => inl e
      | None => inr (streamSetPartition s (Id p) p)
      end
  end.

Fixpoint addPartitions (s : stream) (ps : list partition)
    (startFails : partition -> option error) : error * stream + stream :=
  match ps with
  | [] => inr s
  | p :: rest =>
      match addPartition s p startFails with
      | inl e => inl (e, s)
      | inr s' => addPartitions s' rest startFails
      end
  end.

Definition AddStream (m : metadataAPI) (ps : protoStream) (recovered : bool)
    (closeFails : option error) (startFails : partition -> option error)
    : (error + stream) * metadataAPI :=
  if bool_decide (Go.len (psPartitions ps) = 0) then
    (inl (ErrText "stream has no partitions"), m)
  else
    let untombstoned : error + metadataAPI :=
      match streams m !! psName ps with
      | Some existing =>
          if negb recovered then inl ErrStreamExists
          else if negb (Tombstoned existing) then inl ErrStreamExists
          else match closeFails with
               | Some e => inl e
               | None => inr (removeStream m existing)
               end
      | None => inr m
      end in
    match untombstoned with
    | inl e => (inl e, m)
    | inr m1 =>
        let s := newStream ps in
        let m2 := set_streams (<[psName ps := s]> (streams m1)) m1 in
        match addPartitions s (psPartitions ps) startFails with
        | inl (e, s') => (inl e, removeStream m2 s')
        | inr s' =>
            let m3 := set_streams (<[psName ps := s']> (streams m2)) m2 in
            (inr s', foldl (fun m p => addLoad p m) m3 (GetPartitions s'))
        end
    end.

(** [ResumePartition]; [replaceFails] is the outcome of replacePartition,
    which reopens the partition unpaused, and [startFails] that of SetLeader. *)
Definition ResumePartition (m : metadataAPI) (streamName : string) (id : Z)
    (recovered : bool) (replaceFails startFails : option error)
    : option partition * option error * metadataAPI :=
  match streams m !! streamName with
  | None => (None, Some ErrStreamNotFound, m)
  | Some s =>
      match partitions s !! id with
      | None => (None, Some ErrPartitionNotFound, m)
      | Some p =>
          if negb (IsPaused p) then (Some p, None, m)
          else
            match replaceFails with
            | Some e => (None, Some e, m)
            | None =>
                let p' := setPaused p false in
                let m1 :=
                  set_streams (<[streamName := streamSetPartition s id p']> (streams m)) m in
                (Some p', startFails, addLoad p' m1)
            end
      end
  end.

Definition RemoveFromISR (m : metadataAPI) (streamName replica : string)
    (partitionID : Z) (epoch : Z) (fails : option error) : option error * metadataAPI :=
  match GetPartition m streamName partitionID with
  | None => (Some (ErrText (noSuchPartition streamName partitionID)), m)
  | Some p =>
      if bool_decide (epoch <= GetEpoch p) then (None, m)
      else
        match partitionRemoveFromISR fails p replica with
        | inl e => (Some (Wrap e ("failed to remove " +:+ replica +:+ " from ISR")), m)
        | inr p' => (None, storePartition m streamName partitionID (SetEpoch p' epoch))
        end
  end.

Definition AddToISR (m : metadataAPI) (streamName replica : string)
    (partitionID : Z) (epoch : Z) (fails : option error) : option error * metadataAPI :=
  match GetPartition m streamName partitionID with
  | None => (Some (ErrText (noSuchPartition streamName partitionID)), m)
  | Some p =>
      if bool_decide (epoch <= GetEpoch p) then (None, m)
      else
        match partitionAddToISR fails p replica with
        | inl e => (Some (Wrap e ("failed to add " +:+ replica +:+ " to ISR")), m)
        | inr p' => (None, storePartition m streamName partitionID (SetEpoch p' epoch))
        end
  end.

Definition ChangeLeader (m : metadataAPI) (streamName leader : string)
    (partitionID : Z) (epoch : Z) (fails : option error) : option error * metadataAPI :=
  match GetPartition m streamName partitionID with
  | None => (Some (ErrText (noSuchPartition streamName partitionID)), m)
  | Some p =>
      if bool_decide (epoch <= GetEpoch p) then (None, m)
      else
        let oldLeader := (GetLeader p).1 in
        match partitionSetLeader fails p leader epoch with
        | inl e => (Some (Wrap e "failed to change partition leader"), m)
        | inr p' =>
            let m1 := storePartition m streamName partitionID (SetEpoch p' epoch) in
            (None,
             set_loads (brokerPartitionLoad m1)
               (incLoad leader (decLoad oldLeader (brokerLeaderLoad m1))) m1)
        end
  end.

(** Modelled from the spec: [stream.Pause(partitions, resumeAll)] pauses the
    given partitions, all of them when the list is empty, and returns the
    partitions it paused; [fails] is the outcome of closing them. *)
Definition streamPause (s : stream) (ids : list Z) (resumeAll : bool)
    (fails : option error) : error + (stream * list partition) :=
  let targets : option (list partition) :=
    if bool_decide (Go.len ids = 0) then Some (GetPartitions s)
    else mapM (fun id => partitions s !! id) ids in
  match targets with
  | None => inl ErrPartitionNotFound
  | Some toPause =>
      match fails with
      | Some e => inl e
      | None =>
          let paused := (fun p => setPaused p true) <$> toPause in
          inr (foldl (fun s p => streamSetPartition s (Id p) p) s paused, paused)
      end
  end.

Definition PausePartitions (m : metadataAPI) (streamName : string) (ids : list Z)
    (resumeAll : bool) (fails : option error) : option error * metadataAPI :=
  match GetStream m streamName with
  | None => (Some ErrStreamNotFound, m)
  | Some s =>
      match streamPause s ids resumeAll fails with
      | inl e => (Some (Wrap e "failed to pause stream"), m)
      | inr (s', paused) =>
          let m1 := set_streams (<[streamName := s']> (streams m)) m in
          (None, foldl (fun m p => dropLoad p m) m1 paused)
      end
  end.

(** [RemoveStream] is handed the stream object of the store. *)
Definition RemoveStream (m : metadataAPI) (s : stream) (recovered : bool)
    (deleteFails : option error) : option error * metadataAPI :=
  let removed : error + metadataAPI :=
    if recovered then inr (set_streams (alter Tombstone (Name s) (streams m)) m)
    else match deleteStream m s deleteFails with
         | (Some e, _) => inl e
         | (None, m') => inr m'
         end in
  match removed with
  | inl e => (Some e, m)
  | inr m1 => (None, foldl (fun m p => dropLoad p m) m1 (GetPartitions s))
  end.

(** *** Requests that propose an entry *)

(** [err == ErrStreamExists]. *)
Definition isStreamExists (e : error) : bool :=
  match e with
  | ErrStreamExists => true
  | _ => false
  end.

(** The placement loop of CreateStream. The load counters do not change
    during the loop: they are updated when the entry is applied. The Raft
    configuration is read once per partition; [ids] is what each read
    answers. *)
Fixpoint placePartitions (m : metadataAPI) (ids : error + list string)
    (ps : list partition) : option (status + list partition) :=
  match ps with
  | [] => Some (inr [])
  | p :: rest =>
      match placePartition m ids p with
      | None => None
      | Some (inl st) => Some (inl st)
      | Some (inr p') =>
          match placePartitions m ids rest with
          | None => None
          | Some (inl st) => Some (inl st)
          | Some (inr rest') => Some (inr (p' :: rest'))
          end
      end
  end.

(** [CreateStream] returns its status and the stream of the entry it
    proposed to Raft, if it proposed one; [now] is the clock. [None] is a
    panic. Waiting for the partition leaders is best effort and changes
    nothing. *)
Definition CreateStream (m : metadataAPI) (who : role) (req : protoStream)
    (ids : error + list string) (now : Z) (raft : protoStream -> raftResult)
    : option (option status * option protoStream) :=
  match who with
  | Forwarded _ (Some st) => Some (Some st, None)
  | Forwarded false None => Some (None, None)
  | _ =>
      if bool_decide (Go.len (psPartitions req) = 0) then
        Some (Some {| Code := InvalidArgument; Msg := "no partitions provided" |}, None)
      else
        match placePartitions m ids (psPartitions req) with
        | None => None
        | Some (inl st) => Some (Some st, None)
        | Some (inr placed) =>
            let op := {| psName := psName req; psSubject := psSubject req;
                         psPartitions := placed; psCreationTimestamp := now |} in
            match raft op with
            | RaftRefused err =>
                Some (Some {| Code := if isStreamExists err then AlreadyExists
                                      else FailedPrecondition;
                              Msg := errorText err |}, Some op)
            | RaftFailed err =>
                Some (Some {| Code := Internal;
                              Msg := "Failed to replicate partition: " +:+ err |}, Some op)
            | RaftCommitted => Some (None, Some op)
            end
        end
  end.

Record ShrinkISROp := {
  shStream : string;
  shPartition : Z;
  shReplicaToRemove : string;
  shLeader : string;
  shLeaderEpoch : Z
}.

Record ExpandISROp := {
  exStream : string;
  exPartition : Z;
  exReplicaToAdd : string;
  exLeader : string;
  exLeaderEpoch : Z
}.

(** [ShrinkISR] returns its status and the entry it proposed, if any. *)
Definition ShrinkISR (m : metadataAPI) (who : role) (req : ShrinkISROp)
    (raft : ShrinkISROp -> raftResult) : option status * option ShrinkISROp :=
  match who with
  | Forwarded _ (Some st) => (Some st, None)
  | Forwarded false None => (None, None)
  | _ =>
      match GetPartition m (shStream req) (shPartition req) with
      | None =>
          (Some {| Code := FailedPrecondition;
                   Msg := noSuchPartition (shStream req) (shPartition req) |}, None)
      | Some p =>
          let '(leader, epoch) := GetLeader p in
          if bool_decide (shLeader req <> leader \/ shLeaderEpoch req <> epoch) then
            (Some (generationMismatch leader epoch (shLeader req) (shLeaderEpoch req)), None)
          else
            match raft req with
            | RaftRefused err =>
                (Some {| Code := FailedPrecondition; Msg := errorText err |}, Some req)
            | RaftFailed err =>
                (Some {| Code := Internal; Msg := "Failed to shrink ISR: " +:+ err |},
                 Some req)
            | RaftCommitted => (None, Some req)
            end
      end
  end.

Definition ExpandISR (m : metadataAPI) (who : role) (req : ExpandISROp)
    (raft : ExpandISROp -> raftResult) : option status * option ExpandISROp :=
  match who with
  | Forwarded _ (Some st) => (Some st, None)
  | Forwarded false None => (None, None)
  | _ =>
      match GetPartition m (exStream req) (exPartition req) with
      | None =>
          (Some {| Code := FailedPrecondition;
                   Msg := noSuchPartition (exStream req) (exPartition req) |}, None)
      | Some p =>
          let '(leader, epoch) := GetLeader p in
          if bool_decide (exLeader req <> leader \/ exLeaderEpoch req <> epoch) then
            (Some (generationMismatch leader epoch (exLeader req) (exLeaderEpoch req)), None)
          else
            match raft req with
            | RaftRefused err =>
                (Some {| Code := FailedPrecondition; Msg := errorText err |}, Some req)
            | RaftFailed err =>
                (Some {| Code := Internal; Msg := "Failed to expand ISR: " +:+ err |},
                 Some req)
            | RaftCommitted => (None, Some req)
            end
      end
  end.

(** *** Preconditions of the entries *)

Definition partitionExists (m : metadataAPI) (streamName : string) (partitionID : Z)
    : option error :=
  match GetStream m streamName with
  | None => Some ErrStreamNotFound
  | Some s =>
      match partitions s !! partitionID with
      | None => Some ErrPartitionNotFound
      | Some _ => None
      end
  end.

(** [checkCreateStreamPreconditions] looks the stream up under the name that
    the first partition of the entry carries; [None] is the panic of
    [partitions[0]] on an entry without partitions. *)
Definition checkCreateStreamPreconditions (m : metadataAPI) (op : protoStream)
    : option (option error) :=
  match psPartitions op with
  | [] => None
  | p :: _ =>
      Some (match GetStream m (Stream p) with
            | Some _ => Some ErrStreamExists
            | None => None
            end)
  end.

Definition checkDeleteStreamPreconditions (m : metadataAPI) (streamName : string)
    : option error :=
  match GetStream m streamName with
  | None => Some ErrStreamNotFound
  | Some _ => None
  end.

(** The loop of checkPauseStreamPreconditions (checkResumeStreamPreconditions
    and checkSetStreamReadonlyPreconditions run the same loop). *)
Fixpoint partitionsExist (s : stream) (ids : list Z) : option error :=
  match ids with
  | [] => None
  | id :: rest =>
      match partitions s !! id with
      | None => Some ErrPartitionNotFound
      | Some _ => partitionsExist s rest
      end
  end.

Definition checkPauseStreamPreconditions (m : metadataAPI) (streamName : string)
    (ids : list Z) : option error :=
  match GetStream m streamName with
  | None => Some ErrStreamNotFound
  | Some s => partitionsExist s ids
  end.

Definition checkShrinkISRPreconditions (m : metadataAPI) (op : ShrinkISROp) : option error :=
  partitionExists m (shStream op) (shPartition op).

Definition checkExpandISRPreconditions (m : metadataAPI) (op : ExpandISROp) : option error :=
  partitionExists m (exStream op) (exPartition op).

End server.

(** ** Properties of the commit log *)
Module commitlog_spec.
Import commitlog.

(** *** Well-formed logs *)

(** Offsets of a segment lie between its baseOffset and its nextOffset and
    increase along the data file. *)
Record wfSegment (s : segment) : Prop := {
  wf_base : 0 <= BaseOffset s <= NextOffset s;
  wf_next : NextOffset s <= Go.MaxInt64;
  wf_range : Forall (fun m => BaseOffset s <= Offset m < NextOffset s) (log s);
  wf_incr : StronglySorted (fun a b => Offset a < Offset b) (log s)
}.

(** Segments are ordered: a segment starts where the one before it ends, or
    later. *)
Definition follows (s t : segment) : Prop := NextOffset s <= BaseOffset t.

Record wf (l : commitLog) : Prop := {
  wf_segments : Forall wfSegment (segments l);
  wf_chain : Sorted follows (segments l)
}.

Lemma int64_id (x : Z) : Go.inInt64 x -> Go.int64 x = x.
Proof.
  unfold Go.inInt64, Go.MinInt64, Go.MaxInt64, Go.int64, Go.wrap. intros H.
  change (2 ^ (64 - 1)) with 9223372036854775808.
  change (2 ^ 64) with 18446744073709551616.
  rewrite Z.mod_small; lia.
Qed.

Lemma chain_before (segs : list segment) (i j : nat) (s t : segment) :
  Forall wfSegment segs -> Sorted follows segs ->
  segs !! i = Some s -> segs !! j = Some t -> (i < j)%nat ->
  NextOffset s <= BaseOffset t.
Proof.
  intros Hwf Hs. revert i j s t.
  induction Hs as [|a segs Hs IH Hhd]; intros i j s t Hi Hj Hlt; [done|].
  apply Forall_cons in Hwf as [Ha Hwf].
  destruct j as [|j]; [lia|]. simpl in Hj.
  destruct i as [|i]; simpl in Hi.
  - injection Hi as <-.
    destruct segs as [|b segs]; [done|].
    apply HdRel_inv in Hhd. unfold follows in Hhd.
    destruct j as [|j]; simpl in Hj.
    + by injection Hj as <-.
    + apply Forall_cons in Hwf as [Hb Hwf'].
      assert (NextOffset b <= BaseOffset t).
      { eapply (IH (Forall_cons_2 _ _ _ Hb Hwf') 0%nat (S j)); [done|done|lia]. }
      destruct Hb as [[? ?] _ _ _]. lia.
  - eapply (IH Hwf i j); [done|done|lia].
Qed.

(** *** The copy loop of Truncate *)

Lemma copyBelow_ok (O : Z) (ms : list message) (pos : Z) (dst : segment) :
  sealed dst = false ->
  StronglySorted (fun a b => Offset a < Offset b) ms ->
  exists dst',
    copyBelow ioOK O (scanFrom pos ms) dst = inr dst' /\
    BaseOffset dst' = BaseOffset dst /\
    sealed dst' = false /\
    log dst' = log dst ++ filter (fun m => Offset m < O) ms /\
    NextOffset dst' =
      match last (filter (fun m => Offset m < O) ms) with
      | Some m => Go.int64 (Offset m + 1)
      | None => NextOffset dst
      end.
Proof.
  revert pos dst. induction ms as [|m ms IH]; intros pos dst Hun Hs.
  - exists dst. simpl. rewrite app_nil_r. done.
  - apply StronglySorted_inv in Hs as [Hs Hall]. simpl.
    case_bool_decide as Hlt.
    + unfold WriteMessageSet. rewrite Hun. simpl.
      edestruct (IH (pos + frameLen m)) as (dst' & -> & Hb & Hse & Hlog & Hnext);
        [|exact Hs|]; [done|].
      exists dst'. simpl in *. split; [done|]. split; [done|]. split; [done|].
      rewrite filter_cons_True by done. split.
      * rewrite Hlog. by rewrite <- app_assoc.
      * rewrite Hnext. rewrite last_cons.
        by destruct (last (filter _ ms)).
    + exists dst. rewrite filter_cons_False by done.
      assert (filter (fun m0 => Offset m0 < O) ms = []) as ->.
      { clear -Hall Hlt. induction Hall as [|x xs Hx _ IHx]; [done|].
        rewrite filter_cons_False by lia. done. }
      simpl. rewrite app_nil_r. done.
Qed.

Lemma deleteAll_ok (segs : list segment) : deleteAll ioOK segs = None.
Proof. induction segs; simpl; done. Qed.

Lemma last_filter_bound (O : Z) (s : segment) (m : message) :
  wfSegment s -> last (filter (fun m => Offset m < O) (log s)) = Some m ->
  BaseOffset s <= Offset m < O /\ Offset m < NextOffset s.
Proof.
  intros Hwf Hl. apply last_Some_elem_of in Hl.
  apply list_elem_of_filter in Hl as [Hlt Hin].
  destruct Hwf as [_ _ Hr _]. rewrite Forall_forall in Hr.
  specialize (Hr _ Hin). lia.
Qed.




(** A log of two segments, records 0..2 and 3..4, written in leader epoch 1. *)
Definition msg (o : Z) : message :=
  {| Offset := o; Timestamp := 10 * o; LeaderEpoch := 1; Key := "k"; Value := "v" |}.

Definition exampleLog : commitLog :=
  {| readonly := false; hw := 4;
     segments :=
       [ {| BaseOffset := 0; nextOffset := 3; position := 138;
            log := [msg 0; msg 1; msg 2]; sealed := true |};
         {| BaseOffset := 3; nextOffset := 5; position := 92;
            log := [msg 3; msg 4]; sealed := false |} ];
     hwWaiters := ∅;
     epochCache := [ {| leaderEpoch := 1; startOffset := 0 |} ];
     deleted := false;
     options := {| MaxSegmentBytes := 1024; MaxSegmentAge := 0; ConcurrencyControl := false |};
     chans := [] |}.


Example Truncate_inside :
  segments (Truncate ioOK exampleLog 4).2 =
    [ {| BaseOffset := 0; nextOffset := 3; position := 138;
         log := [msg 0; msg 1; msg 2]; sealed := true |};
      {| BaseOffset := 3; nextOffset := 4; position := 46;
         log := [msg 3]; sealed := false |} ].
Proof. vm_compute. reflexivity. Qed.

Example Truncate_at_base :
  segments (Truncate ioOK exampleLog 3).2 =
    [ {| BaseOffset := 0; nextOffset := 3; position := 138;
         log := [msg 0; msg 1; msg 2]; sealed := true |} ].
Proof. vm_compute. reflexivity. Qed.

(** *** LastOffsetForLeaderEpoch *)

Lemma leastGreater_spec (e : Z) (c : leaderEpochCache) :
  match leastGreater e c with
  | None => forall y, y ∈ c -> leaderEpoch y <= e
  | Some x =>
      x ∈ c /\ e < leaderEpoch x /\
      forall y, y ∈ c -> e < leaderEpoch y -> leaderEpoch x <= leaderEpoch y
  end.
Proof.
  induction c as [|a c IH]; simpl.
  - intros y Hy. by apply elem_of_nil in Hy.
  - destruct (leastGreater e c) as [x|]; repeat case_bool_decide.
    + destruct IH as (Hx & Hlt & Hmin). split; [by right|]. split; [done|].
      intros y Hy Hey. apply elem_of_cons in Hy as [->|Hy]; [lia|by apply Hmin].
    + destruct IH as (Hx & Hlt & Hmin). split; [by left|]. split; [done|].
      intros y Hy Hey. apply elem_of_cons in Hy as [->|Hy]; [lia|].
      specialize (Hmin _ Hy Hey). lia.
    + destruct IH as (Hx & Hlt & Hmin). split; [by right|]. split; [done|].
      intros y Hy Hey. apply elem_of_cons in Hy as [->|Hy]; [lia|by apply Hmin].
    + split; [by left|]. split; [done|].
      intros y Hy Hey. apply elem_of_cons in Hy as [->|Hy]; [lia|].
      specialize (IH _ Hy). lia.
    + intros y Hy. apply elem_of_cons in Hy as [->|Hy]; [lia|by apply IH].
Qed.

(** The log-end offset as the spec's glossary defines it. *)
Definition LEO (l : commitLog) : Z := NewestOffset l + 1.

(** C2, as stated, fails: asked for the last cached epoch the cache answers
    -1 and LastOffsetForLeaderEpoch returns newestOffset() = 4, not the
    log-end offset newestOffset() + 1 = 5. *)
Lemma LastOffsetForLeaderEpoch_not_LEO :
  cacheLastLeaderEpoch (epochCache exampleLog) = 1 /\
  cacheLastOffsetForLeaderEpoch (epochCache exampleLog) 1 = -1 /\
  LastOffsetForLeaderEpoch exampleLog 1 = 4 /\
  LEO exampleLog = 5.
Proof. vm_compute. done. Qed.

(** C2, amended. LastOffsetForLeaderEpoch(requested) returns newestOffset()
    (activeSegment.nextOffset - 1) when requested is the last cached epoch or
    no cached epoch is strictly greater; otherwise, with [x] the cached entry
    of least epoch strictly greater than requested, it returns the startOffset
    of [x] when that is not -1. *)
Theorem LastOffsetForLeaderEpoch_spec (l : commitLog) (requested : Z) :
  (requested = cacheLastLeaderEpoch (epochCache l) ->
   cacheLastOffsetForLeaderEpoch (epochCache l) requested = -1 /\
   LastOffsetForLeaderEpoch l requested = NewestOffset l) /\
  (requested <> cacheLastLeaderEpoch (epochCache l) ->
   match leastGreater requested (epochCache l) with
   | None =>
       (forall y, y ∈ epochCache l -> leaderEpoch y <= requested) /\
       cacheLastOffsetForLeaderEpoch (epochCache l) requested = -1 /\
       LastOffsetForLeaderEpoch l requested = NewestOffset l
   | Some x =>
       x ∈ epochCache l /\ requested < leaderEpoch x /\
       (forall y, y ∈ epochCache l -> requested < leaderEpoch y ->
                  leaderEpoch x <= leaderEpoch y) /\
       cacheLastOffsetForLeaderEpoch (epochCache l) requested = startOffset x /\
       (startOffset x <> -1 -> LastOffsetForLeaderEpoch l requested = startOffset x)
   end).
Proof.
  unfold LastOffsetForLeaderEpoch, cacheLastOffsetForLeaderEpoch, NewestOffset.
  split; intros Hreq.
  - rewrite bool_decide_eq_true_2 by done. done.
  - rewrite (bool_decide_eq_false_2 _ Hreq).
    pose proof (leastGreater_spec requested (epochCache l)) as Hl.
    destruct (leastGreater requested (epochCache l)) as [x|].
    + destruct Hl as (? & ? & ?). repeat (split; [done|]).
      intros Hne. by rewrite bool_decide_eq_false_2.
    + done.
Qed.

Example LastOffsetForLeaderEpoch_older :
  LastOffsetForLeaderEpoch
    (set_epochCache [ {| leaderEpoch := 1; startOffset := 0 |};
                      {| leaderEpoch := 3; startOffset := 2 |};
                      {| leaderEpoch := 4; startOffset := 4 |} ] exampleLog) 2 = 2.
Proof. vm_compute. reflexivity. Qed.

(** *** Append and AppendMessageSet *)

Lemma checkAndPerformSplit_readonly (E : env) (fuel : nat) (l : commitLog) (ro : bool) :
  checkAndPerformSplit E fuel (set_readonly ro l) =
  prod_map id (set_readonly ro) <$> checkAndPerformSplit E fuel l.
Proof.
  revert l. induction fuel as [|fuel IH]; intros l; [done|]. simpl.
  unfold activeSegment. simpl.
  destruct (CheckSplit E _ _); simpl; [|done].
  unfold split, NewestOffset, activeSegment. simpl.
  destruct (newSegment (io E) _) as [err|seg]; simpl; [|done].
  case_bool_decide; [|done]. apply IH.
Qed.

Lemma append_readonly (E : env) (l : commitLog) (ro : bool) seg ms entries :
  append E (set_readonly ro l) seg ms entries =
  prod_map id (set_readonly ro) (append E l seg ms entries).
Proof.
  unfold append. destruct (WriteMessageSet _ _ _ _); simpl; [done|].
  by destruct (assignEpochs _ _ _ _) as [[err|] c].
Qed.

(** The epoch that [append] compares with is the last epoch of the cache, so
    the cache never refuses an assignment of the loop. *)
Lemma assignEpochs_ok (es : list entry) (c : leaderEpochCache) :
  exists c', assignEpochs ioOK c (cacheLastLeaderEpoch c) es = (None, c').
Proof.
  revert c. induction es as [|e es IH]; intros c; simpl; [by eexists|].
  case_bool_decide as Hlt; [|apply IH].
  unfold cacheAssign. rewrite bool_decide_eq_true_2 by done. simpl.
  specialize (IH (c ++ [{| leaderEpoch := eLeaderEpoch e; startOffset := eOffset e |}])).
  unfold cacheLastLeaderEpoch in IH at 1. rewrite last_snoc in IH. exact IH.
Qed.

Lemma entriesForMessageSet_offsets (pos : Z) (ms : messageSet) :
  eOffset <$> entriesForMessageSet pos ms = Offset <$> ms.
Proof.
  unfold entriesForMessageSet. revert pos.
  induction ms as [|m ms IH]; intros pos; simpl; [done|]. f_equal. apply IH.
Qed.

(** A file system that never fails and a roll policy that never rolls. The
    encoder is the one of Append; AppendMessageSet does not call it. *)
Definition quietEnv : env :=
  {| io := ioOK;
     CheckSplit := fun _ _ => false;
     newMessageSetFromProto := fun _ _ _ _ => inl ErrIncorrectOffset |}.

(** C3. On a readonly log Append fails with ErrCommitLogReadonly and leaves
    the log as it is. AppendMessageSet never reads the readonly flag: on the
    log with the flag set either way it returns the same result and the same
    log up to the flag; and with nothing to roll and the file system in
    order it appends to a readonly log. *)
Theorem Append_readonly_AppendMessageSet_open
    (E : env) (fuel : nat) (l : commitLog) (msgs : list Message) (ms : messageSet) :
  Append E fuel (set_readonly true l) msgs
    = Some (inl ErrCommitLogReadonly, set_readonly true l) /\
  (forall ro : bool,
     AppendMessageSet E fuel (set_readonly ro l) ms
       = prod_map id (set_readonly ro) <$> AppendMessageSet E fuel l ms) /\
  (segments l <> [] -> sealed (activeSegment l) = false ->
   exists l',
     AppendMessageSet quietEnv (S fuel) (set_readonly true l) ms
       = Some (inr (Offset <$> ms), l') /\
     readonly l' = true /\
     log (activeSegment l') = log (activeSegment l) ++ ms).
Proof.
  split; [done|]. split.
  - intros ro. unfold AppendMessageSet.
    rewrite checkAndPerformSplit_readonly.
    destruct (checkAndPerformSplit E fuel l) as [[[b [err|]] l1]|]; simpl; try done.
    unfold activeSegment at 1 2. simpl. fold (activeSegment l1).
    by rewrite append_readonly.
  - intros Hne Hun. unfold AppendMessageSet. simpl.
    change (activeSegment (set_readonly true l)) with (activeSegment l).
    unfold append, WriteMessageSet. rewrite Hun. simpl.
    set (seg' := {| BaseOffset := _ |}).
    destruct (assignEpochs_ok (entriesForMessageSet (Position (activeSegment l)) ms)
                (epochCache l)) as [c' ->].
    eexists. split; [by rewrite entriesForMessageSet_offsets|]. split; [done|].
    unfold activeSegment at 1. simpl.
    rewrite last_lookup, length_insert, list_lookup_insert_eq; [done|].
    destruct (segments l); [done|simpl; lia].
Qed.

(** *** The high watermark and its waiters *)

(** The waiters of a log are in order when no channel is registered for two
    readers, no registered channel has been sent to, and no channel has been
    sent to twice. *)
Record waitersOK (l : commitLog) : Prop := {
  w_inj : forall r1 r2 ch,
    hwWaiters l !! r1 = Some ch -> hwWaiters l !! r2 = Some ch -> r1 = r2;
  w_parked : forall r ch, hwWaiters l !! r = Some ch -> chans l !! ch = Some [];
  w_once : forall ch sent, chans l !! ch = Some sent -> (length sent <= 1)%nat
}.

(** [l'] is [l] after a value [v] was sent to every registered waiter and the
    waiters were dropped. *)
Record notified (v : bool) (l l' : commitLog) : Prop := {
  n_rest : l' = set_waiters ∅ (chans l') l;
  n_sent : forall r ch, hwWaiters l !! r = Some ch -> chans l' !! ch = Some [v];
  n_others : forall ch, (forall r, hwWaiters l !! r <> Some ch) ->
                        chans l' !! ch = chans l !! ch
}.

Lemma notify_fold (v : bool) (cs : list (list bool)) (m : gmap nat nat) :
  (forall r1 r2 ch, m !! r1 = Some ch -> m !! r2 = Some ch -> r1 = r2) ->
  forall ch,
    (forall r, m !! r = Some ch ->
       map_fold (fun _ c acc => send c v acc) cs m !! ch
         = (fun sent => sent ++ [v]) <$> cs !! ch) /\
    ((forall r, m !! r <> Some ch) ->
       map_fold (fun _ c acc => send c v acc) cs m !! ch = cs !! ch).
Proof.
  apply (map_fold_weak_ind
    (fun acc m =>
       (forall r1 r2 ch, m !! r1 = Some ch -> m !! r2 = Some ch -> r1 = r2) ->
       forall ch,
         (forall r, m !! r = Some ch -> acc !! ch = (fun sent => sent ++ [v]) <$> cs !! ch) /\
         ((forall r, m !! r <> Some ch) -> acc !! ch = cs !! ch))).
  - intros _ ch. split; [intros r Hr; by rewrite lookup_empty in Hr|done].
  - clear m. intros i x m acc Hi IH Hinj ch.
    assert (forall r, m !! r <> Some x) as Hfresh.
    { intros r Hr. assert (r = i) as ->; [|congruence].
      apply (Hinj r i x); [|by rewrite lookup_insert_eq].
      rewrite lookup_insert_ne; [done|congruence]. }
    assert (forall r1 r2 c, m !! r1 = Some c -> m !! r2 = Some c -> r1 = r2) as Hinj'.
    { intros r1 r2 c H1 H2. apply (Hinj r1 r2 c).
      - rewrite lookup_insert_ne; [done|congruence].
      - rewrite lookup_insert_ne; [done|congruence]. }
    specialize (IH Hinj'). unfold send.
    destruct (decide (x = ch)) as [->|Hne].
    + rewrite list_lookup_alter_eq.
      destruct (IH ch) as [_ IH2]. rewrite IH2 by done. split; [done|].
      intros Hno. destruct (Hno i). by rewrite lookup_insert_eq.
    + rewrite list_lookup_alter_ne by done. destruct (IH ch) as [IH1 IH2]. split.
      * intros r Hr. destruct (decide (i = r)) as [->|Hir].
        -- rewrite lookup_insert_eq in Hr. congruence.
        -- rewrite lookup_insert_ne in Hr by done. by eapply IH1.
      * intros Hno. apply IH2. intros r Hr. apply (Hno r).
        rewrite lookup_insert_ne; [done|congruence].
Qed.

Lemma notifyAll_notified (v : bool) (l : commitLog) :
  waitersOK l -> notified v l (notifyAll v l).
Proof.
  intros [Hinj Hpark _]. split.
  - done.
  - intros r ch Hr. simpl.
    destruct (notify_fold v (chans l) (hwWaiters l) Hinj ch) as [H1 _].
    rewrite (H1 r Hr). by rewrite (Hpark r ch Hr).
  - intros ch Hno. simpl.
    destruct (notify_fold v (chans l) (hwWaiters l) Hinj ch) as [_ H2].
    by apply H2.
Qed.

Lemma notifyAll_ok (v : bool) (l : commitLog) :
  waitersOK l -> waitersOK (notifyAll v l).
Proof.
  intros Hok. destruct (notifyAll_notified v l Hok) as [_ Hsent Hothers].
  split.
  - simpl. intros r1 r2 ch H. by rewrite lookup_empty in H.
  - simpl. intros r ch H. by rewrite lookup_empty in H.
  - intros ch sent Hch.
    destruct (decide (map_Exists (fun _ c => c = ch) (hwWaiters l)))
      as [(r & c & Hr & Hc)|Hno].
    + subst c. rewrite (Hsent r ch Hr) in Hch. injection Hch as <-. simpl. lia.
    + rewrite Hothers in Hch; [by eapply (w_once l Hok)|].
      intros r Hr. apply Hno. by exists r, ch.
Qed.

Lemma send_fresh (v : bool) (cs : list (list bool)) :
  send (length cs) v (cs ++ [[]]) = cs ++ [[v]].
Proof. unfold send. induction cs as [|c cs IH]; simpl; [done|]. by f_equal. Qed.

Lemma lookup_snoc_old {A} (cs : list A) (x : A) (ch : nat) (y : A) :
  cs !! ch = Some y -> (cs ++ [x]) !! ch = Some y.
Proof. intros H. rewrite lookup_app_l; [done|]. by eapply lookup_lt_Some. Qed.

Lemma lookup_snoc_inv {A} (cs : list A) (x : A) (ch : nat) (y : A) :
  (cs ++ [x]) !! ch = Some y ->
  cs !! ch = Some y \/ (ch = length cs /\ y = x).
Proof.
  intros H. apply lookup_app_Some in H as [H|[Hge H]]; [by left|right].
  apply list_lookup_singleton_Some in H as [? ?]. split; [lia|done].
Qed.

Lemma fresh_chan (l : commitLog) : chans l !! length (chans l) = None.
Proof. by apply lookup_ge_None_2. Qed.

Lemma fired_ok (l : commitLog) (b : bool) :
  waitersOK l -> waitersOK (set_waiters (hwWaiters l) (chans l ++ [[b]]) l).
Proof.
  intros [Hinj Hpark Honce]. split; simpl.
  - exact Hinj.
  - intros r ch Hr. apply lookup_snoc_old. by eapply Hpark.
  - intros ch sent Hch. apply lookup_snoc_inv in Hch as [Hch|[_ ->]].
    + by eapply Honce.
    + simpl. lia.
Qed.

Lemma parked_ok (l : commitLog) (r : nat) :
  waitersOK l ->
  waitersOK (set_waiters (<[r := length (chans l)]> (hwWaiters l)) (chans l ++ [[]]) l).
Proof.
  intros [Hinj Hpark Honce].
  assert (forall r', hwWaiters l !! r' <> Some (length (chans l))) as Hfresh.
  { intros r' Hr'. apply Hpark in Hr'. by rewrite fresh_chan in Hr'. }
  split; simpl.
  - intros r1 r2 ch H1 H2.
    destruct (decide (r = r1)) as [<-|Hn1]; destruct (decide (r = r2)) as [<-|Hn2]; [done|..].
    + rewrite lookup_insert_eq in H1. rewrite lookup_insert_ne in H2 by done.
      injection H1 as <-. by destruct (Hfresh r2).
    + rewrite lookup_insert_eq in H2. rewrite lookup_insert_ne in H1 by done.
      injection H2 as <-. by destruct (Hfresh r1).
    + rewrite lookup_insert_ne in H1, H2 by done. by eapply Hinj.
  - intros r' ch Hr'. destruct (decide (r = r')) as [<-|Hn].
    + rewrite lookup_insert_eq in Hr'. injection Hr' as <-.
      rewrite lookup_app_r by lia. by rewrite Nat.sub_diag.
    + rewrite lookup_insert_ne in Hr' by done. apply lookup_snoc_old. by eapply Hpark.
  - intros ch sent Hch. apply lookup_snoc_inv in Hch as [Hch|[_ ->]].
    + by eapply Honce.
    + simpl. lia.
Qed.

Lemma waitForHW_ok (l : commitLog) (r : nat) (v : Z) :
  waitersOK l -> waitersOK (waitForHW l r v).2.
Proof.
  intros Hok. unfold waitForHW.
  case_bool_decide; simpl; [|rewrite send_fresh; by apply fired_ok].
  destruct (bool_decide (hw l = NewestOffset l) && IsReadonly l); simpl.
  - rewrite send_fresh. by apply fired_ok.
  - by apply parked_ok.
Qed.

Lemma removeHWWaiter_ok (l : commitLog) (r : nat) :
  waitersOK l -> waitersOK (removeHWWaiter l r).
Proof.
  intros [Hinj Hpark Honce]. split; simpl; [| |exact Honce].
  - intros r1 r2 ch H1 H2.
    apply lookup_delete_Some in H1 as [_ H1]. apply lookup_delete_Some in H2 as [_ H2].
    by eapply Hinj.
  - intros r' ch Hr'. apply lookup_delete_Some in Hr' as [_ Hr']. by eapply Hpark.
Qed.

Lemma set_hw_ok (l : commitLog) (v : Z) : waitersOK l -> waitersOK (set_hw v l).
Proof. intros [? ? ?]. by split. Qed.

Lemma set_readonly_ok (l : commitLog) (ro : bool) :
  waitersOK l -> waitersOK (set_readonly ro l).
Proof. intros [? ? ?]. by split. Qed.

(** What does not touch the waiters keeps them in order. *)
Lemma frame_ok (l l' : commitLog) :
  hwWaiters l' = hwWaiters l -> chans l' = chans l -> waitersOK l -> waitersOK l'.
Proof. intros Hw Hc [? ? ?]. split; rewrite ?Hw, ?Hc; done. Qed.

Lemma checkAndPerformSplit_frame (E : env) (fuel : nat) (l : commitLog) b e l' :
  checkAndPerformSplit E fuel l = Some (b, e, l') ->
  hwWaiters l' = hwWaiters l /\ chans l' = chans l.
Proof.
  revert l. induction fuel as [|fuel IH]; intros l; simpl; [done|].
  destruct (CheckSplit E _ _); simpl; [|by intros [= _ _ <-]].
  unfold split. destruct (newSegment _ _) as [err|seg]; simpl.
  - case_bool_decide; [apply IH|by intros [= _ _ <-]].
  - by intros [= _ _ <-].
Qed.

Lemma append_frame (E : env) (l : commitLog) seg ms entries :
  hwWaiters (append E l seg ms entries).2 = hwWaiters l /\
  chans (append E l seg ms entries).2 = chans l.
Proof.
  unfold append. destruct (WriteMessageSet _ _ _ _); simpl; [done|].
  by destruct (assignEpochs _ _ _ _) as [[err|] c].
Qed.

Lemma Append_frame (E : env) (fuel : nat) (l : commitLog) msgs r l' :
  Append E fuel l msgs = Some (r, l') ->
  hwWaiters l' = hwWaiters l /\ chans l' = chans l.
Proof.
  unfold Append. destruct (IsReadonly l); [by intros [= _ <-]|].
  destruct (checkAndPerformSplit E fuel l) as [[[b [err|]] l1]|] eqn:Hs; [..|done].
  - apply checkAndPerformSplit_frame in Hs. by intros [= _ <-].
  - apply checkAndPerformSplit_frame in Hs as [Hw Hc].
    destruct (newMessageSetFromProto _ _ _ _ _) as [err|[ms entries]].
    + by intros [= _ <-].
    + intros [= H]. apply (f_equal snd) in H. simpl in H. subst l'.
      destruct (append_frame E l1 (activeSegment l1) ms entries) as [-> ->]. done.
Qed.

Lemma AppendMessageSet_frame (E : env) (fuel : nat) (l : commitLog) ms r l' :
  AppendMessageSet E fuel l ms = Some (r, l') ->
  hwWaiters l' = hwWaiters l /\ chans l' = chans l.
Proof.
  unfold AppendMessageSet.
  destruct (checkAndPerformSplit E fuel l) as [[[b [err|]] l1]|] eqn:Hs; [..|done].
  - apply checkAndPerformSplit_frame in Hs. by intros [= _ <-].
  - apply checkAndPerformSplit_frame in Hs as [Hw Hc].
    intros [= H]. apply (f_equal snd) in H. simpl in H. subst l'.
    destruct (append_frame E l1 (activeSegment l1) ms
                (entriesForMessageSet (Position (activeSegment l1)) ms)) as [-> ->]. done.
Qed.

Lemma Truncate_frame (io : ioOutcome) (l : commitLog) (O : Z) :
  hwWaiters (Truncate io l O).2 = hwWaiters l /\ chans (Truncate io l O).2 = chans l.
Proof.
  unfold Truncate.
  destruct (findSegment _ _) as [[idx seg]|]; [|done].
  destruct (deleteAll _ _); [done|].
  destruct (if bool_decide (BaseOffset seg = O) then _ else _).
  - destruct (Truncated _ _); simpl; [done|].
    destruct (copyBelow _ _ _ _); simpl; [done|].
    destruct (Replace _ _ _); simpl; [done|].
    unfold cacheClearLatest. by destruct (io IoCheckpointEpochs).
  - destruct (segDelete _ _); simpl; [done|].
    unfold cacheClearLatest. by destruct (io IoCheckpointEpochs).
Qed.

Lemma SetHighWatermark_ok (l : commitLog) (v : Z) :
  waitersOK l -> waitersOK (SetHighWatermark l v).
Proof.
  intros Hok. unfold SetHighWatermark. case_bool_decide; [|done].
  by apply notifyAll_ok, set_hw_ok.
Qed.

Lemma OverrideHighWatermark_ok (l : commitLog) (v : Z) :
  waitersOK l -> waitersOK (OverrideHighWatermark l v).
Proof. intros Hok. by apply notifyAll_ok, set_hw_ok. Qed.

Lemma SetReadonly_ok (l : commitLog) (ro : bool) :
  waitersOK l -> waitersOK (SetReadonly l ro).
Proof.
  intros Hok. unfold SetReadonly, notifyReadonly. destruct ro; [|by apply set_readonly_ok].
  case_bool_decide; [by apply set_readonly_ok|].
  by apply notifyAll_ok, set_readonly_ok.
Qed.

(** C4. SetHighWatermark(v) with v at most the current HW changes nothing and
    notifies nobody; with v above the current HW it sets the HW to v, sends
    false to every registered waiter and drops the waiters; so the HW never
    decreases through it. OverrideHighWatermark(v) sets the HW to v whatever
    the current HW is, and notifies in the same way. *)
Theorem HighWatermark_monotonic (l : commitLog) (v : Z) :
  waitersOK l ->
  (v <= hw l -> SetHighWatermark l v = l) /\
  (hw l < v ->
     hw (SetHighWatermark l v) = v /\
     notified false (set_hw v l) (SetHighWatermark l v)) /\
  hw l <= hw (SetHighWatermark l v) /\
  hw (OverrideHighWatermark l v) = v /\
  notified false (set_hw v l) (OverrideHighWatermark l v).
Proof.
  intros Hok. unfold SetHighWatermark, OverrideHighWatermark, notifyHWChange.
  split; [|split; [|split; [|split]]].
  - intros Hle. rewrite bool_decide_eq_false_2 by lia. done.
  - intros Hlt. rewrite bool_decide_eq_true_2 by done.
    split; [done|]. by apply notifyAll_notified, set_hw_ok.
  - case_bool_decide; simpl; lia.
  - done.
  - by apply notifyAll_notified, set_hw_ok.
Qed.

(** A log with two readers parked at HW 4. *)
Definition parkedLog : commitLog :=
  set_waiters {[ 7%nat := 0%nat; 9%nat := 1%nat ]} [[]; []] exampleLog.

Lemma parkedLog_ok : waitersOK parkedLog.
Proof.
  split; simpl.
  - intros r1 r2 ch H1 H2.
    apply lookup_insert_Some in H1 as [[? ?]|[? H1]];
      [|apply lookup_singleton_Some in H1 as [? ?]];
      (apply lookup_insert_Some in H2 as [[? ?]|[? H2]];
       [|apply lookup_singleton_Some in H2 as [? ?]]); congruence.
  - intros r ch H.
    apply lookup_insert_Some in H as [[? ?]|[? H]];
      [|apply lookup_singleton_Some in H as [? ?]]; by subst.
  - intros ch sent H. destruct ch as [|[|ch]]; simpl in H; [| |done].
    + injection H as <-. simpl. lia.
    + injection H as <-. simpl. lia.
Qed.

Lemma HighWatermark_monotonic_witness :
  waitersOK parkedLog /\
  SetHighWatermark parkedLog 3 = parkedLog /\
  hw (SetHighWatermark parkedLog 6) = 6 /\
  chans (SetHighWatermark parkedLog 6) !! 1%nat = Some [false] /\
  hw (OverrideHighWatermark parkedLog 2) = 2.
Proof.
  pose proof parkedLog_ok as Hok.
  destruct (HighWatermark_monotonic parkedLog 3 Hok) as (Hsame & _).
  destruct (HighWatermark_monotonic parkedLog 6 Hok) as (_ & Hup & _).
  destruct (HighWatermark_monotonic parkedLog 2 Hok) as (_ & _ & _ & Hov & _).
  split; [exact Hok|]. split; [apply Hsame; simpl; lia|].
  destruct Hup as [Hhw Hn]; [simpl; lia|].
  split; [exact Hhw|]. split; [|exact Hov].
  apply (n_sent _ _ _ Hn 9%nat 1%nat). reflexivity.
Defined.

(** *** Runs of the log *)

Inductive op :=
| OpWaitForHW (r : nat) (v : Z)
| OpRemoveHWWaiter (r : nat)
| OpSetHighWatermark (v : Z)
| OpOverrideHighWatermark (v : Z)
| OpSetReadonly (ro : bool)
| OpAppend (E : env) (fuel : nat) (msgs : list Message)
| OpAppendMessageSet (E : env) (fuel : nat) (ms : messageSet)
| OpTruncate (io : ioOutcome) (offset : Z).

(** One call on the log; an append whose roll loop does not return leaves the
    log as it was. *)
Definition step (o : op) (l : commitLog) : commitLog :=
  match o with
  | OpWaitForHW r v => (waitForHW l r v).2
  | OpRemoveHWWaiter r => removeHWWaiter l r
  | OpSetHighWatermark v => SetHighWatermark l v
  | OpOverrideHighWatermark v => OverrideHighWatermark l v
  | OpSetReadonly ro => SetReadonly l ro
  | OpAppend E fuel msgs =>
      match Append E fuel l msgs with Some (_, l') => l' | None => l end
  | OpAppendMessageSet E fuel ms =>
      match AppendMessageSet E fuel l ms with Some (_, l') => l' | None => l end
  | OpTruncate io offset => (Truncate io l offset).2
  end.

Definition run (ops : list op) (l : commitLog) : commitLog :=
  foldl (fun l o => step o l) l ops.

Lemma step_frame (o : op) (l : commitLog) :
  match o with
  | OpAppend _ _ _ | OpAppendMessageSet _ _ _ | OpTruncate _ _ =>
      hwWaiters (step o l) = hwWaiters l /\ chans (step o l) = chans l
  | _ => True
  end.
Proof.
  destruct o as [| | | | |E fuel msgs|E fuel ms|io O]; simpl; try done.
  - destruct (Append E fuel l msgs) as [[r l']|] eqn:H; [|done].
    by apply Append_frame in H.
  - destruct (AppendMessageSet E fuel l ms) as [[r l']|] eqn:H; [|done].
    by apply AppendMessageSet_frame in H.
  - apply Truncate_frame.
Qed.

Lemma step_ok (o : op) (l : commitLog) : waitersOK l -> waitersOK (step o l).
Proof.
  intros Hok. pose proof (step_frame o l) as Hf.
  destruct o; simpl in *.
  - by apply waitForHW_ok.
  - by apply removeHWWaiter_ok.
  - by apply SetHighWatermark_ok.
  - by apply OverrideHighWatermark_ok.
  - by apply SetReadonly_ok.
  - destruct Hf as [Hw Hc]. by eapply frame_ok.
  - destruct Hf as [Hw Hc]. by eapply frame_ok.
  - destruct Hf as [Hw Hc]. by eapply frame_ok.
Qed.






Example waiter_woken_once :
  let l := run [OpWaitForHW 3 4; OpSetHighWatermark 5; OpSetHighWatermark 6;
                OpSetReadonly true] parkedLog in
  chans l = [[false]; [false]; [false]] /\ hwWaiters l = ∅.
Proof. split; reflexivity. Qed.

End commitlog_spec.

(** ** Properties of the metadata plane *)
Module server_spec.
Import server.

(** *** Stable sorting by a key *)
Section stable_sort.
Context {A : Type} (key : A -> Z).

Let less (a b : A) : bool := bool_decide (key a < key b).
Let ascending (a b : A) : Prop := key a <= key b.

Lemma insertStable_perm (x : A) (l : list A) : Go.insertStable less x l ≡ₚ x :: l.
Proof.
  induction l as [|y l IH]; simpl; [done|].
  destruct (less y x); [|done]. rewrite IH. apply Permutation_swap.
Qed.

Lemma SliceStable_perm (l : list A) : Go.SliceStable less l ≡ₚ l.
Proof.
  induction l as [|x l IH]; simpl; [done|].
  rewrite insertStable_perm. by rewrite IH.
Qed.

Lemma insertStable_sorted (x : A) (l : list A) :
  StronglySorted ascending l -> StronglySorted ascending (Go.insertStable less x l).
Proof.
  induction 1 as [|y l Hs IH Hall]; simpl; [repeat constructor|].
  unfold less at 1. case_bool_decide as Hlt.
  - constructor; [done|]. rewrite insertStable_perm.
    constructor; [unfold ascending; lia|done].
  - constructor; [by constructor|].
    constructor; [unfold ascending; lia|].
    eapply Forall_impl; [exact Hall|]. unfold ascending. intros; lia.
Qed.

Lemma SliceStable_sorted (l : list A) : StronglySorted ascending (Go.SliceStable less l).
Proof.
  induction l as [|x l IH]; simpl; [constructor|]. by apply insertStable_sorted.
Qed.

(** Stability: the elements of one key stand in the order they had. *)
Lemma insertStable_stable (k : Z) (x : A) (l : list A) :
  filter (fun a => key a = k) (Go.insertStable less x l)
  = filter (fun a => key a = k) (x :: l).
Proof.
  induction l as [|y l IH]; simpl; [done|].
  unfold less at 1. case_bool_decide as Hlt; [|done].
  rewrite filter_cons, IH, !filter_cons.
  repeat case_decide; try done. lia.
Qed.

Lemma SliceStable_stable (k : Z) (l : list A) :
  filter (fun a => key a = k) (Go.SliceStable less l) = filter (fun a => key a = k) l.
Proof.
  induction l as [|x l IH]; simpl; [done|].
  rewrite insertStable_stable, !filter_cons. by rewrite IH.
Qed.

End stable_sort.

Lemma int32_id (x : Z) : -2147483648 <= x <= 2147483647 -> Go.int32 x = x.
Proof.
  intros H. unfold Go.int32, Go.wrap.
  change (2 ^ (32 - 1)) with 2147483648. change (2 ^ 32) with 4294967296.
  rewrite Z.mod_small; lia.
Qed.

(** *** Replica placement *)

Lemma take_drop_least {A} (key : A -> Z) (n : nat) (l : list A) (a b : A) :
  StronglySorted (fun a b => key a <= key b) l ->
  a ∈ take n l -> b ∈ drop n l -> key a <= key b.
Proof.
  intros Hs Ha Hb. rewrite <- (take_drop n l) in Hs.
  by apply (StronglySorted_app_1_elem_of _ _ _ a b) in Hs.
Qed.

(** C8. For a replication factor N between 1 and the number of brokers (a
    number that fits int32), getPartitionReplicas returns N brokers: the first N of the brokers ranked
    by partition count, ascending and stable, so that no broker left out has a
    smaller count than one selected. selectPartitionLeader picks among the
    selected replicas one whose leader count is the lowest. *)
Theorem placement_by_load (m : metadataAPI) (ids : list string) (N : Z) :
  0 < N <= Go.len ids -> Go.len ids <= 2147483647 ->
  let pcount := load (brokerPartitionLoad m) in
  let lcount := load (brokerLeaderLoad m) in
  exists replicas rest : list string,
    getPartitionReplicas m (inr ids) N = inr replicas /\
    Go.len replicas = N /\
    replicas ++ rest ≡ₚ ids /\
    StronglySorted (fun a b => pcount a <= pcount b) (replicas ++ rest) /\
    (forall k, filter (fun a => pcount a = k) (replicas ++ rest)
               = filter (fun a => pcount a = k) ids) /\
    (forall a b, a ∈ replicas -> b ∈ rest -> pcount a <= pcount b) /\
    exists (leader : string) (ordered : list string),
      selectPartitionLeader m replicas = (ordered, Some leader) /\
      ordered ≡ₚ replicas /\
      leader ∈ replicas /\
      (forall a, a ∈ replicas -> lcount leader <= lcount a) /\
      (forall k, filter (fun a => lcount a = k) ordered
                 = filter (fun a => lcount a = k) replicas).
Proof.
  intros HN Hlen pcount lcount. unfold getPartitionReplicas. cbv zeta.
  rewrite (bool_decide_eq_false_2 (N = maxReplicationFactor))
    by (unfold maxReplicationFactor; lia).
  rewrite (bool_decide_eq_false_2 (N <= 0)) by lia.
  rewrite int32_id by (unfold Go.len in *; lia).
  rewrite (bool_decide_eq_false_2 (Go.len ids < N)) by lia.
  set (sorted := Go.SliceStable _ ids).
  assert (sorted ≡ₚ ids) as Hperm by apply (SliceStable_perm pcount ids).
  assert (StronglySorted (fun a b => pcount a <= pcount b) sorted) as Hsorted
    by apply (SliceStable_sorted pcount ids).
  assert (forall k, filter (fun a => pcount a = k) sorted
                    = filter (fun a => pcount a = k) ids) as Hstable
    by (intros k; apply (SliceStable_stable pcount k ids)).
  exists (take (Z.to_nat N) sorted), (drop (Z.to_nat N) sorted).
  rewrite take_drop.
  split; [done|]. split.
  { unfold Go.len in *. rewrite length_take.
    apply Permutation_length in Hperm. lia. }
  split; [done|]. split; [done|]. split; [done|]. split.
  { intros a b. by apply take_drop_least. }
  set (replicas := take (Z.to_nat N) sorted).
  assert (replicas <> []) as Hne.
  { intros Hnil. apply (f_equal length) in Hnil. unfold replicas in Hnil.
    rewrite length_take in Hnil. apply Permutation_length in Hperm.
    unfold Go.len in *. simpl in Hnil. lia. }
  unfold selectPartitionLeader.
  set (ordered := Go.SliceStable _ replicas).
  assert (ordered ≡ₚ replicas) as Hperm' by apply (SliceStable_perm lcount replicas).
  assert (StronglySorted (fun a b => lcount a <= lcount b) ordered) as Hsorted'
    by apply (SliceStable_sorted lcount replicas).
  assert (forall k, filter (fun a => lcount a = k) ordered
                    = filter (fun a => lcount a = k) replicas) as Hstable'
    by (intros k; apply (SliceStable_stable lcount k replicas)).
  destruct ordered as [|leader others] eqn:Hord.
  { apply Permutation_nil_l in Hperm'. by destruct Hne. }
  exists leader, (leader :: others). simpl.
  split; [done|]. split; [done|]. split.
  { rewrite <- Hperm'. by left. }
  split; [|done].
  intros a Ha. rewrite <- Hperm' in Ha.
  apply StronglySorted_inv in Hsorted' as [_ Hall].
  apply elem_of_cons in Ha as [->|Ha]; [lia|].
  rewrite Forall_forall in Hall. by apply Hall.
Qed.

Definition threeBrokers : metadataAPI :=
  set_loads {[ "a" := 2; "b" := 0; "c" := 1 ]} {[ "b" := 3; "c" := 1 ]}
    (newMetadataAPI {| ServerID := "a"; Host := "localhost"; Port := 9292;
                       MetadataCacheMaxAge := 120000000000;
                       ReplicaMaxLeaderTimeout := 15000000000 |}).

Lemma placement_by_load_witness :
  exists replicas rest : list string,
    getPartitionReplicas threeBrokers (inr ["a"; "b"; "c"]) 2 = inr replicas /\
    Go.len replicas = 2 /\ replicas ++ rest ≡ₚ ["a"; "b"; "c"].
Proof.
  destruct (placement_by_load threeBrokers ["a"; "b"; "c"] 2)
    as (replicas & rest & Hget & Hlen & Hperm & _).
  - unfold Go.len. simpl. lia.
  - unfold Go.len. simpl. lia.
  - exists replicas, rest. split; [exact Hget|]. split; [exact Hlen|exact Hperm].
Defined.

Example placement_example :
  getPartitionReplicas threeBrokers (inr ["a"; "b"; "c"]) 2 = inr ["b"; "c"] /\
  selectPartitionLeader threeBrokers ["b"; "c"] = (["c"; "b"], Some "c") /\
  getPartitionReplicas threeBrokers (inr ["a"; "b"; "c"]) maxReplicationFactor
    = inr ["b"; "c"; "a"].
Proof. vm_compute. done. Qed.

(** *** Leader reports *)


Lemma elect_spec (m : metadataAPI) (p : partition) (raft : ChangeLeaderOp -> raftResult) :
  (Isr p ∖ {[Leader p]} = ∅ ->
   electNewPartitionLeader m p raft = (Some noISRCandidates, None)) /\
  (forall o, (electNewPartitionLeader m p raft).2 = Some o ->
     clLeader o ∈ Isr p /\ clLeader o <> Leader p /\
     clStream o = Stream p /\ clPartition o = Id p /\
     (forall a, a ∈ Isr p -> a <> Leader p ->
        load (brokerLeaderLoad m) (clLeader o) <= load (brokerLeaderLoad m) a) /\
     (electNewPartitionLeader m p raft).1 =
       match raft o with
       | RaftRefused err => Some {| Code := FailedPrecondition; Msg := errorText err |}
       | RaftFailed err =>
           Some {| Code := Internal; Msg := "Failed to replicate leader change: " +:+ err |}
       | RaftCommitted => None
       end).
Proof.
  unfold electNewPartitionLeader, GetISR, GetLeader. simpl.
  set (candidates := filter _ (elements (Isr p))).
  assert (forall a, a ∈ candidates <-> a ∈ Isr p /\ a <> Leader p) as Hcand.
  { intros a. unfold candidates. rewrite list_elem_of_filter, elem_of_elements. tauto. }
  split.
  - intros Hempty. case_bool_decide; [done|].
    rewrite bool_decide_eq_true_2; [done|].
    destruct candidates as [|a ?]; [done|].
    assert (a ∈ Isr p ∖ {[Leader p]}) as Ha.
    { apply elem_of_difference. rewrite elem_of_singleton. apply Hcand. by left. }
    rewrite Hempty in Ha. by apply elem_of_empty in Ha.
  - intros o. case_bool_decide; [done|]. case_bool_decide; [done|].
    unfold selectPartitionLeader.
    set (lcount := load (brokerLeaderLoad m)).
    set (ordered := Go.SliceStable _ candidates).
    assert (ordered ≡ₚ candidates) as Hperm by apply (SliceStable_perm lcount candidates).
    assert (StronglySorted (fun a b => lcount a <= lcount b) ordered) as Hsorted
      by apply (SliceStable_sorted lcount candidates).
    destruct ordered as [|leader others]; simpl; [done|].
    assert (leader ∈ candidates) as Hin by (rewrite <- Hperm; by left).
    apply Hcand in Hin as [Hisr Hne].
    assert (forall a, a ∈ Isr p -> a <> Leader p -> lcount leader <= lcount a) as Hleast.
    { intros a Ha Hna. assert (a ∈ leader :: others) as Hao.
      { rewrite Hperm. by apply Hcand. }
      apply StronglySorted_inv in Hsorted as [_ Hall]. rewrite Forall_forall in Hall.
      apply elem_of_cons in Hao as [->|Hao]; [lia|by apply Hall]. }
    destruct (raft _) eqn:Hraft; simpl; intros [= <-]; simpl; rewrite Hraft; done.
Qed.


(** A store with one stream of one partition on three brokers. *)
Definition partition0 : partition :=
  {| Stream := "orders"; Id := 0; ReplicationFactor := 3;
     Replicas := ["a"; "b"; "c"]; Isr := {[ "a"; "b"; "c" ]}; Leader := "a";
     LeaderEpoch := 4; Epoch := 4; Paused := false; Readonly := false |}.

Definition oneStream : metadataAPI :=
  set_streams
    {[ "orders" := {| Name := "orders"; Subject := "orders.in";
                      partitions := {[ 0 := partition0 ]};
                      CreationTime := 1; Tombstoned := false |} ]}
    (set_loads {[ "a" := 1; "b" := 1; "c" := 1 ]} {[ "a" := 1 ]} threeBrokers).

Definition reportBy (replica : string) : ReportLeaderOp :=
  {| rlStream := "orders"; rlPartition := 0; rlReplica := replica;
     rlLeader := "a"; rlLeaderEpoch := 4 |}.


Example second_witness_elects :
  let first := ReportLeader oneStream MetadataLeader (reportBy "b") (fun _ => RaftCommitted) in
  let second := ReportLeader first.1.2 MetadataLeader (reportBy "c") (fun _ => RaftCommitted) in
  first.2 = None /\
  exists leader, second.2 = Some {| clStream := "orders"; clPartition := 0; clLeader := leader |}
                 /\ (leader = "b" \/ leader = "c").
Proof. vm_compute. split; [done|]. eexists. split; [done|]. auto. Qed.

(** *** The epoch fence *)

Lemma GetPartition_store (m : metadataAPI) (s : string) (id : Z) (p p' : partition) :
  GetPartition m s id = Some p ->
  GetPartition (storePartition m s id p') s id = Some p'.
Proof.
  unfold GetPartition, storePartition. simpl. rewrite lookup_alter_eq.
  destruct (streams m !! s); simpl; [|done]. intros _. by rewrite lookup_insert_eq.
Qed.

(** [F], applied with the epoch [epoch] to the partition [p] found at
    ([s], [id]), is fenced by the epoch. *)
Record fenced (F : metadataAPI -> option error * metadataAPI) (m : metadataAPI)
    (s : string) (id : Z) (p : partition) (epoch : Z) : Prop := {
  f_stale : epoch <= Epoch p -> F m = (None, m);
  f_only : (F m).2 <> m -> Epoch p < epoch;
  f_mono : exists p', GetPartition (F m).2 s id = Some p' /\
                      Epoch p <= Epoch p' /\
                      (p' <> p -> Epoch p' = epoch);
  f_twice : F (F m).2 = F m
}.

Ltac fence_cases Hp :=
  rewrite Hp; unfold GetEpoch;
  case_bool_decide as Hfence; simpl; [try rewrite Hp; try done|].

(** C6. RemoveFromISR, AddToISR and ChangeLeader, on an existing partition:
    with an epoch at most the partition's they return nil and leave the store
    as it is; they change the store only for a strictly greater epoch, and
    then the partition has the supplied epoch, so the partition's epoch never
    decreases; and applied a second time with the same arguments they change
    nothing more. With a greater epoch, and the partition-level call
    succeeding, the ISR loses or gains the replica, or the leader is the one
    given. *)
Theorem epoch_fence (m : metadataAPI) (s x : string) (id epoch : Z)
    (fails : option error) (p : partition) :
  GetPartition m s id = Some p ->
  fenced (fun m => RemoveFromISR m s x id epoch fails) m s id p epoch /\
  fenced (fun m => AddToISR m s x id epoch fails) m s id p epoch /\
  fenced (fun m => ChangeLeader m s x id epoch fails) m s id p epoch /\
  (Epoch p < epoch -> fails = None ->
   (exists p', GetPartition (RemoveFromISR m s x id epoch fails).2 s id = Some p' /\
               Isr p' = Isr p ∖ {[x]} /\ Leader p' = Leader p /\ Epoch p' = epoch) /\
   (exists p', GetPartition (AddToISR m s x id epoch fails).2 s id = Some p' /\
               Isr p' = Isr p ∪ {[x]} /\ Leader p' = Leader p /\ Epoch p' = epoch) /\
   (exists p', GetPartition (ChangeLeader m s x id epoch fails).2 s id = Some p' /\
               Isr p' = Isr p /\ Leader p' = x /\ Epoch p' = epoch)).
Proof.
  intros Hp.
  split; [|split; [|split]].
  - unfold RemoveFromISR. split.
    + intros Hle. rewrite Hp. unfold GetEpoch. by rewrite bool_decide_eq_true_2.
    + fence_cases Hp. intros _. lia.
    + fence_cases Hp; [by exists p|].
      destruct fails as [e|]; simpl; [by exists p|].
      eexists. split; [by eapply GetPartition_store|]. simpl. split; [lia|done].
    + fence_cases Hp; [by rewrite bool_decide_eq_true_2|].
      destruct fails as [e|]; simpl.
      * rewrite Hp. unfold GetEpoch. by rewrite bool_decide_eq_false_2.
      * erewrite GetPartition_store by done. unfold GetEpoch. simpl.
        by rewrite bool_decide_eq_true_2 by lia.
  - unfold AddToISR. split.
    + intros Hle. rewrite Hp. unfold GetEpoch. by rewrite bool_decide_eq_true_2.
    + fence_cases Hp. intros _. lia.
    + fence_cases Hp; [by exists p|].
      destruct fails as [e|]; simpl; [by exists p|].
      eexists. split; [by eapply GetPartition_store|]. simpl. split; [lia|done].
    + fence_cases Hp; [by rewrite bool_decide_eq_true_2|].
      destruct fails as [e|]; simpl.
      * rewrite Hp. unfold GetEpoch. by rewrite bool_decide_eq_false_2.
      * erewrite GetPartition_store by done. unfold GetEpoch. simpl.
        by rewrite bool_decide_eq_true_2 by lia.
  - unfold ChangeLeader. split.
    + intros Hle. rewrite Hp. unfold GetEpoch. by rewrite bool_decide_eq_true_2.
    + fence_cases Hp. intros _. lia.
    + fence_cases Hp; [by exists p|].
      destruct fails as [e|]; simpl; [by exists p|].
      eexists. split; [by eapply GetPartition_store|]. simpl. split; [lia|done].
    + fence_cases Hp; [by rewrite bool_decide_eq_true_2|].
      destruct fails as [e|]; simpl.
      * rewrite Hp. unfold GetEpoch. by rewrite bool_decide_eq_false_2.
      * match goal with
        | |- context [GetPartition ?m' s id] =>
            assert (GetPartition m' s id
                    = Some (SetEpoch {| Stream := Stream p; Id := Id p;
                                        ReplicationFactor := ReplicationFactor p;
                                        Replicas := Replicas p; Isr := Isr p;
                                        Leader := x; LeaderEpoch := epoch;
                                        Epoch := Epoch p; Paused := Paused p;
                                        Readonly := Readonly p |} epoch)) as ->
              by (by eapply GetPartition_store)
        end.
        unfold GetEpoch. simpl. by rewrite bool_decide_eq_true_2 by lia.
  - intros Hlt ->. unfold RemoveFromISR, AddToISR, ChangeLeader.
    rewrite Hp. unfold GetEpoch. rewrite bool_decide_eq_false_2 by lia. simpl.
    split; [|split]; eexists; (split; [by eapply GetPartition_store|done]).
Qed.

Lemma epoch_fence_witness :
  RemoveFromISR oneStream "orders" "c" 0 4 None = (None, oneStream) /\
  ChangeLeader (ChangeLeader oneStream "orders" "b" 0 5 None).2 "orders" "b" 0 5 None
    = ChangeLeader oneStream "orders" "b" 0 5 None.
Proof.
  destruct (epoch_fence oneStream "orders" "c" 0 4 None partition0) as (Hrm & _);
    [reflexivity|].
  destruct (epoch_fence oneStream "orders" "b" 0 5 None partition0) as (_ & _ & Hcl & _);
    [reflexivity|].
  split.
  - apply (f_stale _ _ _ _ _ _ Hrm). simpl. lia.
  - apply (f_twice _ _ _ _ _ _ Hcl).
Defined.

Example ChangeLeader_moves_load :
  let m' := (ChangeLeader oneStream "orders" "b" 0 5 None).2 in
  GetPartition m' "orders" 0
    = Some {| Stream := "orders"; Id := 0; ReplicationFactor := 3;
              Replicas := ["a"; "b"; "c"]; Isr := {[ "a"; "b"; "c" ]}; Leader := "b";
              LeaderEpoch := 5; Epoch := 5; Paused := false; Readonly := false |} /\
  load (brokerLeaderLoad m') "a" = 0 /\ load (brokerLeaderLoad m') "b" = 1.
Proof. vm_compute. done. Qed.

(** *** The broker cache *)

Lemma serversChanged_spec (serverIDs cached : gset string) :
  serversChanged serverIDs cached = false <-> serverIDs = cached.
Proof.
  unfold serversChanged. case_bool_decide as Hsize.
  - split; [done|]. intros ->. done.
  - rewrite negb_false_iff, forallb_forall. split.
    + intros Hall. apply set_subseteq_size_eq; [|lia].
      intros id Hid. eapply bool_decide_eq_true_1, Hall.
      by apply list_elem_of_In, elem_of_elements.
    + intros -> id Hid. apply bool_decide_eq_true_2.
      by apply elem_of_elements, list_elem_of_In.
Qed.

(** The cache can be used at the instant [now] for the servers [serverIDs]. *)
Definition usable (m : metadataAPI) (now : Z) (serverIDs : gset string) : Prop :=
  cachedBrokers m <> [] /\
  serverIDs = cachedServerIDs m /\
  Go.Since now (lastCached m) <= MetadataCacheMaxAge (config m).

Lemma brokerCache_spec (m : metadataAPI) (now : Z) (serverIDs : gset string) :
  (usable m now serverIDs -> brokerCache m now serverIDs = Some (cachedBrokers m)) /\
  (~ usable m now serverIDs -> brokerCache m now serverIDs = None).
Proof.
  unfold brokerCache, usable.
  pose proof (serversChanged_spec serverIDs (cachedServerIDs m)) as Hch.
  split.
  - intros (Hne & Hids & Hage).
    rewrite bool_decide_eq_true_2; [|destruct (cachedBrokers m); [done|unfold Go.len; simpl; lia]].
    apply Hch in Hids. rewrite Hids. simpl. by rewrite bool_decide_eq_true_2.
  - intros Hno. case_bool_decide as Hlen; simpl; [|done].
    destruct (serversChanged _ _) eqn:Hsc; simpl; [done|].
    case_bool_decide as Hage; [|done]. destruct Hno.
    split; [intros Hnil; rewrite Hnil in Hlen; unfold Go.len in Hlen; simpl in Hlen; lia|].
    split; [by apply Hch|done].
Qed.

(** A metadata plane whose cache never expires, before its first survey, at
    an instant of the year 2026 counted from the zero Time. *)
Definition neverExpires : metadataAPI :=
  newMetadataAPI {| ServerID := "a"; Host := "localhost"; Port := 9292;
                    MetadataCacheMaxAge := Go.MaxInt64;
                    ReplicaMaxLeaderTimeout := 15000000000 |}.

Definition year2026 : Z := 63900000000000000000.

Definition quietBus : survey :=
  {| subscribeFails := None; publishFails := None; replies := [] |}.

(** C9, as stated, fails: with no server in the Raft configuration the
    membership is the cached one, and the age of the cache is within
    metadataCacheMaxAge, yet FetchMetadata does not answer from the cache,
    which is empty: it surveys the peers and refreshes the cache. *)
Lemma FetchMetadata_empty_cache_unused :
  list_to_set [] = cachedServerIDs neverExpires /\
  Go.Since year2026 (lastCached neverExpires) <= MetadataCacheMaxAge (config neverExpires) /\
  brokerCache neverExpires year2026 (list_to_set []) = None /\
  FetchMetadata neverExpires [] (inr []) quietBus year2026 year2026
    = (inr {| Brokers := [ {| bId := "a"; bHost := "localhost"; bPort := 9292;
                              PartitionCount := 0; LeaderCount := 0 |} ];
              Metadata := [] |},
       set_cache [ {| bId := "a"; bHost := "localhost"; bPort := 9292;
                      PartitionCount := 0; LeaderCount := 0 |} ] ∅ year2026 neverExpires).
Proof. split; [done|]. split; [by vm_compute|]. split; reflexivity. Qed.

(** C9, amended. FetchMetadata answers with the cached broker list if and
    only if the cached list is not empty, the set of server IDs is the cached
    set, and the time since the cache was refreshed is at most
    metadataCacheMaxAge; the cache is then left as it is. Otherwise it surveys
    the peers; when the survey fails it returns the failure, and else it
    answers with this broker followed by the brokers of the valid replies
    among the first len(servers)-1 replies that arrived before the deadline,
    and stores that list, the server IDs and the time in the cache. *)
Theorem FetchMetadata_cache (m : metadataAPI) (names servers : list string)
    (net : survey) (now refreshed : Z) :
  let serverIDs : gset string := list_to_set servers in
  let metadata := createMetadataResponse m names in
  (usable m now serverIDs <->
   brokerCache m now serverIDs = Some (cachedBrokers m)) /\
  (usable m now serverIDs ->
   FetchMetadata m names (inr servers) net now refreshed
     = (inr {| Brokers := cachedBrokers m; Metadata := metadata |}, m)) /\
  (~ usable m now serverIDs ->
   FetchMetadata m names (inr servers) net now refreshed
     = match fetchBrokerInfo m net (Go.len servers - 1) with
       | inl st => (inl st, m)
       | inr brokers =>
           (inr {| Brokers := brokers; Metadata := metadata |},
            set_cache brokers serverIDs refreshed m)
       end) /\
  (subscribeFails net = None -> publishFails net = None ->
   fetchBrokerInfo m net (Go.len servers - 1)
     = inr (brokerOf m (ServerID (config m)) (Host (config m)) (Go.int32 (Port (config m)))
            :: omap (fmap (fun r => brokerOf m (siId r) (siHost r) (siPort r)))
                 (take (Z.to_nat (Go.len servers - 1)) (replies net)))).
Proof.
  cbv zeta. destruct (brokerCache_spec m now (list_to_set servers)) as [Hyes Hno].
  split; [|split; [|split]].
  - split; [done|]. intros Hsome.
    destruct (decide (usable m now (list_to_set servers))) as [|Hn]; [done|].
    rewrite (Hno Hn) in Hsome. done.
  - intros Hu. unfold FetchMetadata. by rewrite (Hyes Hu).
  - intros Hn. unfold FetchMetadata. by rewrite (Hno Hn).
  - intros Hs Hp. unfold fetchBrokerInfo. by rewrite Hs, Hp.
Qed.

(** *** The load counters *)

(** Every counter of [counts] lies between 0 and [B]. *)
Definition within (B : Z) (counts : gmap string Z) : Prop :=
  forall broker, 0 <= load counts broker <= B.

Definition bounded (B : Z) (m : metadataAPI) : Prop :=
  within B (brokerPartitionLoad m) /\ within B (brokerLeaderLoad m).

Lemma load_insert (counts : gmap string Z) (b b' : string) (v : Z) :
  load (<[b := v]> counts) b' = if decide (b = b') then v else load counts b'.
Proof.
  unfold load. case_decide as H; [subst; by rewrite lookup_insert_eq|].
  by rewrite lookup_insert_ne.
Qed.

Lemma int64_small (x : Z) : Go.MinInt64 <= x <= Go.MaxInt64 -> Go.int64 x = x.
Proof.
  unfold Go.MinInt64, Go.MaxInt64, Go.int64, Go.wrap. intros H.
  change (2 ^ (64 - 1)) with 9223372036854775808.
  change (2 ^ 64) with 18446744073709551616.
  rewrite Z.mod_small; lia.
Qed.

Lemma within_weaken (B B' : Z) (counts : gmap string Z) :
  B <= B' -> within B counts -> within B' counts.
Proof. intros Hle H b. specialize (H b). lia. Qed.

Lemma within_inc (B : Z) (counts : gmap string Z) (b : string) :
  within B counts -> B + 1 <= Go.MaxInt64 -> within (B + 1) (incLoad b counts).
Proof.
  intros H HB b'. unfold incLoad. rewrite load_insert.
  pose proof (H b) as Hb. pose proof (H b') as Hb'.
  case_decide; [|lia].
  rewrite int64_small; unfold Go.MinInt64, Go.MaxInt64 in *; lia.
Qed.

(** The decrement is guarded: a counter at zero stays as it is. *)
Lemma decLoad_guarded (counts : gmap string Z) (b : string) :
  load counts b <= 0 -> decLoad b counts = counts.
Proof. intros H. unfold decLoad. by rewrite bool_decide_eq_false_2 by lia. Qed.

Lemma within_dec (B : Z) (counts : gmap string Z) (b : string) :
  B <= Go.MaxInt64 -> within B counts -> within B (decLoad b counts).
Proof.
  intros HB H b'. unfold decLoad. case_bool_decide as Hpos; [|apply H].
  rewrite load_insert. pose proof (H b) as Hb. pose proof (H b') as Hb'.
  case_decide; [|lia].
  rewrite int64_small; unfold Go.MinInt64, Go.MaxInt64 in *; lia.
Qed.

Lemma within_incs (brokers : list string) (B : Z) (counts : gmap string Z) :
  within B counts -> B + Go.len brokers <= Go.MaxInt64 ->
  within (B + Go.len brokers) (foldl (fun pl broker => incLoad broker pl) counts brokers).
Proof.
  revert B counts. unfold Go.len.
  induction brokers as [|b brokers IH]; intros B counts H HB; simpl in *.
  - eapply within_weaken; [|done]. lia.
  - replace (B + Z.of_nat (S (length brokers))) with (B + 1 + Z.of_nat (length brokers)) by lia.
    apply IH; [|lia]. apply within_inc; [done|lia].
Qed.

Lemma within_decs (brokers : list string) (B : Z) (counts : gmap string Z) :
  B <= Go.MaxInt64 -> within B counts ->
  within B (foldl (fun pl broker => decLoad broker pl) counts brokers).
Proof.
  intros HB. revert counts.
  induction brokers as [|b brokers IH]; intros counts H; simpl; [done|].
  by apply IH, within_dec.
Qed.

(** The increments that adding the load of [p] makes. *)
Definition weight (p : partition) : Z := Go.len (Replicas p) + 1.

Lemma bounded_addLoad (p : partition) (B : Z) (m : metadataAPI) :
  bounded B m -> B + weight p <= Go.MaxInt64 -> bounded (B + weight p) (addLoad p m).
Proof.
  unfold weight. intros [Hp Hl] HB.
  assert (0 <= Go.len (Replicas p)) by (unfold Go.len; lia).
  split; simpl.
  - eapply within_weaken; [|apply within_incs; [done|lia]]. lia.
  - eapply within_weaken; [|apply within_inc; [done|lia]]. lia.
Qed.

Lemma bounded_dropLoad (p : partition) (B : Z) (m : metadataAPI) :
  B <= Go.MaxInt64 -> bounded B m -> bounded B (dropLoad p m).
Proof. intros HB [Hp Hl]. split; simpl; [by apply within_decs|by apply within_dec]. Qed.

Definition weights (ps : list partition) : Z := foldr (fun p n => weight p + n) 0 ps.

Lemma weights_nonneg (ps : list partition) : 0 <= weights ps.
Proof.
  induction ps as [|p ps IH]; simpl; [lia|]. unfold weight, Go.len. lia.
Qed.

Lemma bounded_addLoads (ps : list partition) (B : Z) (m : metadataAPI) :
  bounded B m -> B + weights ps <= Go.MaxInt64 ->
  bounded (B + weights ps) (foldl (fun m p => addLoad p m) m ps).
Proof.
  revert B m. induction ps as [|p ps IH]; intros B m H HB; simpl in *.
  - by rewrite Z.add_0_r.
  - pose proof (weights_nonneg ps).
    replace (B + (weight p + weights ps)) with (B + weight p + weights ps) by lia.
    apply IH; [|lia]. apply bounded_addLoad; [done|lia].
Qed.

Lemma bounded_dropLoads (ps : list partition) (B : Z) (m : metadataAPI) :
  B <= Go.MaxInt64 -> bounded B m -> bounded B (foldl (fun m p => dropLoad p m) m ps).
Proof.
  intros HB. revert m. induction ps as [|p ps IH]; intros m H; simpl; [done|].
  by apply IH, bounded_dropLoad.
Qed.

(** An operation of the metadata store, with the outcomes it meets.
    RemoveStream is handed the stream that the store holds under the name, as
    the state machine does. *)
Inductive storeOp :=
| OpAddStream (ps : protoStream) (recovered : bool) (closeFails : option error)
    (startFails : partition -> option error)
| OpResumePartition (streamName : string) (id : Z) (recovered : bool)
    (replaceFails startFails : option error)
| OpChangeLeader (streamName leader : string) (id epoch : Z) (fails : option error)
| OpPausePartitions (streamName : string) (ids : list Z) (resumeAll : bool)
    (fails : option error)
| OpRemoveStream (streamName : string) (recovered : bool) (deleteFails : option error).

Definition applyOp (o : storeOp) (m : metadataAPI) : metadataAPI :=
  match o with
  | OpAddStream ps recovered closeFails startFails =>
      (AddStream m ps recovered closeFails startFails).2
  | OpResumePartition streamName id recovered replaceFails startFails =>
      (ResumePartition m streamName id recovered replaceFails startFails).2
  | OpChangeLeader streamName leader id epoch fails =>
      (ChangeLeader m streamName leader id epoch fails).2
  | OpPausePartitions streamName ids resumeAll fails =>
      (PausePartitions m streamName ids resumeAll fails).2
  | OpRemoveStream streamName recovered deleteFails =>
      match GetStream m streamName with
      | Some s => (RemoveStream m s recovered deleteFails).2
      | None => m
      end
  end.

(** A bound on the increments of one operation: the weights of the partitions
    it adds or resumes, and the one increment of a leader change. *)
Definition work (o : storeOp) (m : metadataAPI) : Z :=
  match o with
  | OpAddStream ps recovered closeFails startFails =>
      match (AddStream m ps recovered closeFails startFails).1 with
      | inr s => weights (GetPartitions s)
      | inl _ => 0
      end
  | OpResumePartition streamName id recovered replaceFails startFails =>
      match (ResumePartition m streamName id recovered replaceFails startFails).1.1 with
      | Some p => weight p
      | None => 0
      end
  | OpChangeLeader _ _ _ _ _ => 1
  | _ => 0
  end.

Lemma work_nonneg (o : storeOp) (m : metadataAPI) : 0 <= work o m.
Proof.
  destruct o; simpl; try lia.
  - destruct (AddStream _ _ _ _ _).1; [lia|apply weights_nonneg].
  - destruct (ResumePartition _ _ _ _ _ _).1.1; [|lia]. unfold weight, Go.len. lia.
Qed.

Lemma bounded_same (B : Z) (m m' : metadataAPI) :
  brokerPartitionLoad m' = brokerPartitionLoad m ->
  brokerLeaderLoad m' = brokerLeaderLoad m ->
  bounded B m -> bounded B m'.
Proof. unfold bounded. by intros -> ->. Qed.

Lemma bounded_weaken (B B' : Z) (m : metadataAPI) :
  B <= B' -> bounded B m -> bounded B' m.
Proof. intros Hle [? ?]. split; by eapply within_weaken. Qed.

Lemma applyOp_bounded (o : storeOp) (B : Z) (m : metadataAPI) :
  bounded B m -> B + work o m <= Go.MaxInt64 -> bounded (B + work o m) (applyOp o m).
Proof.
  intros Hb HB.
  destruct o as [ps recovered closeFails startFails
                |streamName id recovered replaceFails startFails
                |streamName leader id epoch fails
                |streamName ids resumeAll fails
                |streamName' recovered deleteFails]; simpl in *.
  - (* AddStream *)
    unfold AddStream in *.
    case_bool_decide; simpl in *; [by rewrite Z.add_0_r|].
    destruct (match streams m !! psName ps with Some _ => _ | None => _ end)
      as [e|m1] eqn:Hm1; simpl in *; [by rewrite Z.add_0_r|].
    assert (bounded B m1) as Hb1.
    { destruct (streams m !! psName ps) as [existing|]; [|by injection Hm1 as <-].
      destruct (negb recovered); [done|]. destruct (negb (Tombstoned existing)); [done|].
      destruct closeFails; [done|]. injection Hm1 as <-. done. }
    destruct (addPartitions _ _ _) as [[e s']|s']; simpl in *.
    + rewrite Z.add_0_r. done.
    + apply bounded_addLoads; [done|lia].
  - (* ResumePartition *)
    unfold ResumePartition in *.
    destruct (streams m !! streamName) as [s|]; simpl in *; [|by rewrite Z.add_0_r].
    destruct (partitions s !! id) as [p|]; simpl in *; [|by rewrite Z.add_0_r].
    destruct (negb (IsPaused p)); simpl in *.
    { eapply bounded_weaken; [|done]. unfold weight, Go.len. lia. }
    destruct replaceFails; simpl in *; [by rewrite Z.add_0_r|].
    apply (bounded_addLoad (setPaused p false) B); [done|done].
  - (* ChangeLeader *)
    unfold ChangeLeader.
    destruct (GetPartition m streamName id) as [p|]; simpl;
      [|eapply bounded_weaken; [|done]; lia].
    case_bool_decide; simpl; [eapply bounded_weaken; [|done]; lia|].
    destruct fails; simpl; [eapply bounded_weaken; [|done]; lia|].
    destruct Hb as [Hp Hl]. split; simpl.
    + eapply within_weaken; [|done]. lia.
    + apply within_inc; [apply within_dec; [lia|done]|lia].
  - (* PausePartitions *)
    rewrite Z.add_0_r in *. unfold PausePartitions.
    destruct (GetStream m streamName) as [s|]; simpl; [|done].
    destruct (streamPause s ids resumeAll fails) as [e|[s' paused]]; simpl; [done|].
    apply bounded_dropLoads; [lia|done].
  - (* RemoveStream *)
    rewrite Z.add_0_r in *. destruct (GetStream m streamName') as [s|]; [|done].
    unfold RemoveStream. destruct recovered; simpl.
    + apply bounded_dropLoads; [lia|done].
    + unfold deleteStream. destruct deleteFails; simpl; [done|].
      apply bounded_dropLoads; [lia|done].
Qed.

Definition runOps (ops : list storeOp) (m : metadataAPI) : metadataAPI :=
  foldl (fun m o => applyOp o m) m ops.

Fixpoint totalWork (ops : list storeOp) (m : metadataAPI) : Z :=
  match ops with
  | [] => 0
  | o :: rest => work o m + totalWork rest (applyOp o m)
  end.

Lemma totalWork_nonneg (ops : list storeOp) (m : metadataAPI) : 0 <= totalWork ops m.
Proof.
  revert m. induction ops as [|o ops IH]; intros m; simpl; [lia|].
  pose proof (work_nonneg o m). specialize (IH (applyOp o m)). lia.
Qed.

Lemma runOps_bounded (ops : list storeOp) (B : Z) (m : metadataAPI) :
  bounded B m -> B + totalWork ops m <= Go.MaxInt64 ->
  bounded (B + totalWork ops m) (runOps ops m).
Proof.
  revert B m. induction ops as [|o ops IH]; intros B m Hb HB; simpl in *.
  - by rewrite Z.add_0_r.
  - pose proof (totalWork_nonneg ops (applyOp o m)).
    rewrite Z.add_assoc. apply IH; [|lia].
    apply applyOp_bounded; [done|lia].
Qed.

(** C10. Starting from counters between 0 and [B], after any sequence of
    AddStream, ResumePartition, ChangeLeader, PausePartitions and RemoveStream
    whose increments do not take a counter past the largest int, every
    partition-load and leader-load counter is non-negative; and a decrement
    leaves a counter that is at zero, and the whole map, as it is. *)
Theorem load_counters_nonnegative (ops : list storeOp) (m : metadataAPI) (B : Z) :
  bounded B m ->
  B + totalWork ops m <= Go.MaxInt64 ->
  (forall broker,
     0 <= load (brokerPartitionLoad (runOps ops m)) broker /\
     0 <= load (brokerLeaderLoad (runOps ops m)) broker) /\
  (forall counts broker, load counts broker <= 0 -> decLoad broker counts = counts).
Proof.
  intros Hb HB. split; [|apply decLoad_guarded].
  destruct (runOps_bounded ops B m Hb HB) as [Hp Hl].
  intros broker. specialize (Hp broker). specialize (Hl broker). lia.
Qed.

(** A stream is created, paused, its leader changed, and then removed: the
    pause has already taken its load off the brokers when the removal
    decrements again. *)
Definition ordersStream : protoStream :=
  {| psName := "orders"; psSubject := "orders.in"; psPartitions := [partition0];
     psCreationTimestamp := 1 |}.

Definition lifecycle : list storeOp :=
  [ OpAddStream ordersStream false None (fun _ => None);
    OpPausePartitions "orders" [] false None;
    OpChangeLeader "orders" "b" 0 5 None;
    OpRemoveStream "orders" false None ].

Lemma load_counters_nonnegative_witness :
  0 <= load (brokerPartitionLoad (runOps lifecycle neverExpires)) "a" /\
  0 <= load (brokerLeaderLoad (runOps lifecycle neverExpires)) "a".
Proof.
  destruct (load_counters_nonnegative lifecycle neverExpires 0) as [Hnonneg _].
  - split; intros broker; unfold load; simpl; rewrite lookup_empty; simpl; lia.
  - by vm_compute.
  - apply Hnonneg.
Defined.

Example lifecycle_loads :
  brokerPartitionLoad (runOps (take 1 lifecycle) neverExpires)
    = {[ "a" := 1; "b" := 1; "c" := 1 ]} /\
  brokerLeaderLoad (runOps (take 1 lifecycle) neverExpires) = {[ "a" := 1 ]} /\
  load (brokerLeaderLoad (runOps (take 2 lifecycle) neverExpires)) "a" = 0 /\
  load (brokerLeaderLoad (runOps (take 3 lifecycle) neverExpires)) "b" = 1 /\
  brokerLeaderLoad (runOps lifecycle neverExpires) = {[ "a" := 0; "b" := 0 ]} /\
  brokerPartitionLoad (runOps lifecycle neverExpires) = {[ "a" := 0; "b" := 0; "c" := 0 ]} /\
  streams (runOps lifecycle neverExpires) = ∅.
Proof. vm_compute. done. Qed.

End server_spec.

(** ** Further properties of the commit log *)
Module commitlog_more.
Import commitlog commitlog_spec.

(** *** Truncate *)

Lemma filter_sorted {A} (R : relation A) (P : A -> Prop) `{forall x, Decision (P x)}
    (l : list A) :
  StronglySorted R l -> StronglySorted R (filter P l).
Proof.
  induction 1 as [|x l Hs IH Hall]; [constructor|].
  rewrite filter_cons. case_decide; [|done].
  constructor; [done|]. rewrite Forall_forall in *.
  intros y Hy. apply list_elem_of_filter in Hy as [_ Hy]. by apply Hall.
Qed.

Lemma sorted_last_max (ms : list message) (m : message) :
  StronglySorted (fun a b => Offset a < Offset b) ms -> last ms = Some m ->
  Forall (fun x => Offset x <= Offset m) ms.
Proof.
  induction 1 as [|x l Hs IH Hall]; intros Hl; [done|].
  destruct l as [|y l'].
  - injection Hl as <-. constructor; [lia|done].
  - rewrite last_cons_cons in Hl. constructor; [|by apply IH].
    apply last_Some_elem_of in Hl. rewrite Forall_forall in Hall.
    specialize (Hall _ Hl). lia.
Qed.

Lemma sorted_take {A} (R : relation A) (n : nat) (l : list A) :
  Sorted R l -> Sorted R (take n l).
Proof.
  intros Hs. revert n. induction Hs as [|x l Hs IH Hhd]; intros [|n]; simpl; try constructor.
  - apply IH.
  - destruct Hhd as [|y l' Hxy]; destruct n; simpl; by constructor.
Qed.

Lemma sorted_snoc_last {A} (R : relation A) (l : list A) (x : A) :
  Sorted R l -> (forall y, last l = Some y -> R y x) -> Sorted R (l ++ [x]).
Proof.
  intros Hs Hlast. apply Sorted_snoc; [done|].
  destruct l as [|a l'] using rev_ind; [constructor|].
  constructor. apply Hlast. by rewrite last_snoc.
Qed.

(** The segment that the copy loop of Truncate leaves. *)
Lemma rewritten_segment (O : Z) (seg : segment) :
  wfSegment seg -> BaseOffset seg <= O ->
  exists seg',
    copyBelow ioOK O (Scan seg) (emptySegment (BaseOffset seg)) = inr seg' /\
    BaseOffset seg' = BaseOffset seg /\
    log seg' = filter (fun m => Offset m < O) (log seg) /\
    NextOffset seg' <= O /\
    NextOffset seg' <= NextOffset seg /\
    wfSegment seg'.
Proof.
  intros Hseg Hbase.
  destruct (copyBelow_ok O (log seg) 0 (emptySegment (BaseOffset seg)))
    as (seg' & Hcopy & Hb & _ & Hlog & Hnx); [done|by destruct Hseg|].
  simpl in Hb, Hlog, Hnx.
  exists seg'. split; [done|]. split; [done|]. split; [done|].
  pose proof Hseg as [[Hb0 Hbn] Hmax Hrange Hincr].
  assert (BaseOffset seg <= NextOffset seg' <= O /\
          NextOffset seg' <= NextOffset seg /\
          Forall (fun m => Offset m < NextOffset seg')
            (filter (fun m => Offset m < O) (log seg))) as (Hn1 & Hn2 & Hn3).
  { rewrite Hnx. destruct (last (filter _ (log seg))) as [m|] eqn:Hl.
    - destruct (last_filter_bound _ _ _ Hseg Hl) as [[? ?] ?].
      rewrite int64_id by (unfold Go.inInt64, Go.MinInt64, Go.MaxInt64 in *; lia).
      split; [lia|]. split; [lia|].
      eapply Forall_impl;
        [apply (sorted_last_max _ m); [by apply filter_sorted|done]|].
      simpl. intros; lia.
    - apply last_None in Hl. rewrite Hl. split; [lia|]. split; [lia|done]. }
  split; [lia|]. split; [done|].
  split; rewrite ?Hb, ?Hlog.
  - lia.
  - lia.
  - rewrite Forall_forall in *. intros m Hm. specialize (Hn3 m Hm).
    apply list_elem_of_filter in Hm as [_ Hm]. specialize (Hrange m Hm). lia.
  - by apply filter_sorted.
Qed.

(** What Truncate returns when it finds a segment and no file operation
    fails. *)
Lemma Truncate_result (l : commitLog) (O : Z) (idx : nat) (seg : segment) :
  wf l -> findSegment (segments l) O = Some (idx, seg) ->
  exists segs',
    Truncate ioOK l O
      = (None, set_epochCache (filter (fun e => startOffset e <= O) (epochCache l))
                 (set_segments segs' l)) /\
    segs' <> [] /\
    Forall wfSegment segs' /\ Sorted follows segs' /\
    Forall (fun s => NextOffset s <= O) segs'.
Proof.
  intros Hwf Hfind. pose proof Hwf as [Hall Hchain].
  unfold Truncate. rewrite Hfind.
  apply list_find_Some in Hfind as (Hidx & [Hbase Hnext] & _).
  rewrite deleteAll_ok.
  assert (wfSegment seg) as Hseg.
  { rewrite Forall_forall in Hall. apply Hall. by eapply list_elem_of_lookup_2. }
  assert (Forall wfSegment (take idx (segments l))) as Hpre_wf.
  { rewrite Forall_forall in *. intros s Hs. apply Hall.
    apply elem_of_take in Hs as (i & Hi & _). by eapply list_elem_of_lookup_2. }
  assert (forall s, s ∈ take idx (segments l) -> NextOffset s <= BaseOffset seg) as Hpre_next.
  { intros s Hs. apply elem_of_take in Hs as (i & Hi & Hlt).
    by eapply (chain_before (segments l) i idx). }
  assert (Forall (fun s => NextOffset s <= O) (take idx (segments l))) as Hpre_below.
  { rewrite Forall_forall. intros s Hs. specialize (Hpre_next s Hs). lia. }
  pose proof (sorted_take follows idx _ Hchain) as Hpre_sorted.
  destruct (rewritten_segment O seg Hseg Hbase)
    as (seg' & Hcopy & Hb & Hlog & HnO & Hnn & Hwf').
  assert (Sorted follows (take idx (segments l) ++ [seg'])) as Hsorted'.
  { apply sorted_snoc_last; [done|]. intros y Hy. unfold follows. rewrite Hb.
    apply Hpre_next. by apply last_Some_elem_of. }
  case_bool_decide as HO; [case_bool_decide as H0|]; simpl.
  - rewrite Hcopy. simpl. eexists. split; [done|].
    split; [by destruct (take idx (segments l))|].
    split; [by apply Forall_app; split; [|constructor]|]. split; [done|].
    apply Forall_app. split; [done|by constructor].
  - eexists. split; [done|]. split; [|done].
    intros Hnil. apply (f_equal length) in Hnil. rewrite length_take in Hnil.
    apply lookup_lt_Some in Hidx. simpl in Hnil. lia.
  - rewrite Hcopy. simpl. eexists. split; [done|].
    split; [by destruct (take idx (segments l))|].
    split; [by apply Forall_app; split; [|constructor]|]. split; [done|].
    apply Forall_app. split; [done|by constructor].
Qed.




(** X2. Truncate keeps a well-formed log well-formed: in every segment it
    leaves the offsets increase and lie between the base offset and the next
    offset, and the segments are in order. *)
Theorem Truncate_keeps_wf (l : commitLog) (O : Z) :
  wf l -> wf (Truncate ioOK l O).2.
Proof.
  intros Hwf.
  destruct (findSegment (segments l) O) as [[idx seg]|] eqn:Hfind.
  - destruct (Truncate_result l O idx seg Hwf Hfind) as (segs' & -> & _ & Hall & Hs & _).
    by split.
  - unfold Truncate. by rewrite Hfind.
Qed.

Lemma exampleLog_wf : wf exampleLog.
Proof.
  split; [|repeat constructor; unfold follows; simpl; lia].
  repeat (apply Forall_cons_2 || apply Forall_nil_2);
    (split; simpl; [lia|unfold Go.MaxInt64; lia| |]);
    repeat constructor; simpl; lia.
Qed.

Lemma Truncate_keeps_wf_witness : wf (Truncate ioOK exampleLog 4).2.
Proof. apply (Truncate_keeps_wf exampleLog 4). exact exampleLog_wf. Defined.

(** X3. Truncating a second time at the same offset changes nothing: after
    Truncate(O) no segment contains O any more. *)
Theorem Truncate_twice (l : commitLog) (O : Z) :
  wf l ->
  Truncate ioOK (Truncate ioOK l O).2 O = (None, (Truncate ioOK l O).2).
Proof.
  intros Hwf.
  destruct (findSegment (segments l) O) as [[idx seg]|] eqn:Hfind.
  - destruct (Truncate_result l O idx seg Hwf Hfind) as (segs' & -> & _ & _ & _ & Hbelow).
    simpl. unfold Truncate at 1. simpl.
    assert (findSegment segs' O = None) as ->; [|done].
    apply list_find_None. eapply Forall_impl; [exact Hbelow|].
    simpl. intros s Hs [_ Hlt]. lia.
  - unfold Truncate at 2. rewrite Hfind. simpl. unfold Truncate. by rewrite Hfind.
Qed.

Lemma Truncate_twice_witness :
  Truncate ioOK (Truncate ioOK exampleLog 4).2 4 = (None, (Truncate ioOK exampleLog 4).2).
Proof. apply (Truncate_twice exampleLog 4). exact exampleLog_wf. Defined.

(** *** Rolling the active segment *)

Lemma Seal_wf (s : segment) : wfSegment s -> wfSegment (Seal s).
Proof. intros [? ? ? ?]. by split. Qed.

Lemma sealed_chain (i : nat) (segs : list segment) :
  Sorted follows segs -> Sorted follows (alter Seal i segs).
Proof.
  intros Hs. revert i. induction Hs as [|s segs Hs IH Hhd]; intros i; [done|].
  destruct i as [|i]; simpl.
  - constructor; [done|]. by destruct Hhd; constructor.
  - constructor; [apply IH|].
    destruct Hhd as [|t segs' Hst]; [constructor|].
    destruct i; simpl; by constructor.
Qed.

Lemma sealed_logs (i : nat) (segs : list segment) :
  log <$> alter Seal i segs = log <$> segs.
Proof.
  revert i. induction segs as [|s segs IH]; intros [|i]; try done.
  change (log s :: (log <$> alter Seal i segs) = log s :: (log <$> segs)).
  by rewrite IH.
Qed.

Lemma active_lookup (l : commitLog) :
  segments l <> [] -> last (segments l) = Some (activeSegment l).
Proof.
  intros Hne. unfold activeSegment. destruct (last (segments l)) eqn:Hl; [done|].
  by apply last_None in Hl.
Qed.

Lemma active_wf (l : commitLog) :
  wf l -> segments l <> [] -> wfSegment (activeSegment l).
Proof.
  intros [Hall _] Hne. rewrite Forall_forall in Hall. apply Hall.
  by apply last_Some_elem_of, active_lookup.
Qed.

Lemma next_after_newest (l : commitLog) :
  wf l -> segments l <> [] ->
  Go.int64 (NewestOffset l + 1) = NextOffset (activeSegment l).
Proof.
  intros Hwf Hne. destruct (active_wf l Hwf Hne) as [[? ?] ? _ _].
  unfold NewestOffset.
  rewrite (int64_id (_ - 1)) by (unfold Go.inInt64, Go.MinInt64, Go.MaxInt64 in *; lia).
  rewrite int64_id by (unfold Go.inInt64, Go.MinInt64, Go.MaxInt64 in *; lia). lia.
Qed.

(** X4. checkAndPerformSplit on a well-formed log. When the roll policy says
    no, it returns (false, nil) and the log is untouched. When it says yes and
    the new segment can be created, it returns (true, nil): the active segment
    is sealed and an empty segment whose base offset is the old next offset
    is the new active segment; the records, the newest offset and the
    well-formedness of the log are kept. When creating the segment fails
    with another error than ErrSegmentExists, that error is returned with
    (false) and the log is untouched. *)
Theorem roll_keeps_log (E : env) (fuel : nat) (l : commitLog) :
  wf l -> segments l <> [] ->
  let active := activeSegment l in
  (CheckSplit E (MaxSegmentAge (options l)) active = false ->
   checkAndPerformSplit E (S fuel) l = Some (false, None, l)) /\
  (CheckSplit E (MaxSegmentAge (options l)) active = true ->
   io E (IoCreate (NextOffset active)) = None ->
   exists l',
     checkAndPerformSplit E (S fuel) l = Some (true, None, l') /\
     segments l' = alter Seal (pred (length (segments l))) (segments l)
                   ++ [emptySegment (NextOffset active)] /\
     activeSegment l' = emptySegment (NextOffset active) /\
     NewestOffset l' = NewestOffset l /\
     concat (log <$> segments l') = concat (log <$> segments l) /\
     wf l') /\
  (CheckSplit E (MaxSegmentAge (options l)) active = true ->
   forall e, io E (IoCreate (NextOffset active)) = Some e -> e <> ErrSegmentExists ->
   checkAndPerformSplit E (S fuel) l = Some (false, Some e, l)).
Proof.
  intros Hwf Hne active. pose proof (next_after_newest l Hwf Hne) as Hnext.
  fold active in Hnext. simpl. fold active.
  split; [|split].
  - intros ->. done.
  - intros -> Hio. simpl. unfold split, newSegment. rewrite Hnext, Hio. simpl.
    rewrite alter_app_l by (destruct (segments l); simpl; [done|lia]).
    eexists. split; [done|]. simpl. split; [done|].
    unfold activeSegment, NewestOffset, activeSegment. simpl. rewrite !last_snoc. simpl.
    split; [done|]. split; [by rewrite (active_lookup l Hne)|]. split.
    + rewrite fmap_app, concat_app, sealed_logs. simpl. by rewrite app_nil_r.
    + destruct Hwf as [Hall Hchain]. split; simpl.
      * apply Forall_app. split.
        -- rewrite Forall_forall in *. intros s Hs.
           apply list_elem_of_lookup in Hs as [i Hi].
           rewrite list_lookup_alter in Hi. case_decide.
           ++ destruct (segments l !! pred (length (segments l))) as [s0|] eqn:Hs0;
                simpl in Hi; [|done]. injection Hi as <-.
              apply Seal_wf, Hall. by eapply list_elem_of_lookup_2.
           ++ apply Hall. by eapply list_elem_of_lookup_2.
        -- constructor; [|done].
           destruct (active_wf l (Build_wf _ Hall Hchain) Hne) as [[? ?] ? _ _].
           subst active. by split; simpl; [lia| |constructor|constructor].
      * apply sorted_snoc_last; [by apply sealed_chain|].
        intros y Hy. rewrite last_lookup, length_alter, list_lookup_alter_eq in Hy.
        rewrite <- last_lookup, (active_lookup l Hne) in Hy. injection Hy as <-.
        subst active. unfold follows, NextOffset. simpl. lia.
  - intros -> e Hio Hother. simpl. unfold split, newSegment. rewrite Hnext, Hio. simpl.
    by rewrite bool_decide_eq_false_2.
Qed.

(** A roll policy that always rolls, over a file system that never fails. *)
Definition rollingEnv : env :=
  {| io := ioOK;
     CheckSplit := fun _ _ => true;
     newMessageSetFromProto := fun _ _ _ _ => inl ErrIncorrectOffset |}.

Lemma roll_keeps_log_witness :
  exists l',
    checkAndPerformSplit rollingEnv 1 exampleLog = Some (true, None, l') /\
    activeSegment l' = emptySegment 5 /\ NewestOffset l' = 4.
Proof.
  destruct (roll_keeps_log rollingEnv 0 exampleLog) as (_ & Hroll & _);
    [exact exampleLog_wf|discriminate|].
  destruct Hroll as (l' & Hsplit & _ & Hactive & Hnewest & _); [reflexivity|reflexivity|].
  exists l'. split; [exact Hsplit|]. split; [exact Hactive|exact Hnewest].
Defined.

(** *** Appending a message set *)

(** The records of the log, oldest first. *)
Definition records (l : commitLog) : list message := concat (log <$> segments l).

(** The log after a roll of its active segment. *)
Definition rolled (l : commitLog) : commitLog :=
  set_segments (alter Seal (pred (length (segments l))) (segments l)
                ++ [emptySegment (NextOffset (activeSegment l))]) l.

Lemma int64_succ_pred (x : Z) : Go.inInt64 x -> Go.int64 (Go.int64 (x + 1) - 1) = x.
Proof.
  unfold Go.inInt64, Go.MinInt64, Go.MaxInt64, Go.int64, Go.wrap. intros H.
  change (2 ^ (64 - 1)) with 9223372036854775808.
  change (2 ^ 64) with 18446744073709551616.
  replace ((x + 1 + 9223372036854775808) mod 18446744073709551616 - 9223372036854775808 - 1
           + 9223372036854775808)
    with ((x + 1 + 9223372036854775808) mod 18446744073709551616 - 1) by lia.
  rewrite Zminus_mod_idemp_l.
  replace (x + 1 + 9223372036854775808 - 1) with (x + 9223372036854775808) by lia.
  rewrite Z.mod_small; lia.
Qed.

(** In the sequential model a retry of the roll loop meets the log it met
    before: what the loop returns, it returns from its first iteration. *)
Lemma split_first (E : env) (fuel : nat) (l : commitLog) r :
  checkAndPerformSplit E fuel l = Some r -> checkAndPerformSplit E 1 l = Some r.
Proof.
  induction fuel as [|fuel IH]; [done|]. intros Hr.
  destruct (checkAndPerformSplit E 1 l) as [r1|] eqn:H1; revert Hr H1; simpl;
    (destruct (CheckSplit E _ _); simpl; [|congruence]);
    unfold split; (destruct (newSegment _ _) as [err|seg]; simpl; [|congruence]);
    (case_bool_decide; [|congruence]); intros Hr _; by apply IH.
Qed.

Lemma split_cases (E : env) (fuel : nat) (l : commitLog) b e l1 :
  wf l -> segments l <> [] ->
  checkAndPerformSplit E fuel l = Some (b, e, l1) ->
  l1 = l \/ (b = true /\ e = None /\ l1 = rolled l).
Proof.
  intros Hwf Hne H. apply split_first in H. simpl in H.
  destruct (CheckSplit E _ _); simpl in H; [|left; congruence].
  unfold split, newSegment in H. rewrite (next_after_newest l Hwf Hne) in H.
  destruct (io E _) as [err|]; simpl in H.
  - case_bool_decide; [done|left; congruence].
  - right. injection H as <- <- <-. split; [done|]. split; [done|].
    unfold rolled. simpl.
    rewrite alter_app_l by (destruct (segments l); simpl; [done|lia]). done.
Qed.

Lemma rolled_ok (l : commitLog) :
  wf l -> segments l <> [] ->
  wf (rolled l) /\ segments (rolled l) <> [] /\ records (rolled l) = records l /\
  activeSegment (rolled l) = emptySegment (NextOffset (activeSegment l)).
Proof.
  intros Hwf Hne. split; [|split; [|split]].
  - destruct Hwf as [Hall Hchain]. split; simpl.
    + apply Forall_app. split.
      * rewrite Forall_forall in *. intros s Hs.
        apply list_elem_of_lookup in Hs as [i Hi].
        rewrite list_lookup_alter in Hi. case_decide.
        -- destruct (segments l !! pred (length (segments l))) as [s0|] eqn:Hs0;
             simpl in Hi; [|done]. injection Hi as <-.
           apply Seal_wf, Hall. by eapply list_elem_of_lookup_2.
        -- apply Hall. by eapply list_elem_of_lookup_2.
      * constructor; [|done].
        destruct (active_wf l (Build_wf _ Hall Hchain) Hne) as [[? ?] ? _ _].
        by split; simpl; [lia| |constructor|constructor].
    + apply sorted_snoc_last; [by apply sealed_chain|].
      intros y Hy. rewrite last_lookup, length_alter, list_lookup_alter_eq in Hy.
      rewrite <- last_lookup, (active_lookup l Hne) in Hy. injection Hy as <-.
      unfold follows, NextOffset. simpl. lia.
  - simpl. by destruct (alter _ _ _).
  - unfold records. simpl. rewrite fmap_app, concat_app, sealed_logs. simpl.
    by rewrite app_nil_r.
  - unfold activeSegment at 1. simpl. by rewrite last_snoc.
Qed.

(** Writing through the active-segment pointer. *)
Lemma records_active (segs : list segment) (a a' : segment) (ms : list message) :
  last segs = Some a -> log a' = log a ++ ms ->
  concat (log <$> <[pred (length segs) := a']> segs) = concat (log <$> segs) ++ ms.
Proof.
  intros Hlast Hlog. destruct segs as [|s segs] using rev_ind; [done|]. clear IHsegs.
  rewrite last_snoc in Hlast. injection Hlast as ->.
  rewrite length_app. simpl. replace (pred (length segs + 1)) with (length segs + 0)%nat by lia.
  rewrite insert_app_r. simpl. rewrite !fmap_app, !concat_app. simpl.
  by rewrite Hlog, !app_nil_r, app_assoc.
Qed.

Lemma active_written (segs : list segment) (a' : segment) :
  segs <> [] -> last (<[pred (length segs) := a']> segs) = Some a'.
Proof.
  intros Hne. rewrite last_lookup, length_insert, list_lookup_insert_eq; [done|].
  destruct segs; simpl; [done|lia].
Qed.

Lemma last_entry (pos : Z) (ms : messageSet) :
  eOffset <$> last (entriesForMessageSet pos ms) = Offset <$> last ms.
Proof.
  rewrite <- !fmap_last. f_equal. apply entriesForMessageSet_offsets.
Qed.

Lemma append_cases (E : env) (l : commitLog) (ms : messageSet) :
  segments l <> [] ->
  let seg := activeSegment l in
  let entries := entriesForMessageSet (Position seg) ms in
  (exists e, append E l seg ms entries = (inl e, l)) \/
  (exists seg' r c,
     append E l seg ms entries =
       (r, set_epochCache c (set_segments (<[pred (length (segments l)) := seg']> (segments l)) l)) /\
     (forall offs, r = inr offs -> offs = Offset <$> ms) /\
     BaseOffset seg' = BaseOffset seg /\ log seg' = log seg ++ ms /\
     nextOffset seg' = match last ms with
                       | Some m => Go.int64 (Offset m + 1)
                       | None => nextOffset seg
                       end).
Proof.
  intros Hne seg entries. unfold append, WriteMessageSet.
  destruct (sealed seg); [left; by eexists|].
  destruct (io E _) as [e|]; [left; by eexists|]. right.
  set (seg' := {| BaseOffset := _ |}). simpl.
  exists seg'.
  destruct (assignEpochs _ _ _ _) as [[err|] c]; eexists _, c; (split; [done|]).
  - split; [done|]. split; [done|]. split; [done|]. simpl.
    pose proof (last_entry (Position seg) ms) as Hl. fold entries in Hl.
    destruct (last entries), (last ms); simpl in Hl; try done. by injection Hl as ->.
  - split; [intros offs [= <-]; apply entriesForMessageSet_offsets|].
    split; [done|]. split; [done|]. simpl.
    pose proof (last_entry (Position seg) ms) as Hl. fold entries in Hl.
    destruct (last entries), (last ms); simpl in Hl; try done. by injection Hl as ->.
Qed.

(** A message set continues the log when its offsets increase and start at
    the next offset of the log or later. *)
Definition continues (l : commitLog) (ms : messageSet) : Prop :=
  StronglySorted (fun a b => Offset a < Offset b) ms /\
  Forall (fun m => NextOffset (activeSegment l) <= Offset m < Go.MaxInt64) ms.

Lemma written_wf (seg seg' : segment) (ms : messageSet) :
  wfSegment seg ->
  StronglySorted (fun a b => Offset a < Offset b) ms ->
  Forall (fun m => NextOffset seg <= Offset m < Go.MaxInt64) ms ->
  BaseOffset seg' = BaseOffset seg -> log seg' = log seg ++ ms ->
  nextOffset seg' = match last ms with
                    | Some m => Go.int64 (Offset m + 1)
                    | None => nextOffset seg
                    end ->
  wfSegment seg'.
Proof.
  intros [[Hb0 Hb1] Hn Hrange Hincr] Hsorted Hnew Hbase Hlog Hnext.
  unfold NextOffset in *.
  destruct (last ms) as [m|] eqn:Hlast.
  - pose proof (sorted_last_max ms m Hsorted Hlast) as Hmax.
    assert (NextOffset seg <= Offset m < Go.MaxInt64) as Hm.
    { rewrite Forall_forall in Hnew. by apply Hnew, last_Some_elem_of. }
    unfold NextOffset in Hm.
    rewrite int64_id in Hnext
      by (unfold Go.inInt64, Go.MinInt64, Go.MaxInt64 in *; lia).
    split; unfold NextOffset; rewrite ?Hbase, ?Hlog, ?Hnext.
    + lia.
    + unfold Go.MaxInt64 in *. lia.
    + apply Forall_app. split.
      * eapply Forall_impl; [exact Hrange|]. simpl. lia.
      * rewrite Forall_forall in *. intros x Hx.
        specialize (Hnew x Hx). specialize (Hmax x Hx). simpl in *. lia.
    + apply StronglySorted_app_2; [|done|done].
      intros a b Ha Hb. rewrite Forall_forall in Hrange, Hnew.
      specialize (Hrange a Ha). specialize (Hnew b Hb). simpl in *. lia.
  - apply last_None in Hlast. subst ms. rewrite app_nil_r in Hlog.
    split; unfold NextOffset; rewrite ?Hbase, ?Hlog, ?Hnext; done.
Qed.

Lemma chain_replace_last (segs : list segment) (a a' : segment) :
  Sorted follows segs -> last segs = Some a -> BaseOffset a' = BaseOffset a ->
  Sorted follows (<[pred (length segs) := a']> segs).
Proof.
  intros Hs. induction Hs as [|s segs Hs IH Hhd]; intros Hlast Hbase; [done|].
  destruct segs as [|t segs'].
  - simpl. by repeat constructor.
  - rewrite last_cons_cons in Hlast.
    change (Sorted follows (s :: <[pred (length (t :: segs')) := a']> (t :: segs'))).
    constructor; [by apply IH|].
    apply HdRel_inv in Hhd. destruct segs' as [|u segs'']; simpl.
    + injection Hlast as <-. constructor. unfold follows in *. by rewrite Hbase.
    + by constructor.
Qed.

Lemma forall_replace_last (P : segment -> Prop) (segs : list segment) (a' : segment) :
  Forall P segs -> P a' -> Forall P (<[pred (length segs) := a']> segs).
Proof.
  intros Hall Ha. rewrite Forall_forall in *. intros s Hs.
  apply list_elem_of_lookup in Hs as [i Hi].
  apply list_lookup_insert_Some in Hi as [(_ & <- & _)|[_ Hi]]; [done|].
  by eapply Hall, list_elem_of_lookup_2.
Qed.

(** What a call of append on the active segment leaves, whether it returns
    offsets or an error. *)
Lemma append_result (E : env) (l : commitLog) (ms : messageSet) r l' :
  wf l -> segments l <> [] ->
  append E l (activeSegment l) ms (entriesForMessageSet (Position (activeSegment l)) ms)
    = (r, l') ->
  (l' = l /\ exists e, r = inl e) \/
  ((forall offs, r = inr offs -> offs = Offset <$> ms) /\
   records l' = records l ++ ms /\ hw l' = hw l /\ readonly l' = readonly l /\
   segments l' <> [] /\
   (forall m, last ms = Some m -> Go.inInt64 (Offset m) -> NewestOffset l' = Offset m) /\
   (ms = [] -> NewestOffset l' = NewestOffset l) /\
   (continues l ms -> wf l')).
Proof.
  intros Hwf Hne Happ.
  destruct (append_cases E l ms Hne) as [[e He]|(seg' & r0 & c & He & Hoffs & Hbase & Hlog & Hnext)];
    simpl in He; rewrite He in Happ.
  - left. injection Happ as <- <-. split; [done|by eexists].
  - right. injection Happ as <- <-.
    pose proof (active_lookup l Hne) as Hlast.
    split; [done|]. split; [by apply records_active with (a := activeSegment l)|].
    split; [done|]. split; [done|].
    split.
    { simpl. intros Heq. apply (f_equal length) in Heq.
      rewrite length_insert in Heq. by destruct (segments l). }
    assert (activeSegment (set_epochCache c
              (set_segments (<[pred (length (segments l)) := seg']> (segments l)) l)) = seg')
      as Hact.
    { unfold activeSegment at 1. simpl. by rewrite active_written. }
    split; [|split].
    + intros m Hm Hin. unfold NewestOffset. rewrite Hact. unfold NextOffset.
      rewrite Hnext, Hm. by apply int64_succ_pred.
    + intros ->. unfold NewestOffset. rewrite Hact. unfold NextOffset.
      by rewrite Hnext.
    + intros [Hsorted Hnew]. destruct Hwf as [Hall Hchain].
      split; simpl.
      * apply forall_replace_last; [done|].
        eapply (written_wf (activeSegment l)); try done.
        rewrite Forall_forall in Hall. by apply Hall, last_Some_elem_of.
      * by eapply chain_replace_last.
Qed.

Lemma continues_rolled (l : commitLog) (ms : messageSet) :
  wf l -> segments l <> [] -> continues l ms -> continues (rolled l) ms.
Proof.
  intros Hwf Hne [? ?]. split; [done|].
  destruct (rolled_ok l Hwf Hne) as (_ & _ & _ & ->). done.
Qed.

(** X5. When AppendMessageSet returns offsets, they are the offsets of the
    records of the set, in order; the records of the log are the ones it had
    followed by the set, whether or not the active segment was rolled; the HW
    and the readonly flag are as before; and the newest offset is the offset
    of the last record of the set (the one of before for an empty set). *)
Theorem AppendMessageSet_extends (E : env) (fuel : nat) (l l' : commitLog)
    (ms : messageSet) (offs : list Z) :
  wf l -> segments l <> [] ->
  AppendMessageSet E fuel l ms = Some (inr offs, l') ->
  offs = Offset <$> ms /\
  records l' = records l ++ ms /\
  hw l' = hw l /\ readonly l' = readonly l /\
  (forall m, last ms = Some m -> Go.inInt64 (Offset m) -> NewestOffset l' = Offset m) /\
  (ms = [] -> NewestOffset l' = NewestOffset l).
Proof.
  intros Hwf Hne. unfold AppendMessageSet.
  destruct (checkAndPerformSplit E fuel l) as [[[b [err|]] l1]|] eqn:Hsplit; try done.
  intros Happ.
  destruct (append (E) l1 _ _ _) as [r l2] eqn:Ha. injection Happ as -> ->.
  destruct (split_cases E fuel l b None l1 Hwf Hne Hsplit) as [->|(_ & _ & ->)].
  - destruct (append_result E l ms _ _ Hwf Hne Ha)
      as [[_ [e ?]]|(Ho & Hr & Hh & Hro & _ & Hn & Hn0 & _)]; [done|].
    split; [by apply Ho|]. done.
  - destruct (rolled_ok l Hwf Hne) as (Hwf' & Hne' & Hrec & Hact).
    destruct (append_result E (rolled l) ms _ _ Hwf' Hne' Ha)
      as [[_ [e ?]]|(Ho & Hr & Hh & Hro & _ & Hn & Hn0 & _)]; [done|].
    split; [by apply Ho|]. split; [by rewrite Hr, Hrec|]. split; [done|].
    split; [done|]. split; [done|].
    intros Hms. rewrite (Hn0 Hms). unfold NewestOffset. by rewrite Hact.
Qed.

(** Two records that continue [exampleLog]. *)
Definition appended : commitLog :=
  match AppendMessageSet quietEnv 1 exampleLog [msg 5; msg 6] with
  | Some (_, l') => l'
  | None => exampleLog
  end.

Lemma AppendMessageSet_extends_witness :
  NewestOffset appended = 6 /\ records appended = records exampleLog ++ [msg 5; msg 6].
Proof.
  destruct (AppendMessageSet_extends quietEnv 1 exampleLog appended [msg 5; msg 6] [5; 6])
    as (_ & Hrec & _ & _ & Hnew & _);
    [exact exampleLog_wf|discriminate|reflexivity|].
  split; [|exact Hrec].
  apply (Hnew (msg 6)); [reflexivity|].
  unfold Go.inInt64, Go.MinInt64, Go.MaxInt64. simpl. lia.
Defined.

(** X6. AppendMessageSet keeps a log well formed when the set continues it
    (offsets increasing, none below the next offset of the log): every
    segment still holds increasing offsets inside its range and the segments
    are still in order, whether the call rolled the active segment or not and
    whether it returned offsets or an error. The log never loses its last
    segment. *)
Theorem AppendMessageSet_keeps_wf (E : env) (fuel : nat) (l l' : commitLog)
    (ms : messageSet) r :
  wf l -> segments l <> [] -> continues l ms ->
  AppendMessageSet E fuel l ms = Some (r, l') ->
  wf l' /\ segments l' <> [].
Proof.
  intros Hwf Hne Hcont. unfold AppendMessageSet.
  destruct (checkAndPerformSplit E fuel l) as [[[b e] l1]|] eqn:Hsplit; [|done].
  assert (wf l1 /\ segments l1 <> [] /\ continues l1 ms) as (Hwf1 & Hne1 & Hcont1).
  { destruct (split_cases E fuel l b e l1 Hwf Hne Hsplit) as [->|(_ & _ & ->)]; [done|].
    destruct (rolled_ok l Hwf Hne) as (? & ? & _ & _).
    split; [done|]. split; [done|]. by apply continues_rolled. }
  destruct e as [err|]; [by intros [= <- <-]|].
  intros Happ.
  destruct (append (E) l1 _ _ _) as [r2 l2] eqn:Ha. injection Happ as -> ->.
  destruct (append_result E l1 ms _ _ Hwf1 Hne1 Ha)
    as [[-> _]|(_ & _ & _ & _ & Hne2 & _ & _ & Hwf2)]; [done|].
  split; [by apply Hwf2|done].
Qed.

Lemma AppendMessageSet_keeps_wf_witness : wf appended /\ segments appended <> [].
Proof.
  apply (AppendMessageSet_keeps_wf quietEnv 1 exampleLog appended [msg 5; msg 6] (inr [5; 6]));
    [exact exampleLog_wf|discriminate| |reflexivity].
  split.
  - repeat constructor; simpl; lia.
  - unfold Go.MaxInt64. repeat constructor; simpl; lia.
Defined.

(** *** Leader epochs *)

(** The cache lists the epochs in increasing order. *)
Definition cacheOrdered (c : leaderEpochCache) : Prop :=
  StronglySorted (fun a b => leaderEpoch a < leaderEpoch b) c.

Lemma ordered_last (c : leaderEpochCache) (e : epochOffset) :
  cacheOrdered c -> e ∈ c -> leaderEpoch e <= cacheLastLeaderEpoch c.
Proof.
  unfold cacheLastLeaderEpoch.
  induction 1 as [|x c Hs IH Hall]; intros He; [by apply elem_of_nil in He|].
  destruct c as [|y c'].
  - apply list_elem_of_singleton in He as ->. simpl. lia.
  - rewrite last_cons_cons.
    apply elem_of_cons in He as [->|He]; [|by apply IH].
    destruct (last (y :: c')) as [z|] eqn:Hz; [|by apply last_None in Hz]. simpl.
    apply last_Some_elem_of in Hz. rewrite Forall_forall in Hall.
    specialize (Hall z Hz). lia.
Qed.

Lemma ordered_assign (io : ioOutcome) (c c' : leaderEpochCache) (epoch offset : Z) :
  cacheOrdered c -> cacheAssign io c epoch offset = inr c' ->
  cacheOrdered c' /\ cacheLastLeaderEpoch c' = epoch /\
  cacheLastLeaderEpoch c < epoch /\
  c' = c ++ [{| leaderEpoch := epoch; startOffset := offset |}].
Proof.
  intros Hord. unfold cacheAssign. case_bool_decide as Hlt; [|done].
  destruct (io _); [done|]. intros [= <-].
  split; [|split; [|done]].
  - apply StronglySorted_app_2; [|done|by repeat constructor].
    intros a b Ha Hb. apply list_elem_of_singleton in Hb as ->. simpl.
    pose proof (ordered_last c a Hord Ha). lia.
  - unfold cacheLastLeaderEpoch. by rewrite last_snoc.
Qed.

Lemma ordered_assignEpochs (io : ioOutcome) (es : list entry) (c c' : leaderEpochCache) r :
  cacheOrdered c -> assignEpochs io c (cacheLastLeaderEpoch c) es = (r, c') ->
  cacheOrdered c'.
Proof.
  revert c. induction es as [|e es IH]; intros c Hord; simpl; [by intros [= _ <-]|].
  case_bool_decide as Hlt; [|by apply IH].
  destruct (cacheAssign io c (eLeaderEpoch e) (eOffset e)) as [err|c1] eqn:Ha;
    [by intros [= _ <-]|].
  destruct (ordered_assign io c c1 _ _ Hord Ha) as (Hord1 & Hlast & _).
  rewrite <- Hlast. by apply IH.
Qed.

Lemma ordered_append (E : env) (l : commitLog) seg ms entries :
  cacheOrdered (epochCache l) ->
  cacheOrdered (epochCache (append E l seg ms entries).2).
Proof.
  intros Hord. unfold append. destruct (WriteMessageSet _ _ _ _); simpl; [done|].
  destruct (assignEpochs _ _ _ _) as [r c] eqn:Ha.
  apply ordered_assignEpochs in Ha; [|done]. by destruct r.
Qed.

Lemma split_epochs (E : env) (fuel : nat) (l : commitLog) b e l' :
  checkAndPerformSplit E fuel l = Some (b, e, l') -> epochCache l' = epochCache l.
Proof.
  revert l. induction fuel as [|fuel IH]; intros l; simpl; [done|].
  destruct (CheckSplit E _ _); simpl; [|by intros [= _ _ <-]].
  unfold split. destruct (newSegment _ _) as [err|seg]; simpl.
  - case_bool_decide; [apply IH|by intros [= _ _ <-]].
  - by intros [= _ _ <-].
Qed.

Lemma ordered_Truncate (io : ioOutcome) (l : commitLog) (O : Z) :
  cacheOrdered (epochCache l) -> cacheOrdered (epochCache (Truncate io l O).2).
Proof.
  intros Hord. unfold Truncate.
  destruct (findSegment _ _) as [[idx seg]|]; [|done].
  destruct (deleteAll _ _); [done|].
  destruct (if bool_decide (BaseOffset seg = O) then _ else _).
  - destruct (Truncated _ _); simpl; [done|].
    destruct (copyBelow _ _ _ _); simpl; [done|].
    destruct (Replace _ _ _); simpl; [done|].
    unfold cacheClearLatest. destruct (io IoCheckpointEpochs); simpl; [done|].
    by apply filter_sorted.
  - destruct (segDelete _ _); simpl; [done|].
    unfold cacheClearLatest. destruct (io IoCheckpointEpochs); simpl; [done|].
    by apply filter_sorted.
Qed.

(** X7. NewLeaderEpoch(epoch) succeeds exactly when the epoch is greater than
    the last epoch of the log and the cache can be persisted; a refused
    epoch leaves the log as it is. After a success the epoch is the last
    epoch of the log, and LastOffsetForLeaderEpoch answers the newest offset
    that the log had at the call for every epoch from the former last epoch
    up to the new one: a follower still in one of these epochs is told to
    keep the log up to that offset. *)
Theorem NewLeaderEpoch_start (io : ioOutcome) (l : commitLog) (epoch : Z) :
  cacheOrdered (epochCache l) ->
  let err := (NewLeaderEpoch io l epoch).1 in
  let l' := (NewLeaderEpoch io l epoch).2 in
  (err = None <-> LastLeaderEpoch l < epoch /\ io IoCheckpointEpochs = None) /\
  (err <> None -> l' = l) /\
  (err = None ->
   LastLeaderEpoch l' = epoch /\ NewestOffset l' = NewestOffset l /\
   cacheOrdered (epochCache l') /\
   forall r, LastLeaderEpoch l <= r <= epoch ->
             LastOffsetForLeaderEpoch l' r = NewestOffset l).
Proof.
  intros Hord. unfold NewLeaderEpoch, LastLeaderEpoch.
  destruct (cacheAssign io (epochCache l) epoch (NewestOffset l)) as [e|c] eqn:Ha; simpl.
  - split; [|done]. split; [done|]. intros [Hlt Hio]. revert Ha. unfold cacheAssign.
    rewrite bool_decide_eq_true_2 by done. by rewrite Hio.
  - destruct (ordered_assign io _ _ _ _ Hord Ha) as (Hord' & Hlast & Hlt & Hc).
    split; [|split; [done|]].
    + split; [|done]. intros _. split; [done|]. revert Ha. unfold cacheAssign.
      rewrite bool_decide_eq_true_2 by done. by destruct (io _).
    + intros _. split; [done|]. split; [done|]. split; [done|].
      intros r [Hlo Hhi].
      unfold LastOffsetForLeaderEpoch, cacheLastOffsetForLeaderEpoch. simpl.
      rewrite Hlast.
      change (Go.int64 (NextOffset (activeSegment (set_epochCache c l)) - 1))
        with (NewestOffset l).
      destruct (decide (r = epoch)) as [->|Hr].
      { rewrite (bool_decide_eq_true_2 (epoch = epoch)) by done.
        by rewrite bool_decide_eq_true_2. }
      rewrite (bool_decide_eq_false_2 (r = epoch)) by done.
      pose proof (leastGreater_spec r c) as Hl.
      destruct (leastGreater r c) as [x|].
      * destruct Hl as (Hx & Hrx & _). rewrite Hc in Hx.
        apply elem_of_app in Hx as [Hx|Hx].
        -- pose proof (ordered_last _ x Hord Hx). lia.
        -- apply list_elem_of_singleton in Hx as ->. simpl. by case_bool_decide.
      * by rewrite bool_decide_eq_true_2.
Qed.

Lemma NewLeaderEpoch_start_witness :
  LastOffsetForLeaderEpoch (NewLeaderEpoch ioOK exampleLog 3).2 1 = 4 /\
  LastOffsetForLeaderEpoch (NewLeaderEpoch ioOK exampleLog 3).2 2 = 4.
Proof.
  destruct (NewLeaderEpoch_start ioOK exampleLog 3) as (_ & _ & H);
    [by repeat constructor|].
  destruct (H eq_refl) as (_ & _ & _ & Hr).
  split; apply Hr; vm_compute; split; discriminate.
Defined.

(** X8. The order of the leader-epoch cache is an invariant of the log: if
    the cached epochs are strictly increasing, they are so after Append,
    AppendMessageSet, NewLeaderEpoch and Truncate, whatever these calls
    return. In particular the loop of append, which compares each entry with
    the epoch it assigned last, never assigns an epoch twice. *)
Theorem epochs_stay_ordered (l : commitLog) :
  cacheOrdered (epochCache l) ->
  (forall E fuel msgs r l',
     Append E fuel l msgs = Some (r, l') -> cacheOrdered (epochCache l')) /\
  (forall E fuel ms r l',
     AppendMessageSet E fuel l ms = Some (r, l') -> cacheOrdered (epochCache l')) /\
  (forall io epoch, cacheOrdered (epochCache (NewLeaderEpoch io l epoch).2)) /\
  (forall io O, cacheOrdered (epochCache (Truncate io l O).2)).
Proof.
  intros Hord. split; [|split; [|split]].
  - intros E fuel msgs r l'. unfold Append.
    destruct (IsReadonly l); [by intros [= _ <-]|].
    destruct (checkAndPerformSplit E fuel l) as [[[b e] l1]|] eqn:Hs; [|done].
    apply split_epochs in Hs.
    destruct e as [err|]; [intros [= _ <-]; by rewrite Hs|].
    destruct (newMessageSetFromProto _ _ _ _ _) as [err|[ms entries]];
      [intros [= _ <-]; by rewrite Hs|].
    intros [= H]. apply (f_equal snd) in H. simpl in H. subst l'.
    apply ordered_append. by rewrite Hs.
  - intros E fuel ms r l'. unfold AppendMessageSet.
    destruct (checkAndPerformSplit E fuel l) as [[[b e] l1]|] eqn:Hs; [|done].
    apply split_epochs in Hs.
    destruct e as [err|]; [intros [= _ <-]; by rewrite Hs|].
    intros [= H]. apply (f_equal snd) in H. simpl in H. subst l'.
    apply ordered_append. by rewrite Hs.
  - intros io epoch. unfold NewLeaderEpoch.
    destruct (cacheAssign _ _ _ _) as [e|c] eqn:Ha; simpl; [done|].
    by destruct (ordered_assign io _ _ _ _ Hord Ha).
  - intros io O. by apply ordered_Truncate.
Qed.

Lemma epochs_stay_ordered_witness :
  cacheOrdered (epochCache (Truncate ioOK exampleLog 4).2) /\
  cacheOrdered (epochCache (NewLeaderEpoch ioOK exampleLog 3).2).
Proof.
  destruct (epochs_stay_ordered exampleLog) as (_ & _ & Hn & Ht);
    [by repeat constructor|].
  split; [apply Ht|apply Hn].
Defined.

(** *** Channels that are no longer registered *)

(** A channel of the heap that no reader is registered with. *)
Definition idle (l : commitLog) (ch : nat) : Prop :=
  (ch < length (chans l))%nat /\ forall r, hwWaiters l !! r <> Some ch.

Lemma idle_notifyAll (v : bool) (l : commitLog) (ch : nat) :
  waitersOK l -> idle l ch ->
  idle (notifyAll v l) ch /\ chans (notifyAll v l) !! ch = chans l !! ch.
Proof.
  intros Hok [Hlt Hno].
  destruct (notifyAll_notified v l Hok) as [_ _ Hothers].
  specialize (Hothers ch Hno). split; [|done]. split.
  - apply lookup_lt_is_Some. rewrite Hothers. by apply lookup_lt_is_Some.
  - intros r. simpl. by rewrite lookup_empty.
Qed.

Lemma idle_frame (l l' : commitLog) (ch : nat) :
  hwWaiters l' = hwWaiters l -> chans l' = chans l -> idle l ch ->
  idle l' ch /\ chans l' !! ch = chans l !! ch.
Proof. intros Hw Hc [? ?]. unfold idle. by rewrite Hw, Hc. Qed.

Lemma idle_step (o : op) (l : commitLog) (ch : nat) :
  waitersOK l -> idle l ch ->
  idle (step o l) ch /\ chans (step o l) !! ch = chans l !! ch.
Proof.
  intros Hok Hidle. pose proof (step_frame o l) as Hf.
  destruct o as [r v|r|v|v|ro|E fuel msgs|E fuel ms|io O]; simpl in *.
  - destruct Hidle as [Hlt Hno]. unfold waitForHW, idle.
    case_bool_decide; simpl;
      [|rewrite send_fresh, length_app, lookup_app_l by done; simpl;
        split; [split; [lia|done]|done]].
    destruct (bool_decide (hw l = NewestOffset l) && IsReadonly l); simpl.
    + rewrite send_fresh, length_app, lookup_app_l by done. simpl.
      split; [split; [lia|done]|done].
    + rewrite length_app, lookup_app_l by done. simpl.
      split; [split; [lia|]|done].
      intros r'. destruct (decide (r = r')) as [<-|Hne].
      * rewrite lookup_insert_eq. intros [= Heq]. lia.
      * by rewrite lookup_insert_ne.
  - destruct Hidle as [Hlt Hno]. split; [|done]. split; [done|]. simpl.
    intros r' Hr'. apply lookup_delete_Some in Hr' as [_ Hr']. by apply (Hno r').
  - unfold SetHighWatermark. case_bool_decide; [|done].
    exact (idle_notifyAll false (set_hw v l) ch (set_hw_ok l v Hok) Hidle).
  - exact (idle_notifyAll false (set_hw v l) ch (set_hw_ok l v Hok) Hidle).
  - unfold SetReadonly, notifyReadonly. destruct ro; [|done].
    case_bool_decide; [done|].
    exact (idle_notifyAll true (set_readonly true l) ch (set_readonly_ok l true Hok) Hidle).
  - destruct Hf as [Hw Hc]. by apply idle_frame.
  - destruct Hf as [Hw Hc]. by apply idle_frame.
  - destruct Hf as [Hw Hc]. by apply idle_frame.
Qed.

Lemma idle_run (ops : list op) (l : commitLog) (ch : nat) :
  waitersOK l -> idle l ch -> chans (run ops l) !! ch = chans l !! ch.
Proof.
  revert l. induction ops as [|o ops IH]; intros l Hok Hidle; [done|].
  simpl. destruct (idle_step o l ch Hok Hidle) as [Hidle' <-].
  apply IH; [by apply step_ok|done].
Qed.

(** X9. A reader that took itself off the waiters is never notified: once
    removeHWWaiter(r) has run for a reader parked on a channel, no sequence
    of calls on the log (HW changes, SetReadonly, appends, truncations, other
    readers waiting, r itself waiting again) sends anything on that channel.
    The same holds for the channel that a second waitForHW of the same reader
    replaces: nothing is ever sent on it. *)
Theorem removed_waiter_never_notified (l : commitLog) (r ch : nat) (ops : list op) :
  waitersOK l -> hwWaiters l !! r = Some ch ->
  chans (run ops (removeHWWaiter l r)) !! ch = Some [] /\
  (forall v, hwWaiters (waitForHW l r v).2 !! r <> Some ch ->
             chans (run ops (waitForHW l r v).2) !! ch = Some []).
Proof.
  intros Hok Hr. pose proof (w_parked l Hok r ch Hr) as Hch.
  assert ((ch < length (chans l))%nat) as Hlt by (by eapply lookup_lt_Some).
  split.
  - rewrite idle_run; [done|by apply removeHWWaiter_ok|]. split; [done|].
    simpl. intros r' Hr'. apply lookup_delete_Some in Hr' as [Hne Hr'].
    apply Hne. by apply (w_inj l Hok r r' ch).
  - intros v Hgone.
    assert (chans (waitForHW l r v).2 !! ch = Some []) as Hch'.
    { unfold waitForHW. case_bool_decide; simpl;
        [|rewrite send_fresh; by apply lookup_snoc_old].
      destruct (bool_decide (hw l = NewestOffset l) && IsReadonly l); simpl;
        [rewrite send_fresh|]; by apply lookup_snoc_old. }
    rewrite idle_run; [done|by apply waitForHW_ok|]. split.
    + by eapply lookup_lt_Some.
    + intros r' Hr'. destruct (decide (r' = r)) as [->|Hne]; [done|].
      revert Hr'. unfold waitForHW. case_bool_decide; simpl.
      * destruct (bool_decide (hw l = NewestOffset l) && IsReadonly l); simpl.
        -- intros Hr'. apply Hne. by apply (w_inj l Hok r' r ch).
        -- rewrite lookup_insert_ne by done.
           intros Hr'. apply Hne. by apply (w_inj l Hok r' r ch).
      * intros Hr'. apply Hne. by apply (w_inj l Hok r' r ch).
Qed.

Lemma removed_waiter_never_notified_witness :
  chans (run [OpSetHighWatermark 9; OpSetReadonly true] (removeHWWaiter parkedLog 7))
    !! 0%nat = Some [].
Proof.
  apply (removed_waiter_never_notified parkedLog 7 0
           [OpSetHighWatermark 9; OpSetReadonly true]).
  - exact parkedLog_ok.
  - reflexivity.
Defined.

(** *** Close and Delete *)

Lemma close_cases (h : handle) (c : closing) :
  (closed h = true /\ close h c = (None, h)) \/
  (closed h = false /\ exists e, checkpointFails c = Some e /\ close h c = (Some e, h)) \/
  (closed h = false /\ checkpointFails c = None /\
   theLog (close h c).2 = theLog h /\ closed (close h c).2 = true /\
   hwFile (close h c).2 = Some (pretty (hw (theLog h))) /\
   removed (close h c).2 = removed h /\
   (close h c).1 = closeAll c (segments (theLog h)) /\
   segmentsClosed (close h c).2 =
     match closeAll c (segments (theLog h)) with
     | Some _ => segmentsClosed h
     | None => true
     end).
Proof.
  unfold close, checkpointHW. destruct (closed h) eqn:Hc; [by left|right].
  destruct (checkpointFails c) as [e|]; [left; split; [done|by exists e]|right].
  simpl. by destruct (closeAll c (segments (theLog h))).
Qed.

(** X10. The closing of a log.
    - A failed HW checkpoint leaves the log open and the call can be
      repeated; a failure to close a segment file comes after the log was
      marked closed, so a second Close returns nil and does nothing: the
      segment files left open stay open.
    - Close and Delete that return nil on an open log have written the HW of
      the log, in decimal, to the checkpoint file.
    - Delete marks the log deleted whatever it returns, and removes the
      directory exactly when close and the removal both succeed: a log
      whose directory is removed is closed and marked deleted. *)
Theorem closing_a_log (h : handle) (c c' : closing) :
  removed h = false ->
  (forall e, closed h = false -> checkpointFails c = Some e ->
     Close h c = (Some e, h)) /\
  (forall e, closed h = false -> checkpointFails c = None ->
     (Close h c).1 = Some e ->
     IsClosed (Close h c).2 = true /\
     segmentsClosed (Close h c).2 = segmentsClosed h /\
     Close (Close h c).2 c' = (None, (Close h c).2)) /\
  (closed h = false -> (Close h c).1 = None ->
     hwFile (Close h c).2 = Some (pretty (hw (theLog h))) /\
     segmentsClosed (Close h c).2 = true /\
     Close (Close h c).2 c' = (None, (Close h c).2)) /\
  IsDeleted (Delete h c).2 = true /\
  (removed (Delete h c).2 = true <->
     (Delete h c).1 = None) /\
  (removed (Delete h c).2 = true -> IsClosed (Delete h c).2 = true) /\
  (closed h = false -> (Delete h c).1 = None ->
     hwFile (Delete h c).2 = Some (pretty (hw (theLog h)))).
Proof.
  intros Hrem. unfold Close, IsClosed, IsDeleted.
  split; [|split; [|split; [|split; [|split; [|split]]]]].
  - intros e Hc He.
    destruct (close_cases h c) as [[? _]|[(_ & e' & He' & ->)|(_ & ? & _)]]; congruence.
  - intros e Hc Hcp Herr.
    destruct (close_cases h c)
      as [[? _]|[(_ & e' & ? & _)|(_ & _ & _ & Hcl & _ & _ & H1 & Hsc)]]; [congruence..|].
    rewrite Herr in H1. rewrite <- H1 in Hsc. split; [done|]. split; [done|].
    destruct (close_cases (close h c).2 c') as [[_ ->]|[[? _]|[? _]]]; [done|congruence..].
  - intros Hc Herr.
    destruct (close_cases h c)
      as [[? _]|[(_ & e' & ? & Hcl)|(_ & _ & _ & Hcl & Hf & _ & H1 & Hsc)]]; [congruence| |].
    { rewrite Hcl in Herr. done. }
    rewrite Herr in H1. rewrite <- H1 in Hsc. split; [done|]. split; [done|].
    destruct (close_cases (close h c).2 c') as [[_ ->]|[[? _]|[? _]]]; [done|congruence..].
  - unfold Delete. set (h0 := {| theLog := _ |}).
    destruct (close_cases h0 c)
      as [[_ ->]|[(_ & e' & _ & ->)|(_ & _ & Hl & _ & _ & _ & H1 & _)]].
    + by destruct (removeFails c).
    + done.
    + destruct (close h0 c) as [[e|] h1]; simpl in *; [by rewrite Hl|].
      destruct (removeFails c); simpl; by rewrite Hl.
  - unfold Delete. set (h0 := {| theLog := _ |}).
    assert (removed h0 = false) as Hrem0 by done.
    destruct (close_cases h0 c)
      as [[_ ->]|[(_ & e' & _ & ->)|(_ & _ & _ & _ & _ & Hr & _ & _)]].
    + destruct (removeFails c); simpl; [by rewrite Hrem|done].
    + simpl. by rewrite Hrem.
    + destruct (close h0 c) as [[e|] h1]; simpl in *; [by rewrite Hr, Hrem|].
      destruct (removeFails c); simpl; [by rewrite Hr, Hrem|done].
  - unfold Delete. set (h0 := {| theLog := _ |}).
    assert (removed h0 = false) as Hrem0 by done.
    destruct (close_cases h0 c)
      as [[Hc ->]|[(_ & e' & _ & ->)|(_ & _ & _ & Hc & _ & Hr & _ & _)]].
    + by destruct (removeFails c).
    + simpl. by rewrite Hrem.
    + destruct (close h0 c) as [[e|] h1]; simpl in *; [by rewrite Hr, Hrem|].
      by destruct (removeFails c).
  - intros Hc. unfold Delete. set (h0 := {| theLog := _ |}).
    assert (closed h0 = false) as Hc0 by done.
    destruct (close_cases h0 c)
      as [[? _]|[(_ & e' & _ & ->)|(_ & _ & _ & _ & Hf & _ & _ & _)]]; [congruence|done|].
    destruct (close h0 c) as [[e|] h1]; simpl in *; [done|].
    by destruct (removeFails c).
Qed.

(** An open handle on [exampleLog], and a disk on which the second segment
    file cannot be closed. *)
Definition openLog : handle :=
  {| theLog := exampleLog; closed := false; hwFile := None;
     segmentsClosed := false; removed := false |}.

Definition stuckClose : closing :=
  {| checkpointFails := None;
     closeFails := fun s => if bool_decide (BaseOffset s = 3)
                            then Some (ErrIO "close") else None;
     removeFails := None |}.

Definition goodClose : closing :=
  {| checkpointFails := None; closeFails := fun _ => None; removeFails := None |}.

Lemma closing_a_log_witness :
  Close (Close openLog stuckClose).2 goodClose = (None, (Close openLog stuckClose).2) /\
  segmentsClosed (Close openLog stuckClose).2 = false /\
  IsDeleted (Delete openLog stuckClose).2 = true /\
  hwFile (Delete openLog goodClose).2 = Some "4".
Proof.
  destruct (closing_a_log openLog stuckClose goodClose eq_refl)
    as (_ & Hfail & _ & Hdel & _).
  destruct (Hfail (ErrIO "close") eq_refl eq_refl eq_refl) as (_ & Hsc & Hagain).
  destruct (closing_a_log openLog goodClose goodClose eq_refl)
    as (_ & _ & _ & _ & _ & _ & Hhw).
  split; [exact Hagain|]. split; [exact Hsc|]. split; [exact Hdel|].
  exact (Hhw eq_refl eq_refl).
Defined.

End commitlog_more.

(** ** Further properties of the metadata plane *)
Module server_more.
Import server server_spec.

(** *** Replica placement *)

Lemma getPartitionReplicas_inr (m : metadataAPI) (ids : error + list string) (rf : Z)
    (replicas : list string) :
  getPartitionReplicas m ids rf = inr replicas ->
  exists ids0 n,
    ids = inr ids0 /\
    n = (if bool_decide (rf = maxReplicationFactor) then Go.int32 (Go.len ids0) else rf) /\
    0 < n <= Go.int32 (Go.len ids0) /\
    replicas =
      take (Z.to_nat n)
        (Go.SliceStable
           (fun a b => bool_decide (load (brokerPartitionLoad m) a
                                    < load (brokerPartitionLoad m) b)) ids0) /\
    replicas <> [] /\ replicas ⊆+ ids0.
Proof.
  unfold getPartitionReplicas. destruct ids as [err|ids0]; [done|]. cbv zeta.
  set (n := if bool_decide (rf = maxReplicationFactor) then _ else _).
  case_bool_decide as Hpos; [done|]. case_bool_decide as Hmax; [done|].
  intros [= <-]. exists ids0, n. split; [done|]. split; [done|]. split; [lia|].
  split; [done|].
  set (sorted := Go.SliceStable _ ids0).
  assert (sorted ≡ₚ ids0) as Hperm
    by apply (SliceStable_perm (load (brokerPartitionLoad m)) ids0).
  split.
  - assert (ids0 <> []) as Hne.
    { intros ->. unfold Go.len in Hmax. simpl in Hmax.
      change (Go.int32 (Z.of_nat 0)) with 0 in Hmax. lia. }
    destruct sorted as [|a sorted'] eqn:Hs.
    { apply Permutation_nil_l in Hperm. by subst. }
    destruct (Z.to_nat n) eqn:Hn; [lia|]. done.
  - rewrite <- Hperm. apply sublist_submseteq, sublist_take.
Qed.

(** X11. getPartitionReplicas answers replicas exactly when the replication
    factor, read as the cluster size when it is maxReplicationFactor (-1),
    is between 1 and the cluster size; every other factor, and an empty
    cluster, is InvalidArgument, and a failure to read the Raft
    configuration is Internal. The replicas it answers are never empty, are
    servers of the cluster, each at most as often as the cluster lists it,
    and with maxReplicationFactor they are all the servers. *)
Theorem getPartitionReplicas_answers (m : metadataAPI) (ids : list string) (rf : Z) :
  Go.len ids <= 2147483647 ->
  let n := if bool_decide (rf = maxReplicationFactor) then Go.len ids else rf in
  (0 < n <= Go.len ids ->
   exists replicas,
     getPartitionReplicas m (inr ids) rf = inr replicas /\
     Go.len replicas = n /\ replicas <> [] /\ replicas ⊆+ ids /\
     (rf = maxReplicationFactor -> replicas ≡ₚ ids)) /\
  (~ (0 < n <= Go.len ids) ->
   exists msg,
     getPartitionReplicas m (inr ids) rf = inl {| Code := InvalidArgument; Msg := msg |}) /\
  (forall err,
     getPartitionReplicas m (inl err) rf = inl {| Code := Internal; Msg := errorText err |}).
Proof.
  intros Hlen n. assert (0 <= Go.len ids) as Hlen0 by (unfold Go.len; lia).
  assert (Go.int32 (Go.len ids) = Go.len ids) as H32 by (apply int32_id; lia).
  split; [|split; [|done]].
  - intros Hn.
    destruct (getPartitionReplicas m (inr ids) rf) as [st|replicas] eqn:Hget.
    + exfalso. revert Hget. unfold getPartitionReplicas. cbv zeta. rewrite H32.
      fold n. rewrite (bool_decide_eq_false_2 (n <= 0)) by lia.
      by rewrite (bool_decide_eq_false_2 (Go.len ids < n)) by lia.
    + exists replicas. split; [done|].
      apply getPartitionReplicas_inr in Hget
        as (ids0 & n0 & [= <-] & Hn0 & _ & Hrep & Hne & Hsub).
      rewrite H32 in Hn0. fold n in Hn0. subst n0.
      set (sorted := Go.SliceStable _ ids) in Hrep.
      assert (sorted ≡ₚ ids) as Hperm
        by apply (SliceStable_perm (load (brokerPartitionLoad m)) ids).
      assert (length sorted = length ids) as Hls by by apply Permutation_length.
      split; [|split; [done|split; [done|]]].
      * rewrite Hrep. unfold Go.len in *. rewrite length_take. lia.
      * intros Hrf. rewrite Hrep. unfold n. rewrite bool_decide_eq_true_2 by done.
        rewrite take_ge; [done|]. unfold Go.len. lia.
  - intros Hn. unfold getPartitionReplicas. cbv zeta. rewrite H32. fold n.
    case_bool_decide; [by eexists|].
    rewrite (bool_decide_eq_true_2 (Go.len ids < n)) by lia. by eexists.
Qed.

Lemma getPartitionReplicas_answers_witness :
  (exists replicas,
     getPartitionReplicas threeBrokers (inr ["a"; "b"; "c"]) maxReplicationFactor
       = inr replicas /\ replicas ≡ₚ ["a"; "b"; "c"]) /\
  (exists msg,
     getPartitionReplicas threeBrokers (inr ["a"; "b"; "c"]) 4
       = inl {| Code := InvalidArgument; Msg := msg |}).
Proof.
  split.
  - destruct (getPartitionReplicas_answers threeBrokers ["a"; "b"; "c"] maxReplicationFactor)
      as ((replicas & Hget & _ & _ & _ & Hall) & _); [by vm_compute|by vm_compute|].
    exists replicas. split; [exact Hget|]. by apply Hall.
  - destruct (getPartitionReplicas_answers threeBrokers ["a"; "b"; "c"] 4)
      as (_ & Hbad & _); [by vm_compute|].
    apply Hbad. vm_compute. intros [_ H]. by apply H.
Defined.

(** *** CreateStream *)

(** What the placement loop makes of the partition [p] of the request. *)
Record placed (m : metadataAPI) (ids : list string) (p q : partition) : Prop := {
  pl_id : Id q = Id p;
  pl_stream : Stream q = Stream p;
  pl_factor : ReplicationFactor q = ReplicationFactor p;
  pl_nonempty : Replicas q <> [];
  pl_cluster : Replicas q ⊆+ ids;
  pl_isr : Isr q = list_to_set (Replicas q);
  pl_leader : head (Replicas q) = Some (Leader q);
  pl_least : forall a, a ∈ Replicas q ->
               load (brokerLeaderLoad m) (Leader q) <= load (brokerLeaderLoad m) a
}.

Lemma placePartition_placed (m : metadataAPI) (ids : error + list string) (p : partition) :
  match getPartitionReplicas m ids (ReplicationFactor p) with
  | inl st => placePartition m ids p = Some (inl st)
  | inr replicas =>
      exists q ids0,
        placePartition m ids p = Some (inr q) /\ ids = inr ids0 /\ placed m ids0 p q /\
        Replicas q = (selectPartitionLeader m replicas).1
  end.
Proof.
  unfold placePartition.
  destruct (getPartitionReplicas m ids (ReplicationFactor p)) as [st|replicas] eqn:Hget;
    [done|].
  apply getPartitionReplicas_inr in Hget as (ids0 & n & -> & _ & _ & _ & Hne & Hsub).
  unfold selectPartitionLeader.
  set (lcount := load (brokerLeaderLoad m)).
  set (ordered := Go.SliceStable _ replicas).
  assert (ordered ≡ₚ replicas) as Hperm by apply (SliceStable_perm lcount replicas).
  assert (StronglySorted (fun a b => lcount a <= lcount b) ordered) as Hsorted
    by apply (SliceStable_sorted lcount replicas).
  destruct ordered as [|leader others] eqn:Hord.
  { apply Permutation_nil_l in Hperm. by destruct Hne. }
  simpl. eexists _, ids0. split; [done|]. split; [done|]. split; [|done].
  split; simpl; try done.
  - by rewrite Hperm.
  - intros a Ha. apply StronglySorted_inv in Hsorted as [_ Hall].
    apply elem_of_cons in Ha as [->|Ha]; [lia|].
    rewrite Forall_forall in Hall. by apply Hall.
Qed.

Lemma placePartitions_placed (m : metadataAPI) (ids : error + list string)
    (ps : list partition) :
  match placePartitions m ids ps with
  | None => False
  | Some (inl st) =>
      exists p, p ∈ ps /\ getPartitionReplicas m ids (ReplicationFactor p) = inl st
  | Some (inr qs) =>
      ps = [] /\ qs = [] \/
      exists ids0, ids = inr ids0 /\ Forall2 (placed m ids0) ps qs /\
        Forall2 (fun p q =>
                   exists replicas,
                     getPartitionReplicas m ids (ReplicationFactor p) = inr replicas /\
                     Replicas q = (selectPartitionLeader m replicas).1) ps qs
  end.
Proof.
  induction ps as [|p ps IH]; simpl; [by left|].
  pose proof (placePartition_placed m ids p) as Hp.
  destruct (getPartitionReplicas m ids (ReplicationFactor p)) as [st|replicas] eqn:Hget.
  - rewrite Hp. exists p. split; [by left|done].
  - destruct Hp as (q & ids0 & -> & -> & Hq & Hrep).
    destruct (placePartitions m (inr ids0) ps) as [[st|qs]|]; [| |done].
    + destruct IH as (p' & Hin & Hst). exists p'. split; [by right|done].
    + right. exists ids0. split; [done|].
      destruct IH as [[-> ->]|(ids1 & [= <-] & Hall & Hall')].
      * split; (constructor; [|constructor]); [done|by exists replicas].
      * split; (constructor; [|done]); [done|by exists replicas].
Qed.

(** X12. CreateStream on the metadata leader.
    - It never panics: selectPartitionLeader is only handed replicas that
      getPartitionReplicas answered, which are never empty.
    - A request without partitions is InvalidArgument and proposes nothing,
      and so does a request one of whose partitions gets no replicas.
    - The entry it proposes keeps the name and subject, carries the clock as
      creation time, and has one partition per partition of the request, in
      order, with the same id: its replicas are servers of the cluster, its
      ISR is its replicas, and its leader is the first replica, one of least
      leader count among them.
    - The load counters are not updated between the partitions of one
      request: two partitions with the same replication factor get the same
      replicas, in the same order, and the same leader.
    - The status is AlreadyExists exactly when Raft refuses the entry with
      ErrStreamExists. *)
Theorem CreateStream_placement (m : metadataAPI) (req : protoStream)
    (ids : error + list string) (now : Z) (raft : protoStream -> raftResult) :
  exists st proposed,
    CreateStream m MetadataLeader req ids now raft = Some (st, proposed) /\
    (psPartitions req = [] ->
     st = Some {| Code := InvalidArgument; Msg := "no partitions provided" |} /\
     proposed = None) /\
    (proposed = None -> st <> None) /\
    (forall op, proposed = Some op ->
       psName op = psName req /\ psSubject op = psSubject req /\
       psCreationTimestamp op = now /\
       (exists ids0, ids = inr ids0 /\
          Forall2 (placed m ids0) (psPartitions req) (psPartitions op)) /\
       (forall i j p p' q q',
          psPartitions req !! i = Some p -> psPartitions op !! i = Some q ->
          psPartitions req !! j = Some p' -> psPartitions op !! j = Some q' ->
          ReplicationFactor p = ReplicationFactor p' ->
          Replicas q = Replicas q' /\ Leader q = Leader q' /\ Isr q = Isr q') /\
       (forall c msg, st = Some {| Code := c; Msg := msg |} ->
          (c = AlreadyExists <-> exists err, raft op = RaftRefused err /\
                                             isStreamExists err = true))).
Proof.
  unfold CreateStream. case_bool_decide as Hlen.
  { eexists _, _. split; [done|]. split; [done|]. split; [done|]. done. }
  assert (psPartitions req <> []) as Hne.
  { intros Hnil. rewrite Hnil in Hlen. by apply Hlen. }
  pose proof (placePartitions_placed m ids (psPartitions req)) as Hp.
  destruct (placePartitions m ids (psPartitions req)) as [[st|qs]|]; [| |done].
  { eexists _, _. split; [done|]. split; [done|]. split; [done|]. done. }
  destruct Hp as [[? _]|(ids0 & -> & Hall & Hsame)]; [done|].
  set (op := {| psName := psName req |}).
  assert (exists st, (match raft op with
            | RaftRefused err =>
                Some (Some {| Code := if isStreamExists err then AlreadyExists
                                      else FailedPrecondition;
                              Msg := errorText err |}, Some op)
            | RaftFailed err =>
                Some (Some {| Code := Internal;
                              Msg := "Failed to replicate partition: " +:+ err |}, Some op)
            | RaftCommitted => Some (None, Some op)
            end) = Some (st, Some op) /\
          forall c msg, st = Some {| Code := c; Msg := msg |} ->
            (c = AlreadyExists <-> exists err, raft op = RaftRefused err /\
                                               isStreamExists err = true))
    as (st & -> & Hst).
  { destruct (raft op) as [err|err|] eqn:Hraft; eexists; (split; [done|]).
    - intros c msg [= <- <-]. split.
      + intros Hc. exists err. split; [done|]. by destruct (isStreamExists err).
      + intros (err' & [= <-] & ->). done.
    - intros c msg [= <- <-]. split; [done|]. by intros (err' & ? & _).
    - done. }
  exists st, (Some op). split; [done|]. split; [done|]. split; [done|].
  intros op' [= <-]. split; [done|]. split; [done|]. split; [done|].
  split; [by exists ids0|]. split; [|done].
  intros i j p p' q q' Hi Hqi Hj Hqj Hrf. simpl in Hqi, Hqj.
  destruct (Forall2_lookup_lr _ _ _ _ _ _ Hsame Hi Hqi) as (r & Hr & Hq).
  destruct (Forall2_lookup_lr _ _ _ _ _ _ Hsame Hj Hqj) as (r' & Hr' & Hq').
  rewrite Hrf, Hr' in Hr. injection Hr as <-.
  assert (Replicas q = Replicas q') as Hrep by congruence.
  destruct (Forall2_lookup_lr _ _ _ _ _ _ Hall Hi Hqi) as [_ _ _ _ _ Hisr Hl _].
  destruct (Forall2_lookup_lr _ _ _ _ _ _ Hall Hj Hqj) as [_ _ _ _ _ Hisr' Hl' _].
  split; [done|]. split; [|congruence]. rewrite Hrep in Hl. congruence.
Qed.

(** *** Leader reports *)

(** X13. The witnesses of a partition are a set: when a report is accepted
    without a quorum, the same report once more is accepted again and leaves
    the metadata plane exactly as the first one left it, so a replica cannot
    bring about an election by repeating itself. *)
Theorem ReportLeader_repeat (m m1 : metadataAPI) (req : ReportLeaderOp)
    (raft raft' : ChangeLeaderOp -> raftResult) :
  ReportLeader m MetadataLeader req raft = (None, m1, None) ->
  ReportLeader m1 MetadataLeader req raft' = (None, m1, None).
Proof.
  unfold ReportLeader, GetLeader.
  destruct (GetPartition m (rlStream req) (rlPartition req)) as [p|] eqn:Hp; [|done].
  case_bool_decide as Hgen; [done|].
  set (m0 := match leaderReports m !! reportKey p with
             | None => set_leaderReports (<[reportKey p := emptyReport]> (leaderReports m)) m
             | Some _ => m
             end).
  assert (GetPartition m0 (rlStream req) (rlPartition req) = Some p) as Hp0.
  { unfold m0. by destruct (leaderReports m !! reportKey p). }
  unfold addWitness. cbv zeta.
  set (l := default emptyReport (leaderReports m0 !! reportKey p)).
  case_bool_decide as Hq.
  { destruct (electNewPartitionLeader _ p raft) as [st op] eqn:He.
    intros [= -> <- ->]. exfalso. revert He. unfold electNewPartitionLeader.
    case_bool_decide; [done|]. case_bool_decide; [done|].
    destruct (selectPartitionLeader _ _) as [? [leader'|]]; [|done].
    by destruct (raft _). }
  intros [= <-]. unfold GetPartition in *. simpl. rewrite Hp0.
  rewrite (bool_decide_eq_false_2 _ Hgen).
  rewrite lookup_insert_eq. simpl. rewrite lookup_insert_eq. simpl.
  assert ({[rlReplica req]} ∪ ({[rlReplica req]} ∪ witnessReplicas l)
          = {[rlReplica req]} ∪ witnessReplicas l) as Hset
    by (by rewrite (assoc_L (∪)), union_idemp_L).
  rewrite Hset.
  rewrite bool_decide_eq_false_2 by done.
  by rewrite insert_insert_eq.
Qed.

Lemma ReportLeader_repeat_witness :
  let first := ReportLeader oneStream MetadataLeader (reportBy "b") (fun _ => RaftCommitted) in
  ReportLeader first.1.2 MetadataLeader (reportBy "b") (fun _ => RaftCommitted)
    = (None, first.1.2, None).
Proof.
  apply (ReportLeader_repeat oneStream _ (reportBy "b") (fun _ => RaftCommitted)).
  reflexivity.
Defined.

Lemma elect_proposes (m : metadataAPI) (p : partition) (raft : ChangeLeaderOp -> raftResult)
    (c : string) :
  c ∈ Isr p -> c <> Leader p -> 1 < ISRSize p ->
  exists op, (electNewPartitionLeader m p raft).2 = Some op.
Proof.
  intros Hc Hne Hsize. unfold electNewPartitionLeader, GetISR, GetLeader. simpl.
  unfold ISRSize in Hsize.
  change (size (Isr p)) with (length (elements (Isr p))) in Hsize.
  rewrite bool_decide_eq_false_2; [|unfold Go.len; lia].
  set (candidates := filter _ (elements (Isr p))).
  assert (c ∈ candidates) as Hin.
  { unfold candidates. apply list_elem_of_filter. split; [done|]. by apply elem_of_elements. }
  rewrite bool_decide_eq_false_2.
  2:{ destruct candidates; [by apply elem_of_nil in Hin|]. unfold Go.len. simpl. lia. }
  unfold selectPartitionLeader.
  set (ordered := Go.SliceStable _ candidates).
  assert (ordered ≡ₚ candidates) as Hperm
    by apply (SliceStable_perm (load (brokerLeaderLoad m)) candidates).
  destruct ordered as [|leader others].
  { apply Permutation_nil_l in Hperm. rewrite <- Hperm in Hin. by apply elem_of_nil in Hin. }
  simpl. destruct (raft _); by eexists.
Qed.

(** X14. The witnesses against a leader outlive the election they caused:
    ChangeLeader leaves the report of the partition in place. When the
    reported witnesses are a quorum of the ISR and the leader has been
    changed, the first report against the new leader, with the new leader
    epoch and by whatever replica, is a quorum at once: it proposes another
    leader change as soon as the ISR has a member beside the new leader. *)
Theorem witnesses_outlive_election (m : metadataAPI) (s x y c : string) (id epoch : Z)
    (p : partition) (l : leaderReport) (raft : ChangeLeaderOp -> raftResult) :
  GetPartition m s id = Some p ->
  leaderReports m !! reportKey p = Some l ->
  Go.div (ISRSize p - 1) 2 < Z.of_nat (size (witnessReplicas l)) ->
  Epoch p < epoch ->
  c ∈ Isr p -> c <> x -> 1 < ISRSize p ->
  let m' := (ChangeLeader m s x id epoch None).2 in
  let req := {| rlStream := s; rlPartition := id; rlReplica := y;
                rlLeader := x; rlLeaderEpoch := epoch |} in
  leaderReports m' = leaderReports m /\
  exists op,
    (ReportLeader m' MetadataLeader req raft).2 = Some op /\
    clLeader op ∈ Isr p /\ clLeader op <> x.
Proof.
  intros Hp Hl Hq Hepoch Hc Hcx Hsize. cbv zeta.
  unfold ChangeLeader. rewrite Hp. unfold GetEpoch.
  rewrite bool_decide_eq_false_2 by lia. simpl.
  set (p' := SetEpoch _ epoch).
  set (m' := set_loads _ _ _).
  split; [done|].
  assert (GetPartition m' s id = Some p') as Hp'.
  { apply (GetPartition_store m s id p p' Hp). }
  unfold ReportLeader. simpl. rewrite Hp'. simpl.
  rewrite bool_decide_eq_false_2 by (intros [?|?]; done).
  change (reportKey p') with (reportKey p).
  change (leaderReports m') with (leaderReports m). rewrite Hl.
  unfold addWitness. cbv zeta.
  change (reportKey p') with (reportKey p).
  change (leaderReports m') with (leaderReports m). rewrite Hl. simpl.
  change (ISRSize p') with (ISRSize p).
  rewrite bool_decide_eq_true_2.
  2:{ assert (size (witnessReplicas l) <= size ({[y]} ∪ witnessReplicas l))%nat
        by (apply subseteq_size; set_solver). lia. }
  set (m2 := set_leaderReports _ m').
  destruct (elect_proposes m2 p' raft c) as [op Hop]; [done|done|done|].
  destruct (elect_spec m2 p' raft) as [_ Hspec].
  destruct (Hspec op Hop) as (Hin & Hne & _).
  destruct (electNewPartitionLeader m2 p' raft) as [st o]. simpl in *. subst o.
  exists op. done.
Qed.

Lemma witnesses_outlive_election_witness :
  let reported :=
    set_leaderReports
      {[ ("orders", 0) := {| timer := Some TimerStopped;
                             witnessReplicas := {[ "b"; "c" ]} |} ]} oneStream in
  let changed := (ChangeLeader reported "orders" "b" 0 5 None).2 in
  exists op,
    (ReportLeader changed MetadataLeader
       {| rlStream := "orders"; rlPartition := 0; rlReplica := "a";
          rlLeader := "b"; rlLeaderEpoch := 5 |} (fun _ => RaftCommitted)).2 = Some op /\
    clLeader op ∈ Isr partition0 /\ clLeader op <> "b".
Proof.
  cbv zeta.
  destruct (witnesses_outlive_election
              (set_leaderReports
                 {[ ("orders", 0) := {| timer := Some TimerStopped;
                                        witnessReplicas := {[ "b"; "c" ]} |} ]} oneStream)
              "orders" "b" "a" "c" 0 5 partition0
              {| timer := Some TimerStopped; witnessReplicas := {[ "b"; "c" ]} |}
              (fun _ => RaftCommitted)) as [_ H].
  - reflexivity.
  - reflexivity.
  - by vm_compute.
  - by vm_compute.
  - by vm_compute.
  - discriminate.
  - by vm_compute.
  - exact H.
Defined.

(** *** The keys of the store *)

(** Every stream is stored under its name and every partition under its id. *)
Definition keyedStream (s : stream) : Prop :=
  forall id p, partitions s !! id = Some p -> Id p = id.

Definition keyed (m : metadataAPI) : Prop :=
  forall name s, streams m !! name = Some s -> Name s = name /\ keyedStream s.

Lemma keyed_same (m m' : metadataAPI) : streams m' = streams m -> keyed m -> keyed m'.
Proof. unfold keyed. by intros ->. Qed.

Lemma keyed_delete (m : metadataAPI) (name : string) :
  keyed m -> keyed (set_streams (delete name (streams m)) m).
Proof.
  intros Hk name' s Hs. simpl in Hs. apply lookup_delete_Some in Hs as [_ Hs]. by apply Hk.
Qed.

Lemma keyed_insert (m : metadataAPI) (name : string) (s : stream) :
  Name s = name -> keyedStream s -> keyed m ->
  keyed (set_streams (<[name := s]> (streams m)) m).
Proof.
  intros Hn Hs Hk name' s' Hs'. simpl in Hs'.
  apply lookup_insert_Some in Hs' as [[<- <-]|[_ Hs']]; [done|by apply Hk].
Qed.

Lemma keyedStream_set (s : stream) (p : partition) :
  keyedStream s -> keyedStream (streamSetPartition s (Id p) p).
Proof.
  intros Hs id q Hq. simpl in Hq.
  apply lookup_insert_Some in Hq as [[<- <-]|[_ Hq]]; [done|by apply Hs].
Qed.

Lemma foldl_loads_streams {A} (f : A -> metadataAPI -> metadataAPI) (xs : list A)
    (m : metadataAPI) :
  (forall x m, streams (f x m) = streams m) ->
  streams (foldl (fun m x => f x m) m xs) = streams m.
Proof.
  intros Hf. revert m. induction xs as [|x xs IH]; intros m; simpl; [done|].
  by rewrite IH, Hf.
Qed.

Lemma removeStream_streams (m : metadataAPI) (s : stream) :
  streams (removeStream m s) = delete (Name s) (streams m).
Proof. done. Qed.

Lemma addPartitions_keyed (ps : list partition) (s s' : stream)
    (startFails : partition -> option error) :
  keyedStream s -> addPartitions s ps startFails = inr s' ->
  keyedStream s' /\ Name s' = Name s.
Proof.
  revert s. induction ps as [|p ps IH]; intros s Hs; simpl; [by intros [= <-]|].
  unfold addPartition. destruct (partitions s !! Id p); [done|].
  destruct (startFails p); [done|]. intros H. apply IH in H; [done|].
  by apply keyedStream_set.
Qed.

Lemma addPartitions_failed_name (ps : list partition) (s s' : stream)
    (startFails : partition -> option error) e :
  addPartitions s ps startFails = inl (e, s') -> Name s' = Name s.
Proof.
  revert s. induction ps as [|p ps IH]; intros s; simpl; [done|].
  unfold addPartition. destruct (partitions s !! Id p); [by intros [= _ <-]|].
  destruct (startFails p); [by intros [= _ <-]|]. intros H. by apply IH in H.
Qed.

Lemma streamPause_keyed (s s' : stream) (ids : list Z) (resumeAll : bool)
    (fails : option error) (paused : list partition) :
  keyedStream s -> streamPause s ids resumeAll fails = inr (s', paused) ->
  keyedStream s' /\ Name s' = Name s.
Proof.
  intros Hs. unfold streamPause.
  destruct (if bool_decide (Go.len ids = 0) then _ else _) as [toPause|]; [|done].
  destruct fails; [done|]. intros [= <- _].
  generalize ((fun p => setPaused p true) <$> toPause). intros qs.
  revert s Hs. induction qs as [|q qs IH]; intros s Hs; simpl; [done|].
  destruct (IH (streamSetPartition s (Id q) q)) as [? ?]; [by apply keyedStream_set|].
  done.
Qed.

Lemma applyOp_keyed (o : storeOp) (m : metadataAPI) : keyed m -> keyed (applyOp o m).
Proof.
  intros Hk.
  destruct o as [ps recovered closeFails startFails
                |streamName id recovered replaceFails startFails
                |streamName leader id epoch fails
                |streamName ids resumeAll fails
                |streamName' recovered deleteFails]; simpl.
  - (* AddStream *)
    unfold AddStream. case_bool_decide; [done|].
    destruct (match streams m !! psName ps with Some _ => _ | None => _ end)
      as [e|m1] eqn:Hm1; simpl; [done|].
    assert (keyed m1) as Hk1.
    { destruct (streams m !! psName ps) as [existing|]; [|by injection Hm1 as <-].
      destruct (negb recovered); [done|]. destruct (negb (Tombstoned existing)); [done|].
      destruct closeFails; [done|]. injection Hm1 as <-.
      eapply keyed_same; [|by apply (keyed_delete m (Name existing))]. done. }
    destruct (addPartitions _ _ _) as [[e s']|s'] eqn:Hadd; simpl.
    + set (m2 := set_streams (<[psName ps := newStream ps]> (streams m1)) m1).
      apply (keyed_same (set_streams (delete (Name s') (streams m2)) m2)); [done|].
      apply keyed_delete. by apply keyed_insert.
    + apply addPartitions_keyed in Hadd as [Hs' Hn]; [|done].
      eapply keyed_same.
      { apply (foldl_loads_streams addLoad). done. }
      set (m2 := set_streams (<[psName ps := newStream ps]> (streams m1)) m1).
      apply (keyed_insert m2 (psName ps) s'); [done|done|].
      by apply (keyed_insert m1 (psName ps) (newStream ps)).
  - (* ResumePartition *)
    unfold ResumePartition.
    destruct (streams m !! streamName) as [s|] eqn:Hs; simpl; [|done].
    destruct (partitions s !! id) as [p|] eqn:Hp; simpl; [|done].
    destruct (negb (IsPaused p)); simpl; [done|].
    destruct replaceFails; simpl; [done|].
    destruct (Hk _ _ Hs) as [Hn Hks]. pose proof (Hks _ _ Hp) as Hid.
    eapply keyed_same; [|apply (keyed_insert m streamName
                               (streamSetPartition s id (setPaused p false)))]; try done.
    subst id. exact (keyedStream_set s (setPaused p false) Hks).
  - (* ChangeLeader *)
    unfold ChangeLeader, GetPartition.
    destruct (streams m !! streamName) as [s|] eqn:Hs; simpl; [|done].
    destruct (partitions s !! id) as [p|] eqn:Hp; simpl; [|done].
    case_bool_decide; simpl; [done|]. destruct fails; simpl; [done|].
    destruct (Hk _ _ Hs) as [Hn Hks]. pose proof (Hks _ _ Hp) as Hid.
    intros name s' Hs'. simpl in Hs'.
    apply lookup_alter_Some in Hs' as [(<- & s0 & Hs0 & ->)|[_ Hs']]; [|by apply Hk].
    rewrite Hs in Hs0. injection Hs0 as <-. split; [done|].
    subst id. exact (keyedStream_set s (SetEpoch _ epoch) Hks).
  - (* PausePartitions *)
    unfold PausePartitions, GetStream.
    destruct (streams m !! streamName) as [s|] eqn:Hs; simpl; [|done].
    destruct (streamPause s ids resumeAll fails) as [e|[s' paused]] eqn:Hpause; simpl;
      [done|].
    destruct (Hk _ _ Hs) as [Hn Hks].
    apply streamPause_keyed in Hpause as [Hks' Hn']; [|done].
    eapply keyed_same.
    { apply (foldl_loads_streams dropLoad). done. }
    apply keyed_insert; [congruence|done|done].
  - (* RemoveStream *)
    unfold GetStream. destruct (streams m !! streamName') as [s|] eqn:Hs; [|done].
    unfold RemoveStream. destruct recovered; simpl.
    + eapply keyed_same.
      { apply (foldl_loads_streams dropLoad). done. }
      intros name s' Hs'. simpl in Hs'.
      apply lookup_alter_Some in Hs' as [(<- & s0 & Hs0 & ->)|[_ Hs']]; [|by apply Hk].
      by apply Hk in Hs0.
    + unfold deleteStream. destruct deleteFails; simpl; [done|].
      eapply keyed_same.
      { apply (foldl_loads_streams dropLoad). done. }
      eapply keyed_same; [|by apply (keyed_delete m (Name s))]. done.
Qed.

(** X15. The store keeps its keys: if every stream is stored under its name
    and every partition under its id, this is so after any sequence of
    AddStream, ResumePartition, ChangeLeader, PausePartitions and
    RemoveStream, whatever they return. GetStream(name) then returns a stream
    of that name, and GetPartition(name, id) a partition with that id. *)
Theorem store_keeps_keys (ops : list storeOp) (m : metadataAPI) :
  keyed m ->
  keyed (runOps ops m) /\
  (forall name s, GetStream (runOps ops m) name = Some s -> Name s = name) /\
  (forall name id p, GetPartition (runOps ops m) name id = Some p -> Id p = id).
Proof.
  intros Hk.
  assert (keyed (runOps ops m)) as Hk'.
  { revert m Hk. induction ops as [|o ops IH]; intros m Hk; [done|].
    simpl. by apply IH, applyOp_keyed. }
  split; [done|]. split.
  - intros name s Hs. by apply Hk' in Hs as [? _].
  - intros name id p. unfold GetPartition.
    destruct (streams (runOps ops m) !! name) as [s|] eqn:Hs; [|done].
    apply Hk' in Hs as [_ Hs]. apply Hs.
Qed.

Lemma store_keeps_keys_witness :
  exists p, GetPartition (runOps (take 3 lifecycle) neverExpires) "orders" 0 = Some p /\
            Id p = 0.
Proof.
  destruct (store_keeps_keys (take 3 lifecycle) neverExpires) as (_ & _ & H).
  - intros name s Hs. simpl in Hs. by rewrite lookup_empty in Hs.
  - destruct (GetPartition (runOps (take 3 lifecycle) neverExpires) "orders" 0)
      as [p|] eqn:Hp; [|by vm_compute in Hp].
    exists p. split; [reflexivity|]. by apply (H "orders").
Defined.

(** *** Metadata responses *)

Lemma response_entry (m : metadataAPI) (names : list string) (md : StreamMetadata) :
  md ∈ createMetadataResponse m names ->
  match GetStream m (smName md) with
  | None => smUnknown md = true /\ smPartitions md = ∅
  | Some s =>
      smUnknown md = false /\ smSubject md = Subject s /\
      smPartitions md = partitions s /\ smCreationTimestamp md = CreationTime s
  end.
Proof.
  unfold createMetadataResponse. cbv zeta.
  generalize (if bool_decide (Go.len names = 0) then Name <$> GetStreams m else names).
  intros ns Hmd. apply list_elem_of_fmap in Hmd as (name & -> & _).
  destruct (GetStream m name) as [s|] eqn:Hs; simpl; by rewrite Hs.
Qed.

(** X16. createMetadataResponse answers one entry per requested name, in the
    order of the request, duplicates included; an entry is marked unknown
    exactly when the store has no stream of its name, and else carries the
    subject, the partitions and the creation time of that stream. For an
    empty request, on a store that holds every stream under its name, it
    answers exactly the streams of the store, each once and none unknown. *)
Theorem createMetadataResponse_shape (m : metadataAPI) (names : list string) :
  (names <> [] -> smName <$> createMetadataResponse m names = names) /\
  (forall md, md ∈ createMetadataResponse m names ->
     match GetStream m (smName md) with
     | None => smUnknown md = true /\ smPartitions md = ∅
     | Some s =>
         smUnknown md = false /\ smSubject md = Subject s /\
         smPartitions md = partitions s /\ smCreationTimestamp md = CreationTime s
     end) /\
  (keyed m ->
   NoDup (smName <$> createMetadataResponse m []) /\
   (forall name, name ∈ smName <$> createMetadataResponse m [] <->
                 is_Some (GetStream m name)) /\
   (forall md, md ∈ createMetadataResponse m [] -> smUnknown md = false)).
Proof.
  split; [|split; [apply response_entry|]].
  - intros Hne. unfold createMetadataResponse. cbv zeta.
    rewrite bool_decide_eq_false_2 by (destruct names; [done|unfold Go.len; simpl; lia]).
    rewrite <- list_fmap_compose. rewrite <- (list_fmap_id names) at 2.
    apply list_fmap_ext. intros i name _. simpl. by destruct (GetStream m name).
  - intros Hk.
    assert (smName <$> createMetadataResponse m [] = (map_to_list (streams m)).*1) as Hnames.
    { unfold createMetadataResponse, GetStreams. cbv zeta.
      rewrite bool_decide_eq_true_2 by done.
      rewrite <- !list_fmap_compose.
      apply list_fmap_ext. intros i [name s] Hi. simpl.
      apply list_elem_of_lookup_2, elem_of_map_to_list in Hi.
      destruct (Hk _ _ Hi) as [-> _]. unfold GetStream. by rewrite Hi. }
    split; [|split].
    + rewrite Hnames. apply NoDup_fst_map_to_list.
    + intros name. rewrite Hnames. unfold GetStream. split.
      * intros Hin. apply list_elem_of_fmap in Hin as ([name' s] & -> & Hin).
        apply elem_of_map_to_list in Hin. by exists s.
      * intros [s Hs]. apply list_elem_of_fmap. exists (name, s).
        split; [done|]. by apply elem_of_map_to_list.
    + intros md Hmd. pose proof (response_entry m [] md Hmd) as He.
      assert (is_Some (GetStream m (smName md))) as [s Hs].
      { unfold GetStream.
        assert (smName md ∈ (map_to_list (streams m)).*1) as Hin.
        { rewrite <- Hnames. apply list_elem_of_fmap. by exists md. }
        apply list_elem_of_fmap in Hin as ([name' s] & -> & Hin).
        apply elem_of_map_to_list in Hin. by exists s. }
      rewrite Hs in He. by destruct He.
Qed.

(** *** The broker cache over time *)








(** *** AddStream *)

Lemma addPartitions_inr (ps : list partition) (s s' : stream)
    (startFails : partition -> option error) :
  addPartitions s ps startFails = inr s' ->
  Forall (fun p => startFails p = None) ps /\ NoDup (Id <$> ps) /\
  Forall (fun p => partitions s !! Id p = None) ps /\
  Name s' = Name s /\
  (forall id p, partitions s' !! id = Some p <->
                partitions s !! id = Some p \/ (p ∈ ps /\ Id p = id)).
Proof.
  revert s. induction ps as [|p ps IH]; intros s; simpl.
  - intros [= <-]. split; [done|]. split; [constructor|]. split; [done|]. split; [done|].
    intros id p. split; [by left|]. intros [?|[Hin _]]; [done|by apply elem_of_nil in Hin].
  - unfold addPartition. destruct (partitions s !! Id p) eqn:Hp; [done|].
    destruct (startFails p) eqn:Hf; [done|]. intros H.
    apply IH in H as (Hall & Hnd & Hfresh & Hname & Hparts). simpl in *.
    assert (Forall (fun q => Id q <> Id p) ps) as Hne.
    { eapply Forall_impl; [exact Hfresh|]. simpl. intros q Hq Heq.
      rewrite Heq, lookup_insert_eq in Hq. done. }
    split; [by constructor|]. split.
    { constructor; [|done]. intros Hin. apply list_elem_of_fmap in Hin as (q & Heq & Hq).
      rewrite Forall_forall in Hne. by apply (Hne q Hq). }
    split.
    { constructor; [done|]. rewrite Forall_forall in *. intros q Hq.
      specialize (Hfresh q Hq). specialize (Hne q Hq). simpl in Hfresh.
      by rewrite lookup_insert_ne in Hfresh. }
    split; [done|]. intros id q. rewrite Hparts. split.
    + intros [Hq|[Hq Hid]].
      * apply lookup_insert_Some in Hq as [[<- <-]|[_ Hq]]; [right|by left].
        split; [by left|done].
      * right. split; [by right|done].
    + intros [Hq|[Hq Hid]].
      * left. rewrite lookup_insert_ne; [done|]. intros <-. congruence.
      * apply elem_of_cons in Hq as [->|Hq]; [|right; by split].
        left. subst id. by rewrite lookup_insert_eq.
Qed.

Lemma addPartitions_subject (ps : list partition) (s s' : stream)
    (startFails : partition -> option error) :
  addPartitions s ps startFails = inr s' -> Subject s' = Subject s.
Proof.
  revert s. induction ps as [|p ps IH]; intros s; simpl; [by intros [= <-]|].
  unfold addPartition. destruct (partitions s !! Id p); [done|].
  destruct (startFails p); [done|]. intros H. by apply IH in H.
Qed.

Lemma addPartitions_total (ps : list partition) (s : stream)
    (startFails : partition -> option error) :
  Forall (fun p => startFails p = None) ps -> NoDup (Id <$> ps) ->
  Forall (fun p => partitions s !! Id p = None) ps ->
  exists s', addPartitions s ps startFails = inr s'.
Proof.
  revert s. induction ps as [|p ps IH]; intros s Hall Hnd Hfresh; simpl; [by eexists|].
  apply Forall_cons in Hall as [Hp Hall]. apply Forall_cons in Hfresh as [Hfp Hfresh].
  rewrite fmap_cons in Hnd. apply NoDup_cons in Hnd as [Hnin Hnd].
  unfold addPartition. rewrite Hfp, Hp. apply IH; [done|done|].
  rewrite Forall_forall in *. intros q Hq. simpl.
  rewrite lookup_insert_ne; [by apply Hfresh|].
  intros Heq. apply Hnin. apply list_elem_of_fmap. by exists q.
Qed.

Lemma foldl_addLoad_streams (ps : list partition) (m : metadataAPI) :
  streams (foldl (fun m p => addLoad p m) m ps) = streams m.
Proof. by apply (foldl_loads_streams addLoad). Qed.

(** Whether the store lets a stream of the name of [ps] in: the name is free,
    or, during recovery, held by a tombstoned stream that can be closed. *)
Definition admits (m : metadataAPI) (ps : protoStream) (recovered : bool)
    (closeFails : option error) : Prop :=
  match streams m !! psName ps with
  | None => True
  | Some existing => recovered = true /\ Tombstoned existing = true /\ closeFails = None
  end.

(** X18. AddStream returns a stream exactly when the entry has partitions,
    the name is free (or, during recovery, held by a tombstoned stream that
    closes), the partition ids of the entry are distinct and every partition
    starts. The stream it returns is stored under the name of the entry and
    holds exactly the partitions of the entry, each under its id. When it
    returns an error the load counters are untouched and, for a free name,
    so are the streams of the store: the stream it had begun to build is
    taken out again. *)
Theorem AddStream_outcome (m : metadataAPI) (ps : protoStream) (recovered : bool)
    (closeFails : option error) (startFails : partition -> option error) :
  let r := AddStream m ps recovered closeFails startFails in
  ((exists s, r.1 = inr s) <->
   psPartitions ps <> [] /\ admits m ps recovered closeFails /\
   NoDup (Id <$> psPartitions ps) /\
   Forall (fun p => startFails p = None) (psPartitions ps)) /\
  (forall s, r.1 = inr s ->
     Name s = psName ps /\ Subject s = psSubject ps /\
     GetStream r.2 (psName ps) = Some s /\
     (forall name, name <> psName ps -> streams m !! name = None ->
                   GetStream r.2 name = None) /\
     (forall id p, partitions s !! id = Some p <-> p ∈ psPartitions ps /\ Id p = id)) /\
  (forall e, r.1 = inl e ->
     brokerPartitionLoad r.2 = brokerPartitionLoad m /\
     brokerLeaderLoad r.2 = brokerLeaderLoad m /\
     (streams m !! psName ps = None -> streams r.2 = streams m)).
Proof.
  cbv zeta. unfold AddStream, admits.
  case_bool_decide as Hlen.
  { assert (psPartitions ps = []) as Hnil
      by (destruct (psPartitions ps); [done|unfold Go.len in Hlen; simpl in Hlen; lia]).
    simpl. split; [|done]. split; [by intros [s ?]|]. by intros [? _]. }
  assert (psPartitions ps <> []) as Hne.
  { intros Hnil. rewrite Hnil in Hlen. by apply Hlen. }
  set (gate := match streams m !! psName ps with Some _ => _ | None => _ end).
  assert (match gate with
          | inl _ => ~ match streams m !! psName ps with
                       | None => True
                       | Some existing =>
                           recovered = true /\ Tombstoned existing = true /\ closeFails = None
                       end
          | inr m1 =>
              match streams m !! psName ps with
              | None => True
              | Some existing =>
                  recovered = true /\ Tombstoned existing = true /\ closeFails = None
              end /\
              brokerPartitionLoad m1 = brokerPartitionLoad m /\
              brokerLeaderLoad m1 = brokerLeaderLoad m /\
              (streams m !! psName ps = None -> m1 = m) /\
              (forall name, streams m !! name = None -> streams m1 !! name = None)
          end) as Hgate.
  { unfold gate. destruct (streams m !! psName ps) as [existing|] eqn:Hex; [|done].
    destruct recovered; simpl; [|by intros (? & _)].
    destruct (Tombstoned existing); simpl; [|by intros (_ & ? & _)].
    destruct closeFails; simpl; [by intros (_ & _ & ?)|].
    split; [done|]. split; [done|]. split; [done|]. split; [done|].
    intros name Hn. by apply lookup_delete_None; right. }
  destruct gate as [e|m1]; simpl.
  { split; [|done]. split; [by intros [s ?]|]. by intros (_ & ? & _). }
  destruct Hgate as (Hadm & Hpl & Hll & Hfresh & Hothers).
  destruct (addPartitions (newStream ps) (psPartitions ps) startFails) as [[e s']|s']
    eqn:Hadd; simpl.
  - split; [|split; [done|]].
    + split; [by intros [s ?]|]. intros (_ & _ & Hnd & Hall).
      destruct (addPartitions_total (psPartitions ps) (newStream ps) startFails)
        as [s Hs]; [done|done| |congruence].
      apply Forall_forall. intros p _. apply lookup_empty.
    + intros e' _. split; [done|]. split; [done|]. intros Hnone.
      rewrite (Hfresh Hnone). apply addPartitions_failed_name in Hadd.
      rewrite Hadd. simpl. rewrite delete_insert_eq. by apply delete_id.
  - pose proof (addPartitions_subject _ _ _ _ Hadd) as Hsubj.
    apply addPartitions_inr in Hadd as (Hall & Hnd & _ & Hname & Hparts).
    split; [|split; [|done]].
    + split; [done|]. by eexists.
    + intros s [= <-]. split; [done|].
      split.
      { done. }
      split.
      { unfold GetStream. rewrite foldl_addLoad_streams. simpl.
        by rewrite lookup_insert_eq. }
      split.
      { intros name Hn Hnone. unfold GetStream. rewrite foldl_addLoad_streams. simpl.
        rewrite !lookup_insert_ne by done. by apply Hothers. }
      intros id p. rewrite Hparts. simpl. rewrite lookup_empty. split.
      * by intros [?|?].
      * by right.
Qed.

(** *** Load counters of a stream that comes and goes *)

(** How often [b] stands in [bs]. *)
Definition occurrences (b : string) (bs : list string) : Z :=
  Go.len (filter (fun x => x = b) bs).

Lemma occurrences_cons (b x : string) (bs : list string) :
  occurrences b (x :: bs) = (if decide (x = b) then 1 else 0) + occurrences b bs.
Proof.
  unfold occurrences, Go.len. rewrite filter_cons. case_decide; simpl; lia.
Qed.

Lemma occurrences_bounds (b : string) (bs : list string) :
  0 <= occurrences b bs <= Go.len bs.
Proof.
  unfold occurrences, Go.len. pose proof (length_filter (fun x => x = b) bs). lia.
Qed.

Lemma load_incs (bs : list string) (B : Z) (counts : gmap string Z) (b : string) :
  within B counts -> B + Go.len bs <= Go.MaxInt64 ->
  load (foldl (fun pl x => incLoad x pl) counts bs) b = load counts b + occurrences b bs.
Proof.
  revert B counts. induction bs as [|x bs IH]; intros B counts Hw HB.
  - simpl. unfold occurrences, Go.len. simpl. lia.
  - simpl. unfold Go.len in HB. simpl in HB.
    rewrite (IH (B + 1)); [|apply within_inc; [done|lia]|unfold Go.len; lia].
    rewrite occurrences_cons. unfold incLoad. rewrite load_insert.
    pose proof (Hw x) as Hx.
    case_decide; [|lia]. subst.
    rewrite int64_small; unfold Go.MinInt64, Go.MaxInt64 in *; lia.
Qed.

Lemma load_decs (bs : list string) (B : Z) (counts : gmap string Z) (b : string) :
  within B counts -> B <= Go.MaxInt64 ->
  (forall x, occurrences x bs <= load counts x) ->
  load (foldl (fun pl x => decLoad x pl) counts bs) b = load counts b - occurrences b bs.
Proof.
  revert counts. induction bs as [|x bs IH]; intros counts Hw HB Hocc.
  - simpl. unfold occurrences, Go.len. simpl. lia.
  - simpl.
    assert (0 < load counts x) as Hpos.
    { specialize (Hocc x). rewrite occurrences_cons in Hocc.
      pose proof (occurrences_bounds x bs). rewrite decide_True in Hocc by done. lia. }
    assert (forall y, load (decLoad x counts) y
                      = load counts y - (if decide (x = y) then 1 else 0)) as Hdec.
    { intros y. unfold decLoad. rewrite bool_decide_eq_true_2 by done.
      rewrite load_insert. pose proof (Hw x) as Hx.
      case_decide; [|lia]. subst.
      rewrite int64_small; unfold Go.MinInt64, Go.MaxInt64 in *; lia. }
    rewrite IH; [|by apply within_dec|done|].
    + rewrite Hdec, occurrences_cons. lia.
    + intros y. rewrite Hdec. specialize (Hocc y). rewrite occurrences_cons in Hocc. lia.
Qed.

Lemma addLoads_partition (ps : list partition) (m : metadataAPI) :
  brokerPartitionLoad (foldl (fun m p => addLoad p m) m ps)
  = foldl (fun pl x => incLoad x pl) (brokerPartitionLoad m) (concat (Replicas <$> ps)) /\
  brokerLeaderLoad (foldl (fun m p => addLoad p m) m ps)
  = foldl (fun pl x => incLoad x pl) (brokerLeaderLoad m) (Leader <$> ps).
Proof.
  revert m. induction ps as [|p ps IH]; intros m; [done|].
  simpl. rewrite foldl_app. destruct (IH (addLoad p m)) as [-> ->]. done.
Qed.

Lemma dropLoads_partition (ps : list partition) (m : metadataAPI) :
  brokerPartitionLoad (foldl (fun m p => dropLoad p m) m ps)
  = foldl (fun pl x => decLoad x pl) (brokerPartitionLoad m) (concat (Replicas <$> ps)) /\
  brokerLeaderLoad (foldl (fun m p => dropLoad p m) m ps)
  = foldl (fun pl x => decLoad x pl) (brokerLeaderLoad m) (Leader <$> ps).
Proof.
  revert m. induction ps as [|p ps IH]; intros m; [done|].
  simpl. rewrite foldl_app. destruct (IH (dropLoad p m)) as [-> ->]. done.
Qed.

Lemma weights_replicas (ps : list partition) :
  Go.len (concat (Replicas <$> ps)) + Go.len (Leader <$> ps) = weights ps.
Proof.
  unfold Go.len. induction ps as [|p ps IH]; [done|].
  rewrite !fmap_cons. change (weights (p :: ps)) with (weight p + weights ps).
  change (concat (Replicas p :: (Replicas <$> ps)))
    with (Replicas p ++ concat (Replicas <$> ps)).
  unfold weight, Go.len. rewrite length_app, length_cons. lia.
Qed.

Lemma inc_then_dec (bs : list string) (B : Z) (counts : gmap string Z) (b : string) :
  within B counts -> B + Go.len bs <= Go.MaxInt64 ->
  load (foldl (fun pl x => decLoad x pl) (foldl (fun pl x => incLoad x pl) counts bs) bs) b
  = load counts b.
Proof.
  intros Hw HB. assert (0 <= Go.len bs) by (unfold Go.len; lia).
  rewrite (load_decs bs (B + Go.len bs)); [|by apply within_incs|lia|].
  - rewrite (load_incs bs B) by done. lia.
  - intros x. rewrite (load_incs bs B) by done. pose proof (Hw x). lia.
Qed.

(** X19. A stream that is added and then removed leaves every load counter
    as it was: for counters between 0 and a bound that the increments of
    the stream do not take past the largest int, RemoveStream of the stream
    that AddStream returned, whether it deletes or tombstones the stream,
    takes off each broker exactly the partitions and the leaderships that
    AddStream had counted for it. *)
Theorem AddStream_RemoveStream_loads (m m1 : metadataAPI) (ps : protoStream)
    (recovered recovered' : bool) (closeFails : option error)
    (startFails : partition -> option error) (s : stream) (B : Z) :
  bounded B m -> B + weights (GetPartitions s) <= Go.MaxInt64 ->
  AddStream m ps recovered closeFails startFails = (inr s, m1) ->
  let r := RemoveStream m1 s recovered' None in
  r.1 = None /\
  forall b,
    load (brokerPartitionLoad r.2) b = load (brokerPartitionLoad m) b /\
    load (brokerLeaderLoad r.2) b = load (brokerLeaderLoad m) b.
Proof.
  intros [Hwp Hwl] HB Hadd. cbv zeta.
  pose proof (weights_replicas (GetPartitions s)) as Hw.
  assert (0 <= Go.len (concat (Replicas <$> GetPartitions s))) by (unfold Go.len; lia).
  assert (0 <= Go.len (Leader <$> GetPartitions s)) by (unfold Go.len; lia).
  assert (exists m0,
            m1 = foldl (fun m p => addLoad p m) m0 (GetPartitions s) /\
            brokerPartitionLoad m0 = brokerPartitionLoad m /\
            brokerLeaderLoad m0 = brokerLeaderLoad m) as (m0 & -> & Hpl & Hll).
  { revert Hadd. unfold AddStream. case_bool_decide; [done|].
    destruct (streams m !! psName ps) as [existing|]; simpl.
    - destruct (negb recovered); [done|]. destruct (negb (Tombstoned existing)); [done|].
      destruct closeFails; [done|].
      destruct (addPartitions _ _ _) as [[e s']|s']; simpl; [done|].
      intros [= <- <-]. by eexists.
    - destruct (addPartitions _ _ _) as [[e s']|s']; simpl; [done|].
      intros [= <- <-]. by eexists. }
  set (m1 := foldl _ m0 _).
  assert (exists m2,
            RemoveStream m1 s recovered' None
              = (None, foldl (fun m p => dropLoad p m) m2 (GetPartitions s)) /\
            brokerPartitionLoad m2 = brokerPartitionLoad m1 /\
            brokerLeaderLoad m2 = brokerLeaderLoad m1) as (m2 & -> & Hpl2 & Hll2).
  { unfold RemoveStream. destruct recovered'; simpl; by eexists. }
  split; [done|]. intros b. simpl.
  destruct (dropLoads_partition (GetPartitions s) m2) as [-> ->].
  rewrite Hpl2, Hll2. unfold m1.
  destruct (addLoads_partition (GetPartitions s) m0) as [-> ->].
  rewrite Hpl, Hll. split.
  - apply (inc_then_dec _ B); [done|lia].
  - apply (inc_then_dec _ B); [done|lia].
Qed.

(** The stream that AddStream makes of [ordersStream] on [threeBrokers]. *)
Definition ordersAdded : stream :=
  match (AddStream threeBrokers ordersStream false None (fun _ => None)).1 with
  | inr s => s
  | inl _ => newStream ordersStream
  end.

Lemma AddStream_RemoveStream_loads_witness :
  let added := (AddStream threeBrokers ordersStream false None (fun _ => None)).2 in
  load (brokerPartitionLoad added) "a" = 3 /\
  load (brokerPartitionLoad (RemoveStream added ordersAdded false None).2) "a" = 2 /\
  load (brokerLeaderLoad (RemoveStream added ordersAdded false None).2) "b" = 3.
Proof.
  cbv zeta. split; [by vm_compute|].
  destruct (AddStream_RemoveStream_loads threeBrokers
              (AddStream threeBrokers ordersStream false None (fun _ => None)).2
              ordersStream false false None (fun _ => None) ordersAdded 3) as [_ Hloads].
  - split; intros b; unfold load.
    + change (brokerPartitionLoad threeBrokers)
        with ({[ "a" := 2; "b" := 0; "c" := 1 ]} : gmap string Z).
      destruct (_ !! b) as [z|] eqn:Hz; simpl; [|lia].
      apply lookup_insert_Some in Hz as [[_ <-]|[_ Hz]]; [lia|].
      apply lookup_insert_Some in Hz as [[_ <-]|[_ Hz]]; [lia|].
      apply lookup_singleton_Some in Hz as [_ <-]. lia.
    + change (brokerLeaderLoad threeBrokers)
        with ({[ "b" := 3; "c" := 1 ]} : gmap string Z).
      destruct (_ !! b) as [z|] eqn:Hz; simpl; [|lia].
      apply lookup_insert_Some in Hz as [[_ <-]|[_ Hz]]; [lia|].
      apply lookup_singleton_Some in Hz as [_ <-]. lia.
  - by vm_compute.
  - reflexivity.
  - split.
    + etrans; [exact (proj1 (Hloads "a"))|reflexivity].
    + etrans; [exact (proj2 (Hloads "b"))|reflexivity].
Defined.

(** *** ResumePartition *)

(** X20. Resume is idempotent. When ResumePartition returns a partition,
    the partition is not paused, and every later ResumePartition of it
    returns the same partition with a nil error and leaves the store and the
    load counters as they are, so the load of a partition is counted once
    however often it is resumed. This holds also when the first call
    returned the error of starting the partition: the partition is stored
    and counted before it is started. *)
Theorem ResumePartition_idempotent (m m1 : metadataAPI) (streamName : string) (id : Z)
    (recovered recovered' : bool) (replaceFails startFails replaceFails' startFails'
       : option error) (p' : partition) (e : option error) :
  ResumePartition m streamName id recovered replaceFails startFails = (Some p', e, m1) ->
  IsPaused p' = false /\
  GetPartition m1 streamName id = Some p' /\
  (exists p, GetPartition m streamName id = Some p /\ p' = setPaused p false /\
             (IsPaused p = false -> m1 = m /\ e = None) /\
             (IsPaused p = true -> e = startFails)) /\
  ResumePartition m1 streamName id recovered' replaceFails' startFails'
    = (Some p', None, m1).
Proof.
  unfold ResumePartition at 1. unfold GetPartition at 2.
  destruct (streams m !! streamName) as [s|] eqn:Hs; [|done].
  destruct (partitions s !! id) as [p|] eqn:Hp; [|done].
  destruct (IsPaused p) eqn:Hpaused; simpl.
  - destruct replaceFails; [done|]. intros [= <- <- <-].
    set (p' := setPaused p false).
    set (s' := streamSetPartition s id p').
    set (m1 := addLoad p' _).
    assert (streams m1 !! streamName = Some s') as Hs'.
    { unfold m1. simpl. by rewrite lookup_insert_eq. }
    assert (partitions s' !! id = Some p') as Hp'.
    { unfold s'. simpl. by rewrite lookup_insert_eq. }
    split; [done|]. split; [unfold GetPartition; by rewrite Hs'|]. split.
    + exists p. split; [done|]. split; [done|]. split; [congruence|done].
    + unfold ResumePartition. rewrite Hs', Hp'. done.
  - intros [= <- <- <-]. split; [done|].
    split; [unfold GetPartition; by rewrite Hs|]. split.
    + exists p. split; [done|]. split; [|split; [done|congruence]].
      unfold IsPaused in Hpaused. destruct p. simpl in *. by subst.
    + unfold ResumePartition. rewrite Hs, Hp, Hpaused. done.
Qed.

(** [oneStream] with its partition paused. *)
Definition pausedStream : metadataAPI :=
  (PausePartitions oneStream "orders" [] false None).2.

Lemma ResumePartition_idempotent_witness :
  let resumed := ResumePartition pausedStream "orders" 0 false None None in
  ResumePartition resumed.2 "orders" 0 false None None = (Some partition0, None, resumed.2) /\
  load (brokerPartitionLoad (ResumePartition resumed.2 "orders" 0 false None None).2) "a" = 1.
Proof.
  cbv zeta.
  destruct (ResumePartition_idempotent pausedStream
              (ResumePartition pausedStream "orders" 0 false None None).2
              "orders" 0 false false None None None None partition0 None)
    as (_ & _ & _ & Hagain); [reflexivity|].
  split; [exact Hagain|]. rewrite Hagain. reflexivity.
Defined.

(** *** Requests against a partition *)

Lemma partitionExists_spec (m : metadataAPI) (s : string) (id : Z) :
  (partitionExists m s id = None <-> is_Some (GetPartition m s id)) /\
  (partitionExists m s id = Some ErrStreamNotFound <-> GetStream m s = None) /\
  (forall e, partitionExists m s id = Some e ->
             e = ErrStreamNotFound \/ e = ErrPartitionNotFound).
Proof.
  unfold partitionExists, GetPartition, GetStream.
  destruct (streams m !! s) as [st|].
  - destruct (partitions st !! id) as [p|].
    + split; [split; [by eexists|done]|]. split; [done|]. done.
    + split; [split; [done|by intros [? ?]]|]. split; [done|]. intros e [= <-]. by right.
  - split; [split; [done|by intros [? ?]]|]. split; [done|]. intros e [= <-]. by left.
Qed.

(** X21. The requests that name a partition and its leader. ShrinkISR and
    ExpandISR propose an entry to Raft only as the metadata leader, for a
    partition that the store holds, and when the request carries the leader
    and the leader epoch that the partition has; what they propose is the
    request itself, and the precondition that Raft checks for it
    (partitionExists) holds at that moment. A request for a missing
    partition or with another leader or leader epoch is a
    FailedPrecondition. Where the precondition holds, the entry applied
    (RemoveFromISR, AddToISR, ChangeLeader) does not fail for a missing
    partition; where it fails, the entry applied returns an error and leaves
    the store as it is. *)
Theorem partition_requests_fenced (m : metadataAPI) (who : role)
    (sh : ShrinkISROp) (ex : ExpandISROp)
    (raftS : ShrinkISROp -> raftResult) (raftE : ExpandISROp -> raftResult) :
  (forall op, (ShrinkISR m who sh raftS).2 = Some op ->
     op = sh /\ who <> Forwarded false None /\
     checkShrinkISRPreconditions m op = None /\
     exists p, GetPartition m (shStream sh) (shPartition sh) = Some p /\
               shLeader sh = Leader p /\ shLeaderEpoch sh = LeaderEpoch p) /\
  (forall op, (ExpandISR m who ex raftE).2 = Some op ->
     op = ex /\ who <> Forwarded false None /\
     checkExpandISRPreconditions m op = None /\
     exists p, GetPartition m (exStream ex) (exPartition ex) = Some p /\
               exLeader ex = Leader p /\ exLeaderEpoch ex = LeaderEpoch p) /\
  (forall p, GetPartition m (shStream sh) (shPartition sh) = Some p ->
     (shLeader sh <> Leader p \/ shLeaderEpoch sh <> LeaderEpoch p) ->
     ShrinkISR m MetadataLeader sh raftS
       = (Some (generationMismatch (Leader p) (LeaderEpoch p)
                  (shLeader sh) (shLeaderEpoch sh)), None)) /\
  (forall p, GetPartition m (exStream ex) (exPartition ex) = Some p ->
     (exLeader ex <> Leader p \/ exLeaderEpoch ex <> LeaderEpoch p) ->
     ExpandISR m MetadataLeader ex raftE
       = (Some (generationMismatch (Leader p) (LeaderEpoch p)
                  (exLeader ex) (exLeaderEpoch ex)), None)) /\
  (forall s x id epoch,
     match partitionExists m s id with
     | None =>
         (RemoveFromISR m s x id epoch None).1 = None /\
         (AddToISR m s x id epoch None).1 = None /\
         (ChangeLeader m s x id epoch None).1 = None
     | Some _ =>
         forall fails,
           RemoveFromISR m s x id epoch fails
             = (Some (ErrText (noSuchPartition s id)), m) /\
           AddToISR m s x id epoch fails = (Some (ErrText (noSuchPartition s id)), m) /\
           ChangeLeader m s x id epoch fails = (Some (ErrText (noSuchPartition s id)), m)
     end).
Proof.
  split; [|split; [|split; [|split]]].
  - intros op. unfold ShrinkISR, checkShrinkISRPreconditions.
    assert ((match GetPartition m (shStream sh) (shPartition sh) with
               | None => (Some {| Code := FailedPrecondition;
                                  Msg := noSuchPartition (shStream sh) (shPartition sh) |},
                          None)
               | Some p =>
                   let '(leader, epoch) := GetLeader p in
                   if bool_decide (shLeader sh <> leader \/ shLeaderEpoch sh <> epoch) then
                     (Some (generationMismatch leader epoch (shLeader sh) (shLeaderEpoch sh)),
                      None)
                   else
                     match raftS sh with
                     | RaftRefused err =>
                         (Some {| Code := FailedPrecondition; Msg := errorText err |},
                          Some sh)
                     | RaftFailed err =>
                         (Some {| Code := Internal;
                                  Msg := "Failed to shrink ISR: " +:+ err |}, Some sh)
                     | RaftCommitted => (None, Some sh)
                     end
               end).2 = Some op ->
              op = sh /\ partitionExists m (shStream op) (shPartition op) = None /\
              exists p, GetPartition m (shStream sh) (shPartition sh) = Some p /\
                        shLeader sh = Leader p /\ shLeaderEpoch sh = LeaderEpoch p) as Hbody.
    { destruct (GetPartition m (shStream sh) (shPartition sh)) as [p|] eqn:Hp; [|done].
      unfold GetLeader. case_bool_decide as Hgen; [done|].
      intros Hop. assert (op = sh) as -> by (destruct (raftS sh); by injection Hop).
      split; [done|]. split.
      - apply partitionExists_spec. by rewrite Hp.
      - exists p. split; [done|].
        destruct (decide (shLeader sh = Leader p)); [|by destruct Hgen; left].
        destruct (decide (shLeaderEpoch sh = LeaderEpoch p)); [done|by destruct Hgen; right]. }
    destruct who as [|[] [st|]]; simpl; try done.
    + intros H. destruct (Hbody H) as (? & ? & ?). done.
    + intros H. destruct (Hbody H) as (? & ? & ?). done.
  - intros op. unfold ExpandISR, checkExpandISRPreconditions.
    assert ((match GetPartition m (exStream ex) (exPartition ex) with
               | None => (Some {| Code := FailedPrecondition;
                                  Msg := noSuchPartition (exStream ex) (exPartition ex) |},
                          None)
               | Some p =>
                   let '(leader, epoch) := GetLeader p in
                   if bool_decide (exLeader ex <> leader \/ exLeaderEpoch ex <> epoch) then
                     (Some (generationMismatch leader epoch (exLeader ex) (exLeaderEpoch ex)),
                      None)
                   else
                     match raftE ex with
                     | RaftRefused err =>
                         (Some {| Code := FailedPrecondition; Msg := errorText err |},
                          Some ex)
                     | RaftFailed err =>
                         (Some {| Code := Internal;
                                  Msg := "Failed to expand ISR: " +:+ err |}, Some ex)
                     | RaftCommitted => (None, Some ex)
                     end
               end).2 = Some op ->
              op = ex /\ partitionExists m (exStream op) (exPartition op) = None /\
              exists p, GetPartition m (exStream ex) (exPartition ex) = Some p /\
                        exLeader ex = Leader p /\ exLeaderEpoch ex = LeaderEpoch p) as Hbody.
    { destruct (GetPartition m (exStream ex) (exPartition ex)) as [p|] eqn:Hp; [|done].
      unfold GetLeader. case_bool_decide as Hgen; [done|].
      intros Hop. assert (op = ex) as -> by (destruct (raftE ex); by injection Hop).
      split; [done|]. split.
      - apply partitionExists_spec. by rewrite Hp.
      - exists p. split; [done|].
        destruct (decide (exLeader ex = Leader p)); [|by destruct Hgen; left].
        destruct (decide (exLeaderEpoch ex = LeaderEpoch p)); [done|by destruct Hgen; right]. }
    destruct who as [|[] [st|]]; simpl; try done.
    + intros H. destruct (Hbody H) as (? & ? & ?). done.
    + intros H. destruct (Hbody H) as (? & ? & ?). done.
  - intros p Hp Hgen. unfold ShrinkISR. rewrite Hp. unfold GetLeader.
    by rewrite bool_decide_eq_true_2.
  - intros p Hp Hgen. unfold ExpandISR. rewrite Hp. unfold GetLeader.
    by rewrite bool_decide_eq_true_2.
  - intros s x id epoch.
    destruct (partitionExists_spec m s id) as ([Hyes _] & _ & _).
    destruct (partitionExists m s id) as [e|] eqn:He.
    + intros fails.
      assert (GetPartition m s id = None) as Hnone.
      { destruct (GetPartition m s id) eqn:Hp; [|done].
        destruct (partitionExists_spec m s id) as ([_ Hno] & _).
        assert (partitionExists m s id = None) as Hn
          by (apply Hno; rewrite Hp; by eexists).
        congruence. }
      unfold RemoveFromISR, AddToISR, ChangeLeader. by rewrite Hnone.
    + destruct (Hyes eq_refl) as [p Hp].
      unfold RemoveFromISR, AddToISR, ChangeLeader. rewrite Hp. simpl.
      by case_bool_decide.
Qed.

(** *** Preconditions of stream entries *)

Lemma partitionsExist_spec (s : stream) (ids : list Z) :
  partitionsExist s ids = None <-> Forall (fun id => is_Some (partitions s !! id)) ids.
Proof.
  induction ids as [|id ids IH]; simpl.
  - split; [by constructor|done].
  - destruct (partitions s !! id) as [p|] eqn:Hp.
    + rewrite IH. split.
      * intros H. constructor; [by eexists|done].
      * by intros [_ H]%Forall_cons.
    + split; [done|]. intros [[x Hx] _]%Forall_cons. congruence.
Qed.

Lemma mapM_lookup {A} (m : gmap Z A) (ids : list Z) :
  Forall (fun id => is_Some (m !! id)) ids -> is_Some (mapM (fun id => m !! id) ids).
Proof.
  intros Hall. induction Hall as [|id ids [x Hx] Hall [xs IH]]; [by eexists|].
  exists (x :: xs). apply mapM_Some. constructor; [done|]. by apply mapM_Some.
Qed.

(** X22. The preconditions that Raft checks before it accepts an entry are
    those under which applying the entry does not fail for a missing or an
    existing stream.
    - For a CREATE_STREAM entry whose first partition carries the name of the
      stream: the check passes exactly when the store has no stream of the
      name, and AddStream then returns a stream as soon as the partition ids
      are distinct and the partitions start; when the check fails, AddStream
      outside recovery returns ErrStreamExists and leaves the store as it
      is. The check reads the name off the first partition, and has none to
      read on an entry without partitions.
    - checkDeleteStreamPreconditions passes exactly when the stream exists.
    - checkPauseStreamPreconditions passes exactly when the stream exists
      with every listed partition, and PausePartitions then returns nil when
      the partitions can be closed; without the stream both return
      ErrStreamNotFound, and PausePartitions leaves the store as it is. *)
Theorem preconditions_guard_apply (m : metadataAPI) (op : protoStream) (name : string)
    (ids : list Z) :
  (checkCreateStreamPreconditions m op = None <-> psPartitions op = []) /\
  (forall p, head (psPartitions op) = Some p -> Stream p = psName op ->
     (checkCreateStreamPreconditions m op = Some None <-> GetStream m (psName op) = None) /\
     (checkCreateStreamPreconditions m op = Some None ->
      forall recovered closeFails startFails,
        NoDup (Id <$> psPartitions op) ->
        Forall (fun p => startFails p = None) (psPartitions op) ->
        exists s, (AddStream m op recovered closeFails startFails).1 = inr s) /\
     (checkCreateStreamPreconditions m op = Some (Some ErrStreamExists) ->
      forall closeFails startFails,
        AddStream m op false closeFails startFails = (inl ErrStreamExists, m))) /\
  (checkDeleteStreamPreconditions m name = None <-> is_Some (GetStream m name)) /\
  (checkPauseStreamPreconditions m name ids = None <->
   exists s, GetStream m name = Some s /\
             Forall (fun id => is_Some (partitions s !! id)) ids) /\
  (checkPauseStreamPreconditions m name ids = None ->
   forall resumeAll, (PausePartitions m name ids resumeAll None).1 = None) /\
  (checkPauseStreamPreconditions m name ids = Some ErrStreamNotFound ->
   forall resumeAll fails,
     PausePartitions m name ids resumeAll fails = (Some ErrStreamNotFound, m)).
Proof.
  split; [|split; [|split; [|split; [|split]]]].
  - unfold checkCreateStreamPreconditions. by destruct (psPartitions op).
  - intros p Hhead Hname. unfold checkCreateStreamPreconditions.
    destruct (psPartitions op) as [|p0 rest] eqn:Hps; [done|].
    injection Hhead as ->. rewrite Hname. unfold GetStream.
    destruct (streams m !! psName op) as [existing|] eqn:Hex.
    + split; [by split|]. split; [done|]. intros _ closeFails startFails.
      unfold AddStream. rewrite Hps, Hex.
      rewrite bool_decide_eq_false_2 by (unfold Go.len; simpl; lia). done.
    + split; [by split|]. split; [|done].
      intros _ recovered closeFails startFails Hnd Hall.
      unfold AddStream. rewrite Hps, Hex.
      rewrite bool_decide_eq_false_2 by (unfold Go.len; simpl; lia).
      destruct (addPartitions_total (p :: rest) (newStream op) startFails)
        as [s' Hs']; [done|done| |].
      { apply Forall_forall. intros q _. apply lookup_empty. }
      rewrite Hs'. by eexists.
  - unfold checkDeleteStreamPreconditions.
    destruct (GetStream m name) as [s|].
    + split; [by eexists|done].
    + split; [done|]. by intros [? ?].
  - unfold checkPauseStreamPreconditions.
    destruct (GetStream m name) as [s|]; [|split; [done|by intros (? & ? & _)]].
    rewrite partitionsExist_spec. split; [intros H; by exists s|].
    by intros (s' & [= <-] & H).
  - unfold checkPauseStreamPreconditions, PausePartitions.
    destruct (GetStream m name) as [s|]; [|done].
    rewrite partitionsExist_spec. intros Hall resumeAll.
    unfold streamPause. case_bool_decide; simpl; [done|].
    destruct (mapM_lookup (partitions s) ids Hall) as [ps ->]. done.
  - unfold checkPauseStreamPreconditions, PausePartitions.
    destruct (GetStream m name) as [s|]; [|done].
    intros H. destruct (partitionsExist s ids) as [e|] eqn:He; [|done].
    injection H as ->. exfalso. revert He. clear.
    induction ids as [|id ids IH]; simpl; [done|].
    destruct (partitions s !! id); [done|]. done.
Qed.

End server_more.
